(** * EVE image toolkit: rasterisation, flood fill, region labelling, peaks

    A shallow embedding of the routines of [eve.py] that draw into, fill,
    label, resample and search image buffers, together with the properties
    that the design document states about them.

    Conventions of the embedding.
    - An EVE image is a numpy array with three axes (row, column, channel);
      it is a list of rows, each a list of pixels, each a list of samples.
    - Python integers are [Z]; Python floats are IEEE binary64 numbers,
      Rocq's primitive [float].
    - A Python exception is a [Raise] outcome; a [while] loop whose
      termination is not evident from its text runs on fuel, and running out
      of fuel is the [Timeout] outcome. *)

From stdpp Require Import base numbers list sorting sets strings.
From Stdlib Require Import ZArith QArith Lia Lqa.
From Stdlib Require Import Floats.PrimFloat Floats.FloatOps Floats.SpecFloat.

#[local] Open Scope Z_scope.

(* ===================================================================== *)
(** * Part I: the embedding                                               *)
(* ===================================================================== *)

(** ** Outcomes of a call *)

Inductive exn : Set :=
  IndexError | ValueError | OverflowError | ZeroDivisionError.

Inductive result (A : Type) : Type :=
| Ok (a : A)
| Raise (e : exn)
| Timeout.
Arguments Ok {A} a.
Arguments Raise {A} e.
Arguments Timeout {A}.

Definition bind {A B : Type} (m : result A) (k : A → result B) : result B :=
  match m with
  | Ok a => k a
  | Raise e => Raise e
  | Timeout => Timeout
  end.

Notation "'let*' x := m 'in' k" := (bind m (fun x => k))
  (at level 10, x name, m at level 100, k at level 200).
Notation "'let*' ' p := m 'in' k" := (bind m (fun p => k))
  (at level 10, p pattern, m at level 100, k at level 200).

(** [for x in xs: body], threading the variables the body assigns. *)
Fixpoint for_each {A S : Type} (xs : list A) (body : A → S → result S)
    (s : S) : result S :=
  match xs with
  | [] => Ok s
  | x :: xs' => let* s' := body x s in for_each xs' body s'
  end.

(** [xrange (lo, hi)]. *)
Definition xrange (lo hi : Z) : list Z :=
  map (fun i : nat => lo + Z.of_nat i) (seq 0 (Z.to_nat (hi - lo))).

(** [a and b] on conditions that may raise: [b] is evaluated only when
    [a] holds. *)
Definition and_then (a b : result bool) : result bool :=
  let* r := a in if r then b else Ok false.
Infix "&&&" := and_then (at level 40, left associativity).

(** ** Images and numpy indexing *)

Abbreviation image A := (list (list (list A))).

(** [sizes (im)] is [im.shape]: rows, columns, channels. *)
Definition sizes {A : Type} (im : image A) : Z * Z * Z :=
  (Z.of_nat (length im),
   Z.of_nat (length (hd [] im)),
   Z.of_nat (length (hd [] (hd [] im)))).
Arguments sizes : simpl never.

(** Every row has the same number of pixels and every pixel the same
    number of channels. *)
Definition wf_image {A : Type} (im : image A) : Prop :=
  Forall (fun row : list (list A) =>
            Z.of_nat (length row) = (sizes im).1.2 ∧
            Forall (fun p : list A => Z.of_nat (length p) = (sizes im).2) row)
         im.

(** A well-formed image of the given extents. *)
Definition shaped {A : Type} (ny nx nc : Z) (im : image A) : Prop :=
  wf_image im ∧ sizes im = (ny, nx, nc).

(** An index [i] into an axis of extent [n]: numpy counts a negative index
    from the end and raises [IndexError] outside [-n, n). *)
Definition np_index (n i : Z) : result nat :=
  if (0 <=? i) && (i <? n) then Ok (Z.to_nat i)
  else if (- n <=? i) && (i <? 0) then Ok (Z.to_nat (i + n))
  else Raise IndexError.

Definition of_option {A : Type} (o : option A) : result A :=
  match o with Some a => Ok a | None => Raise IndexError end.

(** [im[y,x]]: the samples of one pixel. *)
Definition getitem2 {A : Type} (im : image A) (y x : Z) : result (list A) :=
  let '(ny, nx, _) := sizes im in
  let* i := np_index ny y in
  let* j := np_index nx x in
  of_option (row ← im !! i; row !! j).

(** [im[y,x,c]]. *)
Definition getitem3 {A : Type} (im : image A) (y x c : Z) : result A :=
  let '(_, _, nc) := sizes im in
  let* p := getitem2 im y x in
  let* k := np_index nc c in
  of_option (p !! k).

(** In-place update of the pixel [im[y,x]] by [f]. *)
Definition update_pixel {A : Type} (im : image A) (y x : Z)
    (f : list A → list A) : result (image A) :=
  let '(ny, nx, _) := sizes im in
  let* i := np_index ny y in
  let* j := np_index nx x in
  let* row := of_option (im !! i) in
  let* p := of_option (row !! j) in
  Ok (<[i := <[j := f p]> row]> im).

(** [im[y,x] = v] and [im[y,x,:] = v] with a scalar [v]: every channel of
    the pixel receives [v]. *)
Definition setitem2 {A : Type} (im : image A) (y x : Z) (v : A)
    : result (image A) :=
  update_pixel im y x (map (fun _ => v)).

(** [im[y,x,c] = v]. *)
Definition setitem3 {A : Type} (im : image A) (y x c : Z) (v : A)
    : result (image A) :=
  let '(_, _, nc) := sizes im in
  let* k := np_index nc c in
  update_pixel im y x (fun p => <[k := v]> p).

(** The sample at row [y], column [x], channel [c], for statements: the
    given default outside the image. *)
Definition sample {A : Type} (d : A) (im : image A) (y x c : Z) : A :=
  if (0 <=? y) && (0 <=? x) && (0 <=? c) then
    default d (row ← im !! Z.to_nat y; p ← row !! Z.to_nat x; p !! Z.to_nat c)
  else d.

(** The pixel at row [y], column [x], for statements. *)
Definition pixel {A : Type} (im : image A) (y x : Z) : list A :=
  if (0 <=? y) && (0 <=? x) then
    default [] (row ← im !! Z.to_nat y; row !! Z.to_nat x)
  else [].

(** [numpy.zeros ((ny, nx, nc))] and its like. *)
Definition full {A : Type} (ny nx nc : nat) (v : A) : image A :=
  replicate ny (replicate nx (replicate nc v)).

(** ** Peaks: [find_peaks] and [high_peaks]

    Samples are integers here: the routines only compare them. *)

(** A peak is the Python list [[value, y, x]]. *)
Abbreviation peak := (Z * Z * Z)%type.

(** Python's ordering of two such lists: lexicographic. *)
Definition peak_compare (p q : peak) : comparison :=
  let '(v1, y1, x1) := p in
  let '(v2, y2, x2) := q in
  match v1 ?= v2 with
  | Eq => match y1 ?= y2 with Eq => x1 ?= x2 | c => c end
  | c => c
  end.

Definition peak_ltb (p q : peak) : bool :=
  match peak_compare p q with Lt => true | _ => false end.

(** [peaks.sort (reverse=True)]: a stable sort under the reversed
    comparison; an element goes in front of the first one that is not
    greater than it. *)
Fixpoint insert_reverse (p : peak) (l : list peak) : list peak :=
  match l with
  | [] => [p]
  | q :: l' => if peak_ltb p q then q :: insert_reverse p l' else p :: q :: l'
  end.

Definition sort_reverse (l : list peak) : list peak :=
  foldr insert_reverse [] l.

(** [im[y,x,0] > im[t,s,0]]. *)
Definition exceeds (im : image Z) (y x t s : Z) : result bool :=
  let* a := getitem3 im y x 0 in
  let* b := getitem3 im t s 0 in
  Ok (b <? a).

Definition is_peak (im : image Z) (y x threshold : Z) : result bool :=
  exceeds im y x (y - 1) (x - 1)
  &&& exceeds im y x (y - 1) x
  &&& exceeds im y x (y - 1) (x + 1)
  &&& exceeds im y x y (x - 1)
  &&& exceeds im y x y (x + 1)
  &&& exceeds im y x (y + 1) (x - 1)
  &&& exceeds im y x (y + 1) x
  &&& exceeds im y x (y + 1) (x + 1)
  &&& (let* a := getitem3 im y x 0 in Ok (threshold <? a)).

Definition find_peaks (im : image Z) (threshold : Z) : result (list peak) :=
  let '(ny, nx, nc) := sizes im in
  let* peaks :=
    for_each (xrange 1 (ny - 1)) (fun y peaks =>
      for_each (xrange 1 (nx - 1)) (fun x peaks =>
        let* b := is_peak im y x threshold in
        if b then
          let* a := getitem3 im y x 0 in
          Ok (peaks ++ [(a, y, x)])
        else Ok peaks) peaks) [] in
  Ok (sort_reverse peaks).

(** The loop of [high_peaks]: the number of leading peaks whose height is
    not below the threshold. *)
Fixpoint count_high (threshold : Q) (peaks : list peak) : nat :=
  match peaks with
  | [] => O
  | (ht, _, _) :: rest =>
      if Qle_bool threshold (inject_Z ht) then S (count_high threshold rest)
      else O
  end.

Definition high_peaks (peaks : list peak) (factor : Q) : result (list peak) :=
  let* '(ht0, _, _) := of_option (peaks !! O) in
  let threshold := (inject_Z ht0 * factor)%Q in
  let n := count_high threshold peaks in
  Ok (take n peaks).

(** *** What the design document says of [find_peaks] *)

(** A pixel strictly inside the one-pixel border whose channel-0 sample
    exceeds its eight neighbours and the threshold. *)
Definition peak_spec (im : image Z) (threshold : Z) (p : peak) : Prop :=
  let '(v, y, x) := p in
  let '(ny, nx, _) := sizes im in
  1 <= y < ny - 1 ∧ 1 <= x < nx - 1 ∧
  v = sample 0 im y x 0 ∧
  (∀ dy dx, -1 <= dy <= 1 → -1 <= dx <= 1 → (dy, dx) ≠ (0, 0) →
            sample 0 im (y + dy) (x + dx) 0 < v) ∧
  threshold < v.

(** Descending in every field: what [sort (reverse=True)] produces. *)
Definition peak_gt (p q : peak) : Prop := peak_compare p q = Gt.

(** Descending by value, ties by ascending row, then ascending column. *)
Definition peak_before_ascending_ties (p q : peak) : Prop :=
  let '(v1, y1, x1) := p in
  let '(v2, y2, x2) := q in
  v2 < v1 ∨ (v1 = v2 ∧ (y1 < y2 ∨ (y1 = y2 ∧ x1 < x2))).

(** A 5x5 image with two equal peaks, at (1,1) and at (3,3). *)
Definition two_peaks : image Z :=
  <[3%nat := <[3%nat := [7]]> (replicate 5 [0])]>
    (<[1%nat := <[1%nat := [7]]> (replicate 5 [0])]> (full 5 5 1 0)).

(** ** Flood fill: [fill_outline]

    Samples, fill value and threshold are integers here. *)

(** [im[t,s].sum ()]. *)
Definition channel_sum (p : list Z) : Z := foldr Z.add 0 p.

(** The four neighbours of an edge pixel, in the order of the source. *)
Definition neighbours (y x : Z) : list (Z * Z) :=
  [(y, x + 1); (y, x - 1); (y + 1, x); (y - 1, x)].

(** One neighbour [(t, s)]: when it lies in the image and its channel sum is
    within [threshold] of that of the seed, it is coloured and joins the new
    edge list. *)
Definition fill_neighbour (ny nx vc v threshold : Z) (ts : Z * Z)
    (st : image Z * list (Z * Z)) : result (image Z * list (Z * Z)) :=
  let '(t, s) := ts in
  let '(im, newedge) := st in
  let* eligible :=
    Ok ((0 <=? s) && (s <? nx) && (0 <=? t) && (t <? ny))
    &&& (let* p := getitem2 im t s in
         Ok (Z.abs (channel_sum p - vc) <? threshold)) in
  if eligible then
    let* im' := setitem2 im t s v in
    Ok (im', newedge ++ [(t, s)])
  else Ok (im, newedge).

(** One pass over the edge list: the body of the [while] loop. *)
Definition fill_sweep (ny nx vc v threshold : Z) (edge : list (Z * Z))
    (im : image Z) : result (image Z * list (Z * Z)) :=
  for_each edge (fun yx st =>
    for_each (neighbours yx.1 yx.2) (fill_neighbour ny nx vc v threshold) st)
    (im, []).

(** [while edge: ...], on fuel. *)
Fixpoint fill_while (fuel : nat) (ny nx vc v threshold : Z) (im : image Z)
    (edge : list (Z * Z)) : result (image Z) :=
  match edge with
  | [] => Ok im
  | _ :: _ =>
      match fuel with
      | O => Timeout
      | S fuel' =>
          let* '(im', newedge) := fill_sweep ny nx vc v threshold edge im in
          fill_while fuel' ny nx vc v threshold im' newedge
      end
  end.

(** [fill_outline (im, y, x, v, threshold)]; the result is the image as the
    call leaves it. *)
Definition fill_outline (fuel : nat) (im : image Z) (y x v threshold : Z)
    : result (image Z) :=
  let '(ny, nx, nc) := sizes im in
  if (x <? 0) || (nx <=? x) || (y <? 0) || (ny <=? y) then Ok im
  else
    let* p := getitem2 im y x in
    let vc := channel_sum p in
    if Z.abs (vc - v) <? threshold then Ok im
    else
      let* im1 := setitem2 im y x v in
      fill_while fuel ny nx vc v threshold im1 [(y, x)].

(** *** What the design document says of [fill_outline] *)

(** [im'] is [im] with exactly the pixels of [inside] set to [v]. *)
Definition fills_exactly (im im' : image Z) (inside : Z → Z → bool) (v : Z)
    : Prop :=
  ∀ t s, 0 <= t < (sizes im).1.1 → 0 <= s < (sizes im).1.2 →
         pixel im' t s = if inside t s then [v] else pixel im t s.

(** A 10x10 single-channel image, zero but for a rectangle of value [V]
    over rows 2 to 4 and columns 3 to 6. *)
Definition in_rectangle (t s : Z) : bool :=
  (2 <=? t) && (t <=? 4) && (3 <=? s) && (s <=? 6).

Definition rectangle_image (V : Z) : image Z :=
  map (fun t => map (fun s => [if in_rectangle t s then V else 0])
                    (xrange 0 10)) (xrange 0 10).

(** *** Measure of the fill loop *)

(** Whether a pixel passes the similarity test against the seed sum. *)
Definition similar (vc threshold : Z) (p : list Z) : bool :=
  Z.abs (channel_sum p - vc) <? threshold.



(** ** Fast drawing: [draw_line_fast] and [draw_circle_fast]

    These routines only store the value [v], so the sample type is
    arbitrary; coordinates and the radius are Python integers. *)

(** [draw_line_fast]'s error accumulator [e] and slope [de] are Python
    floats; they are exact rationals here, so the accumulator carries no
    rounding error. *)
Definition slope (dx : Q) (dy : Z) : Q :=
  if Qeq_bool dx 0 then 1000000000000000000000000000000%Q
  else (inject_Z dy / dx)%Q.

(** The state of the loop of [draw_line_fast]: the image, [e], [y], and a
    record of the pixels [(row, column)] assigned so far, which is not a
    variable of the source. *)
Definition line_state (A : Type) : Type := image A * Q * Z * list (Z * Z).

(** The guarded assignment [im[x,y,:] = v] (steep) or [im[y,x,:] = v]. *)
Definition line_plot {A : Type} (ny nx : Z) (steep : bool) (v : A) (x y : Z)
    (im : image A) (written : list (Z * Z))
    : result (image A * list (Z * Z)) :=
  if steep then
    if (0 <=? x) && (x <? ny) && (0 <=? y) && (y <? nx) then
      let* im' := setitem2 im x y v in Ok (im', written ++ [(x, y)])
    else Ok (im, written)
  else
    if (0 <=? x) && (x <? nx) && (0 <=? y) && (y <? ny) then
      let* im' := setitem2 im y x v in Ok (im', written ++ [(y, x)])
    else Ok (im, written).

(** [e += de], then [y += ystep; e -= 1.0] when [e >= 0.5]. *)
Definition line_advance (de : Q) (ystep : Z) (ey : Q * Z) : Q * Z :=
  let e := (ey.1 + de)%Q in
  if Qle_bool (1 # 2) e then ((e - 1)%Q, ey.2 + ystep) else (e, ey.2).

(** The body of [for x in xrange (x0, x1+1)]. *)
Definition draw_line_fast_step {A : Type} (ny nx : Z) (steep : bool)
    (de : Q) (ystep : Z) (v : A) (x : Z) (st : line_state A)
    : result (line_state A) :=
  let '(im, e, y, written) := st in
  let* '(im, written) := line_plot ny nx steep v x y im written in
  let '(e, y) := line_advance de ystep (e, y) in
  Ok (im, e, y, written).

(** The end points after the two exchanges that make the line run along
    increasing [x] with a slope of at most one. *)
Definition line_ends (y0 x0 y1 x1 : Z) : bool * (Z * Z * Z * Z) :=
  let steep := Z.abs (x1 - x0) <? Z.abs (y1 - y0) in
  let '(y0, x0, y1, x1) :=
    if steep then (x0, y0, x1, y1) else (y0, x0, y1, x1) in
  let '(y0, x0, y1, x1) :=
    if x1 <? x0 then (y1, x1, y0, x0) else (y0, x0, y1, x1) in
  (steep, (y0, x0, y1, x1)).

(** [draw_line_fast (im, y0, x0, y1, x1, v)], with the record of the
    assigned pixels. *)
Definition draw_line_fast_trace {A : Type} (im : image A)
    (y0 x0 y1 x1 : Z) (v : A) : result (image A * list (Z * Z)) :=
  let '(ny, nx, nc) := sizes im in
  let '(steep, (y0, x0, y1, x1)) := line_ends y0 x0 y1 x1 in
  let dx := inject_Z (x1 - x0) in
  let dy := Z.abs (y1 - y0) in
  let de := slope dx dy in
  let ystep := if y0 <? y1 then 1 else -1 in
  let* '(im, _, _, written) :=
    for_each (xrange x0 (x1 + 1))
             (draw_line_fast_step ny nx steep de ystep v) (im, 0%Q, y0, []) in
  Ok (im, written).

Definition draw_line_fast {A : Type} (im : image A) (y0 x0 y1 x1 : Z) (v : A)
    : result (image A) :=
  let* '(im, _) := draw_line_fast_trace im y0 x0 y1 x1 v in Ok im.

(** The eight assignments of one step of [draw_circle_fast]; none of them
    is guarded. *)
Definition circle_points (yc xc x y : Z) : list (Z * Z) :=
  [(yc + y, xc + x); (yc + y, xc - x); (yc - y, xc + x); (yc - y, xc - x);
   (yc + x, xc + y); (yc + x, xc - y); (yc - x, xc + y); (yc - x, xc - y)].

Definition plot_points {A : Type} (im : image A) (points : list (Z * Z))
    (v : A) : result (image A) :=
  for_each points (fun yx im => setitem2 im yx.1 yx.2 v) im.

(** [while x < y: ...]; [x] grows at every turn and [y] never does, so the
    fuel counts down from their initial distance. *)
Fixpoint draw_circle_fast_loop {A : Type} (fuel : nat) (im : image A)
    (yc xc : Z) (v : A) (x y p : Z) : result (image A * Z * Z) :=
  if x <? y then
    match fuel with
    | O => Timeout
    | S fuel' =>
        let* im := plot_points im (circle_points yc xc x y) v in
        if p <? 0 then
          draw_circle_fast_loop fuel' im yc xc v (x + 1) y (p + (4 * x + 6))
        else
          draw_circle_fast_loop fuel' im yc xc v (x + 1) (y - 1)
                                (p + (4 * (x - y) + 6))
    end
  else Ok (im, x, y).

(** [draw_circle_fast (im, yc, xc, r, v)], with [fill] left at [None]. *)
Definition draw_circle_fast {A : Type} (im : image A) (yc xc r : Z) (v : A)
    : result (image A) :=
  let* '(im, x, y) :=
    draw_circle_fast_loop (Z.to_nat r) im yc xc v 0 r (3 - 2 * r) in
  if x =? y then plot_points im (circle_points yc xc x y) v else Ok im.

(** [im] is [im0] with exactly the pixels of [written] set to [v]. *)
Definition drawn {A : Type} (v : A) (im0 im : image A)
    (written : list (Z * Z)) : Prop :=
  ∀ t s, pixel im t s =
         if decide ((t, s) ∈ written) then map (fun _ => v) (pixel im0 t s)
         else pixel im0 t s.

(** A point inside the image. *)
Definition inside {A : Type} (im : image A) (y x : Z) : Prop :=
  0 <= y < (sizes im).1.1 ∧ 0 <= x < (sizes im).1.2.

(** ** Python floats *)

(** [int (f)]: truncation towards zero; [ValueError] on a NaN and
    [OverflowError] on an infinity. *)
Definition py_int (f : float) : result Z :=
  match Prim2SF f with
  | S754_zero _ => Ok 0
  | S754_finite s m e =>
      let magnitude :=
        if 0 <=? e then Z.shiftl (Zpos m) e else Z.shiftr (Zpos m) (- e) in
      Ok (if s then - magnitude else magnitude)
  | S754_infinity _ => Raise OverflowError
  | S754_nan => Raise ValueError
  end.

(** The conversion of an integer operand of mixed arithmetic: the nearest
    float, ties to even; [OverflowError] beyond the range of floats. *)
Definition py_float (z : Z) : result float :=
  let f := SF2Prim (binary_normalize prec emax z 0 false) in
  if is_infinity f then Raise OverflowError else Ok f.

(** [math.sqrt (f)]: [ValueError] on a negative argument. *)
Definition math_sqrt (f : float) : result float :=
  if (f <? 0)%float then Raise ValueError else Ok (sqrt f).

(** [f - int (f)]. *)
Definition minus_int (f : float) : result float :=
  let* i := py_int f in
  let* fi := py_float i in
  Ok (f - fi)%float.

(** ** Anti-aliased drawing: [blend_pixel], [draw_line], [draw_circle]

    Samples are floats here.  The value [v] is a number, given to every
    channel, or a Python list with one number per channel. *)

Inductive value : Set :=
| Scalar (f : float)
| Channels (l : list float).

(** [if not isinstance (v, list): v = [v] * nc]. *)
Definition channel_values (nc : Z) (v : value) : list float :=
  match v with
  | Scalar f => replicate (Z.to_nat nc) f
  | Channels l => l
  end.

Definition blend_pixel (im : image float) (y x : Z) (v : value)
    (opac : float) : result (image float) :=
  let '(ny, nx, nc) := sizes im in
  if (0 <=? y) && (y <? ny) && (0 <=? x) && (x <? nx) then
    let vs := channel_values nc v in
    for_each (xrange 0 nc) (fun c im =>
      let* vc := of_option (vs !! Z.to_nat c) in
      let* old := getitem3 im y x c in
      setitem3 im y x c (vc * opac + (1 - opac) * old)%float) im
  else Ok im.

(** [im[y,x] = v]: numpy gives a number to every channel and takes a list
    of one number or of one number per channel; any other list is a
    [ValueError]. *)
Definition assign_pixel (im : image float) (y x : Z) (v : value)
    : result (image float) :=
  match v with
  | Scalar f => setitem2 im y x f
  | Channels [f] => setitem2 im y x f
  | Channels l =>
      if Z.of_nat (length l) =? (sizes im).2 then
        update_pixel im y x (fun _ => l)
      else
        (* the indices are checked before the shapes are matched *)
        let* _ := getitem2 im y x in Raise ValueError
  end.

(** What a drawing routine does to the image, one operation at a time. *)
Inductive draw_op : Set :=
| Assign (y x : Z)                 (* [im[y,x] = v] *)
| Blend (y x : Z) (opac : float).  (* [blend_pixel (im, y, x, v, opac)] *)

(** A computation that draws: the operations it has carried out, in
    order, and its outcome.  The coordinates and opacities that the
    anti-aliased routines compute do not depend on the image, so the
    operations are first listed and then applied. *)
Definition drawing (A : Type) : Type := list draw_op * result A.

Definition lift {A : Type} (r : result A) : drawing A := ([], r).

Definition emit (op : draw_op) : drawing unit := ([op], Ok tt).

Definition draw_bind {A B : Type} (m : drawing A) (k : A → drawing B)
    : drawing B :=
  match m.2 with
  | Ok a => (m.1 ++ (k a).1, (k a).2)
  | Raise e => (m.1, Raise e)
  | Timeout => (m.1, Timeout)
  end.

Notation "'let+' x := m 'in' k" := (draw_bind m (fun x => k))
  (at level 10, x name, m at level 100, k at level 200).
Notation "'let+' ' p := m 'in' k" := (draw_bind m (fun p => k))
  (at level 10, p pattern, m at level 100, k at level 200).
Notation "m ;+ k" := (draw_bind m (fun _ => k))
  (at level 100, k at level 200, right associativity).

Fixpoint draw_for_each {A S : Type} (xs : list A) (body : A → S → drawing S)
    (s : S) : drawing S :=
  match xs with
  | [] => lift (Ok s)
  | x :: xs' => let+ s' := body x s in draw_for_each xs' body s'
  end.

Definition apply_op (v : value) (op : draw_op) (im : image float)
    : result (image float) :=
  match op with
  | Assign y x => assign_pixel im y x v
  | Blend y x opac => blend_pixel im y x v opac
  end.

(** The image after the operations of a drawing, then its outcome. *)
Definition run_drawing (d : drawing unit) (im : image float) (v : value)
    : result (image float) :=
  let* im' := for_each d.1 (apply_op v) im in
  let* _ := d.2 in
  Ok im'.

(** [blend_pixel] of the pixel at ordinate [y] of column [x], with the
    axes exchanged on a steep line. *)
Definition blend_at (steep : bool) (x y : Z) (opac : float) : draw_op :=
  if steep then Blend x y opac else Blend y x opac.

(** The two blended pixels of an end point. *)
Definition draw_line_end (steep : bool) (xpxl ypxl : Z) (yend : float)
    : drawing unit :=
  let+ f1 := lift (minus_int yend) in
  emit (blend_at steep xpxl ypxl (1 - f1)%float) ;+
  let+ f2 := lift (minus_int yend) in
  emit (blend_at steep xpxl (ypxl + 1) f2).

(** The body of the main loop; the variable it assigns is [intery]. *)
Definition draw_line_step (steep : bool) (de : float) (x : Z)
    (intery : float) : drawing float :=
  let+ i1 := lift (py_int intery) in
  let+ f1 := lift (minus_int intery) in
  let+ w1 := lift (math_sqrt (1 - f1)%float) in
  emit (blend_at steep x i1 w1) ;+
  let+ i2 := lift (py_int intery) in
  let+ f2 := lift (minus_int intery) in
  let+ w2 := lift (math_sqrt f2) in
  emit (blend_at steep x (i2 + 1) w2) ;+
  lift (Ok (intery + de)%float).

(** The end points as the first lines of [draw_line] rearrange them. *)
Definition wu_ends (y0 x0 y1 x1 : float)
    : bool * (float * float * float * float) :=
  let steep := (abs (x1 - x0) <? abs (y1 - y0))%float in
  let '(y0, x0, y1, x1) :=
    if steep then (x0, y0, x1, y1) else (y0, x0, y1, x1) in
  let '(y0, x0, y1, x1) :=
    if (x1 <? x0)%float then (y1, x1, y0, x0) else (y0, x0, y1, x1) in
  (steep, (y0, x0, y1, x1)).

Definition wu_slope (y0 x0 y1 x1 : float) : float :=
  let dx := (x1 - x0 + 0)%float in
  let dy := (y1 - y0)%float in
  if (dx =? 0)%float then 0x1.93e5939a08ceap+99%float (* 1.0e30 *) else (dy / dx)%float.

(** The operations of [draw_line (im, y0, x0, y1, x1, v)]; the
    coordinates are floats.  The unused variable [xgap] is left out. *)
Definition draw_line_ops (y0 x0 y1 x1 : float) : drawing unit :=
  let '(steep, (y0, x0, y1, x1)) := wu_ends y0 x0 y1 x1 in
  let de := wu_slope y0 x0 y1 x1 in
  (* the first end point *)
  let+ xend := lift (py_int (x0 + 0.5)%float) in
  let+ fxend := lift (py_float xend) in
  let yend := (y0 + de * (fxend - x0))%float in
  let xpxl1 := xend in
  let+ ypxl1 := lift (py_int yend) in
  draw_line_end steep xpxl1 ypxl1 yend ;+
  let intery := (yend + de)%float in
  (* the second end point *)
  let+ xend := lift (py_int (x1 + 0.5)%float) in
  let+ fxend := lift (py_float xend) in
  let yend := (y1 + de * (fxend - x1))%float in
  let xpxl2 := xend in
  let+ ypxl2 := lift (py_int yend) in
  draw_line_end steep xpxl2 ypxl2 yend ;+
  (* the main loop *)
  let+ _ := draw_for_each (xrange (xpxl1 + 1) xpxl2)
                          (draw_line_step steep de) intery in
  lift (Ok tt).

Definition draw_line (im : image float) (y0 x0 y1 x1 : float) (v : value)
    : result (image float) :=
  run_drawing (draw_line_ops y0 x0 y1 x1) im v.

(** The twenty-four operations of one turn of the loop of [draw_circle]:
    in each octant an unguarded assignment and two blends. *)
Definition circle_ops (yc xc x y : Z) (opac trans : float) : list draw_op :=
  [Assign (yc + y) (xc + x);
   Blend (y + yc) (x + xc - 1) trans; Blend (y + yc) (x + xc + 1) opac;
   Assign (yc + x) (xc + y);
   Blend (x + yc - 1) (y + xc) trans; Blend (x + yc + 1) (y + xc) opac;
   Assign (yc + y) (xc - x);
   Blend (y + yc) (xc - x + 1) trans; Blend (y + yc) (xc - x - 1) opac;
   Assign (yc + x) (xc - y);
   Blend (x + yc - 1) (xc - y) trans; Blend (x + yc + 1) (xc - y) opac;
   Assign (yc - y) (xc + x);
   Blend (yc - y) (x + xc - 1) trans; Blend (yc - y) (x + xc + 1) opac;
   Assign (yc - x) (xc + y);
   Blend (yc - x - 1) (y + xc) opac; Blend (yc - x + 1) (y + xc) trans;
   Assign (yc - x) (xc - y);
   Blend (yc - x - 1) (xc - y) opac; Blend (yc - x + 1) (xc - y) trans;
   Assign (yc - y) (xc - x);
   Blend (yc - y) (xc - x - 1) opac; Blend (yc - y) (xc - x + 1) trans].

(** [while x > y: ...]; [y] grows at every turn and [x] never does, so the
    fuel counts down from their initial distance. *)
Fixpoint draw_circle_loop (fuel : nat) (yc xc r x y : Z) (t : float)
    : drawing unit :=
  if y <? x then
    match fuel with
    | O => lift Timeout
    | S fuel' =>
        let y := y + 1 in
        let+ n := lift (py_float (r ^ 2 - y ^ 2)) in
        let+ d := lift (math_sqrt n) in
        let+ i := lift (py_int (d + 0.5)%float) in
        let+ fi := lift (py_float i) in
        let opac := (fi - d)%float in
        let x := if (opac <? t)%float then x - 1 else x in
        let trans := (1 - opac)%float in
        (circle_ops yc xc x y opac trans, Ok tt) ;+
        draw_circle_loop fuel' yc xc r x y opac
    end
  else lift (Ok tt).

(** The operations of [draw_circle (im, yc, xc, r, v)], with [fill] left at
    [None]; centre and radius are integers. *)
Definition draw_circle_ops (yc xc r : Z) : drawing unit :=
  draw_circle_loop (Z.to_nat (r + 1)) yc xc r r (-1) 0%float.

Definition draw_circle (im : image float) (yc xc r : Z) (v : value)
    : result (image float) :=
  run_drawing (draw_circle_ops yc xc r) im v.

(** *** What the design document says of the interior of [draw_line] *)

(** The pair of operations of an interior column [x] as the document has
    them: opacities [1 - frac] and [frac], where [frac] is what is left of
    [intery] above its integer part. *)
Definition interior_as_claimed (steep : bool) (x : Z) (intery : float)
    (op1 op2 : draw_op) : Prop :=
  ∃ i f, py_int intery = Ok i ∧ minus_int intery = Ok f ∧
         op1 = blend_at steep x i (1 - f)%float ∧
         op2 = blend_at steep x (i + 1) f.

(** The pair as the code has them: the square roots of these, which exist
    because neither is negative. *)
Definition interior_as_coded (steep : bool) (x : Z) (intery : float)
    (op1 op2 : draw_op) : Prop :=
  ∃ i f, py_int intery = Ok i ∧ minus_int intery = Ok f ∧
         (1 - f <? 0)%float = false ∧ (f <? 0)%float = false ∧
         op1 = blend_at steep x i (sqrt (1 - f))%float ∧
         op2 = blend_at steep x (i + 1) (sqrt f).

(** ** Resampling: [extract]

    Samples are floats.  The step is given as the pair [ystep], [xstep];
    [cosfac] and [sinfac] stand for [math.cos (-angle)] and
    [math.sin (-angle)], which the C library computes.  The result carries
    what the call prints on [sys.stderr]. *)

Definition tiny : float := 0x1.ad7f29abcaf48p-24%float. (* 1.0e-7 *)

(** [a % n] for an extent [n]. *)
Definition py_mod (a n : Z) : result Z :=
  if n =? 0 then Raise ZeroDivisionError else Ok (a mod n).

(** Arithmetic on the samples of a pixel. *)
Definition scale (a : float) (p : list float) : list float :=
  map (fun s => (a * s)%float) p.

Definition plus (p q : list float) : list float :=
  zip_with (fun s t => (s + t)%float) p q.

(** [mono (im)]: the mean of the channels, in one channel. *)
Definition mono (im : image float) : image float :=
  let nc := (sizes im).2 in
  map (map (fun p =>
    [(foldl (fun acc s => (acc + s)%float) 0%float p
      / SF2Prim (binary_normalize prec emax nc 0 false))%float])) im.

(** [im[y0:y0+ry, x0:x0+rx]] for bounds that are not negative. *)
Definition region_of (im : image float) (ylo yhi xlo xhi : Z)
    : image float :=
  map (fun row => take (Z.to_nat (xhi - xlo)) (drop (Z.to_nat xlo) row))
      (take (Z.to_nat (yhi - ylo)) (drop (Z.to_nat ylo) im)).

(** The choice of the interpolator: its number, and the diagnostic. *)
Definition interpolator_code (interpolator : string) : Z * list string :=
  if String.eqb interpolator "gradient" then (2, [])
  else if String.eqb interpolator "bilinear" then (3, [])
  else if String.eqb interpolator "nearest" then (1, [])
  else (1, ["extract: invalid interpolator " +:+ interpolator
             +:+ "; using nearest"]).

(** The value of one output pixel at the sample position [(ypos, xpos)]. *)
Definition extract_pixel (im mim : image float) (interp : Z) (wrap : bool)
    (val : float) (ypos xpos : float) : result (list float) :=
  let '(ny, nx, nc) := sizes im in
  let background := replicate (Z.to_nat nc) val in
  let* fny := py_float ny in
  let* fnx := py_float nx in
  if ((ypos <? 0) || (fny <=? ypos) || (xpos <? 0) || (fnx <=? xpos))%float
     && negb wrap
  then Ok background
  else
    let* ylo := py_int ypos in
    let* fylo := py_float ylo in
    let dy := (ypos - fylo)%float in
    let dy1 := (1 - dy)%float in
    let* ylo := py_mod (ylo + ny) ny in
    let yhi := ylo + 1 in
    if (ny <=? yhi) && negb wrap then Ok background
    else
      let* yhi := py_mod (yhi + ny) ny in
      let* xlo := py_int xpos in
      let* fxlo := py_float xlo in
      let dx := (xpos - fxlo)%float in
      let dx1 := (1 - dx)%float in
      let* xlo := py_mod (xlo + nx) nx in
      let xhi := xlo + 1 in
      if (nx <=? xhi) && negb wrap then Ok background
      else
        let* xhi := py_mod (xhi + nx) nx in
        if interp =? 3 then
          let* hh := getitem2 im yhi xhi in
          let* hl := getitem2 im yhi xlo in
          let* lh := getitem2 im ylo xhi in
          let* ll := getitem2 im ylo xlo in
          Ok (plus (plus (plus (scale (dy * dx) hh) (scale (dy * dx1) hl))
                         (scale (dy1 * dx) lh))
                   (scale (dy1 * dx1) ll))
        else if interp =? 2 then
          let* mll := getitem3 mim ylo xlo 0 in
          let* mhh := getitem3 mim yhi xhi 0 in
          let* mhl := getitem3 mim yhi xlo 0 in
          let* mlh := getitem3 mim ylo xhi 0 in
          if (abs (mhl - mlh) <? abs (mll - mhh))%float then
            let* lh := getitem2 im ylo xhi in
            let* ll := getitem2 im ylo xlo in
            let* hh := getitem2 im yhi xhi in
            Ok (plus (plus (scale (dx - dy) lh) (scale dx1 ll)) (scale dy hh))
          else
            let* ll := getitem2 im ylo xlo in
            let* lh := getitem2 im ylo xhi in
            let* hl := getitem2 im yhi xlo in
            Ok (plus (plus (scale (dx1 - dy) ll) (scale dx lh)) (scale dy hl))
        else
          (* im[int(ylo+0.5), int(xlo+0.5)], on the integers ylo and xlo *)
          let* fy := py_float ylo in
          let* ry := py_int (fy + 0.5)%float in
          let* fx := py_float xlo in
          let* rx := py_int (fx + 0.5)%float in
          getitem2 im ry rx.

(** The inner loop: one row of the region; its variables are the region
    and the sample position. *)
Definition extract_row (im mim : image float) (interp : Z) (wrap : bool)
    (val : float) (ystep xstep cosfac sinfac : float) (rx y : Z)
    (region : image float) (yst xst : float) : result (image float) :=
  let* '(region, _, _) :=
    for_each (xrange 0 rx) (fun x '(region, ypos, xpos) =>
      let* p := extract_pixel im mim interp wrap val ypos xpos in
      let* region := update_pixel region y x (fun _ => p) in
      Ok (region, (ypos - ystep * sinfac)%float,
                  (xpos + xstep * cosfac)%float)) (region, yst, xst) in
  Ok region.

Definition extract (cosfac sinfac : float) (im : image float) (ry rx : Z)
    (yc xc ystep xstep angle : float) (wrap : bool) (val : float)
    (interpolator : string) : result (list string * image float) :=
  let '(ny, nx, nc) := sizes im in
  if (ry <? 0) || (rx <? 0) then Raise ValueError
  else
    let region := full (Z.to_nat ry) (Z.to_nat rx) (Z.to_nat nc) 0%float in
    let* fry := py_float ry in
    let* frx := py_float rx in
    let y0 := (yc - fry / 2)%float in
    let x0 := (xc - frx / 2)%float in
    let* direct :=
      Ok ((abs angle <? tiny)%float && (abs (ystep - 1) <? tiny)%float
          && (abs (xstep - 1) <? tiny)%float && (ry <? ny) && (rx <? nx)
          && (0 <=? y0)%float && (0 <=? x0)%float)
      &&& (let* f := minus_int y0 in Ok (abs f <? tiny)%float)
      &&& (let* f := minus_int x0 in Ok (abs f <? tiny)%float) in
    if direct then
      let* iy := py_int y0 in
      let* ix := py_int x0 in
      let* iy' := py_int (y0 + fry)%float in
      let* ix' := py_int (x0 + frx)%float in
      Ok ([], region_of im iy iy' ix ix')
    else
      let '(interp, stderr) := interpolator_code interpolator in
      let mim := if interp =? 2 then mono im else im in
      let disty := (fry / 2)%float in
      let distx := (frx / 2)%float in
      let yst := (yc + distx * xstep * sinfac - disty * ystep * cosfac)%float in
      let xst := (xc - distx * xstep * cosfac - disty * ystep * sinfac)%float in
      let* '(region, _, _) :=
        for_each (xrange 0 ry) (fun y '(region, yst, xst) =>
          let* region :=
            extract_row im mim interp wrap val ystep xstep cosfac sinfac
                        rx y region yst xst in
          Ok (region, (yst + ystep * cosfac)%float,
                      (xst + xstep * sinfac)%float)) (region, yst, xst) in
      Ok (stderr, region).

(** A 3x3 single-channel image whose sample at row [r], column [c] is
    [10 r + c]. *)
Definition numbered : image float :=
  [[[0]; [1]; [2]]; [[10]; [11]; [12]]; [[20]; [21]; [22]]]%float.

(** ** Region labelling: [label_regions_slow]

    Samples are integers: the routine only tests them for equality. *)

(** [l[i]] and [l[i] = v] on a Python list. *)
Definition list_get (l : list Z) (i : Z) : result Z :=
  let* k := np_index (Z.of_nat (length l)) i in
  of_option (l !! k).

Definition list_set (l : list Z) (i v : Z) : result (list Z) :=
  let* k := np_index (Z.of_nat (length l)) i in
  Ok (<[k := v]> l).

(** The variables of the raster pass. *)
Record label_state : Type := LabelState {
  lab : image Z;
  equiv : list Z;
  lastlabel : Z
}.

(** [lastlabel += 1; equiv.append (lastlabel)]. *)
Definition new_label (st : label_state) : label_state :=
  {| lab := lab st;
     equiv := equiv st ++ [lastlabel st + 1];
     lastlabel := lastlabel st + 1 |}.

(** [lab[y,x,0] = lv]. *)
Definition set_label (st : label_state) (y x lv : Z) : result label_state :=
  let* lab' := setitem3 (lab st) y x 0 lv in
  Ok {| lab := lab'; equiv := equiv st; lastlabel := lastlabel st |}.

(** The pixels in the order in which the three loops of the pass visit
    them. *)
Inductive raster_pos : Set :=
| FirstRow (x : Z)
| FirstColumn (y : Z)
| Interior (y x : Z).

Definition raster_order (ny nx : Z) : list raster_pos :=
  (FirstRow <$> xrange 1 nx) ++
  (FirstColumn <$> xrange 1 ny) ++
  (y ← xrange 1 ny; Interior y <$> xrange 1 nx).

Definition first_row_step (im : image Z) (x : Z) (st : label_state)
    : result label_state :=
  let* a := getitem3 im 0 x 0 in
  let* b := getitem3 im 0 (x - 1) 0 in
  let st := if negb (a =? b) then new_label st else st in
  set_label st 0 x (lastlabel st).

Definition first_column_step (im : image Z) (y : Z) (st : label_state)
    : result label_state :=
  let* a := getitem3 im y 0 0 in
  let* b := getitem3 im (y - 1) 0 0 in
  if a =? b then
    let* lv := getitem3 (lab st) (y - 1) 0 0 in
    set_label st y 0 lv
  else
    let st := new_label st in
    set_label st y 0 (lastlabel st).

(** [vals[i] = im[t,s,0]; labs[i] = lab[t,s,0]]. *)
Definition neighbour (im : image Z) (st : label_state) (t s : Z)
    : result (Z * Z) :=
  let* val := getitem3 im t s 0 in
  let* l := getitem3 (lab st) t s 0 in
  Ok (val, l).

(** [matches.sort ()]. *)
Fixpoint insert_sorted (a : Z) (l : list Z) : list Z :=
  match l with
  | [] => [a]
  | b :: l' => if a <=? b then a :: b :: l' else b :: insert_sorted a l'
  end.

Definition sort_ints (l : list Z) : list Z := foldr insert_sorted [] l.

(** The body of [for v in matches[1:]]; the variable it assigns is
    [equiv]. *)
Definition merge_step (lv v : Z) (equiv : list Z) : result (list Z) :=
  let* ev := list_get equiv v in
  if lv <? ev then list_set equiv v lv
  else if ev <? lv then list_set equiv lv ev
  else Ok equiv.

(** The body of the loops over the remainder of the image. The lists
    [vals] and [labs] are read in their first [nv] places only, which the
    same turn has filled: they are the list of the [nv] neighbours here. *)
Definition interior_step (im : image Z) (con8 : bool) (nx y x : Z)
    (st : label_state) : result label_state :=
  let y1 := y - 1 in
  let x1 := x - 1 in
  let x2 := x + 1 in
  let lastcol := (nx - 1 <=? x2) && con8 in
  let* val := getitem3 im y x 0 in
  let* n0 := neighbour im st y x1 in
  let* n1 := neighbour im st y1 x in
  let* ns :=
    if con8 then
      let* n2 := neighbour im st y1 x1 in
      if negb lastcol then
        let* n3 := neighbour im st y1 x2 in Ok [n0; n1; n2; n3]
      else Ok [n0; n1; n2]
    else Ok [n0; n1] in
  let matches := (filter (fun n => n.1 = val) ns).*2 in
  match sort_ints matches with
  | [] =>
      (* not inreg *)
      let st := new_label st in
      set_label st y x (lastlabel st)
  | lv :: rest =>
      let* equiv' := for_each rest (merge_step lv) (equiv st) in
      set_label {| lab := lab st; equiv := equiv';
                   lastlabel := lastlabel st |} y x lv
  end.

Definition raster_step (im : image Z) (con8 : bool) (nx : Z)
    (pos : raster_pos) (st : label_state) : result label_state :=
  match pos with
  | FirstRow x => first_row_step im x st
  | FirstColumn y => first_column_step im y st
  | Interior y x => interior_step im con8 nx y x st
  end.

(** [while equiv[v] != v: v = equiv[v]], on fuel. *)
Fixpoint chase (fuel : nat) (equiv : list Z) (v : Z) : result Z :=
  let* ev := list_get equiv v in
  if ev =? v then Ok v
  else
    match fuel with
    | O => Timeout
    | S fuel' => chase fuel' equiv ev
    end.

(** The body of the loop that tidies the table; its variables are [remap]
    and the counter that the source calls [nc]. *)
Definition tidy_step (equiv : list Z) (i : Z) (st : list Z * Z)
    : result (list Z * Z) :=
  let '(remap, count) := st in
  let* ei := list_get equiv i in
  if ei =? i then Ok (remap ++ [count + 1], count + 1)
  else
    let* root := chase (length equiv) equiv i in
    let* v := list_get remap root in
    Ok (remap ++ [v], count).

Definition tidy (equiv : list Z) : result (list Z * Z) :=
  for_each (xrange 0 (Z.of_nat (length equiv))) (tidy_step equiv) ([], -1).

(** [lab[y,x,0] = remap[lab[y,x,0]]]. *)
Definition relabel_pixel (remap : list Z) (yx : Z * Z) (lab : image Z)
    : result (image Z) :=
  let* l := getitem3 lab yx.1 yx.2 0 in
  let* v := list_get remap l in
  setitem3 lab yx.1 yx.2 0 v.

(** The second pass through the image. *)
Definition relabel (ny nx : Z) (remap : list Z) (lab : image Z)
    : result (image Z) :=
  for_each (xrange 0 ny) (fun y lab =>
    for_each (xrange 0 nx) (fun x lab => relabel_pixel remap (y, x) lab)
             lab) lab.

(** [max (lab)], which is [lab.max ()]; the image is not empty. *)
Definition image_max (im : image Z) : Z :=
  let samples := concat (concat im) in
  foldr Z.max (hd 0 samples) samples.

Definition label_start (ny nx nc : Z) : result label_state :=
  let lab := full (Z.to_nat ny) (Z.to_nat nx) (Z.to_nat nc) 0 in
  set_label {| lab := lab; equiv := [0]; lastlabel := 0 |} 0 0 0.

Definition label_regions_slow (im : image Z) (con8 : bool)
    : result (image Z * Z) :=
  let '(ny, nx, nc) := sizes im in
  let* st := label_start ny nx nc in
  let* st := for_each (raster_order ny nx) (raster_step im con8 nx) st in
  let* '(remap, _) := tidy (equiv st) in
  let* lab := relabel ny nx remap (lab st) in
  Ok (lab, image_max lab).

(** *** What the design document says of the equivalence table *)

(** Every label is mapped to a label that is not larger. *)
Definition table_ok (equiv : list Z) : Prop :=
  ∀ (i : nat) (e : Z), equiv !! i = Some e → 0 <= e <= Z.of_nat i.

(** A canonical root: a label whose entry points to itself. *)
Definition is_root (equiv : list Z) (r : Z) : Prop :=
  0 <= r ∧ equiv !! Z.to_nat r = Some r.


(** [remap] sends every label where it sends the root of its chain, and
    sends the roots, in increasing order, onto [0, ..., count]. *)
Definition dense_remap (equiv remap : list Z) (count : Z) : Prop :=
  length remap = length equiv ∧
  (∀ l, 0 <= l < Z.of_nat (length equiv) →
     ∃ r v, chase (length equiv) equiv l = Ok r ∧
            remap !! Z.to_nat r = Some v ∧ remap !! Z.to_nat l = Some v ∧
            0 <= v <= count) ∧
  (∀ v, 0 <= v <= count →
     ∃ r, is_root equiv r ∧ remap !! Z.to_nat r = Some v) ∧
  (∀ r1 r2 v1 v2, is_root equiv r1 → is_root equiv r2 → r1 < r2 →
     remap !! Z.to_nat r1 = Some v1 → remap !! Z.to_nat r2 = Some v2 →
     v1 < v2).

(** The labels of channel 0 are exactly [0, ..., n-1]. *)
Definition labels_exactly (lab : image Z) (n : Z) : Prop :=
  ∀ l, (∃ y x, inside lab y x ∧ sample 0 lab y x 0 = l) ↔ 0 <= l < n.

(** *** The invariant of the raster pass *)

Definition coords (pos : raster_pos) : Z * Z :=
  match pos with
  | FirstRow x => (0, x)
  | FirstColumn y => (y, 0)
  | Interior y x => (y, x)
  end.

Definition valid_pos (ny nx : Z) (pos : raster_pos) : Prop :=
  match pos with
  | FirstRow x => 1 <= x < nx
  | FirstColumn y => 1 <= y < ny
  | Interior y x => 1 <= y < ny ∧ 1 <= x < nx
  end.

(** What holds of the state when the pixels of [rest] are still to be
    visited: the table has one entry per label and is in order, every
    pixel carries a label in use, and every label in use is carried by a
    pixel that has been visited. *)
Record raster_inv (ny nx nc : Z) (rest : list raster_pos)
    (st : label_state) : Prop := RasterInv {
  inv_shaped : shaped ny nx nc (lab st);
  inv_length : Z.of_nat (length (equiv st)) = lastlabel st + 1;
  inv_table : table_ok (equiv st);
  inv_labels : ∀ y x, 0 <= y < ny → 0 <= x < nx →
                 0 <= sample 0 (lab st) y x 0 <= lastlabel st;
  inv_used : ∀ l, 0 <= l <= lastlabel st →
               ∃ y x, 0 <= y < ny ∧ 0 <= x < nx ∧
                      ((y, x) ∉ (coords <$> rest)) ∧
                      sample 0 (lab st) y x 0 = l;
  inv_channels : ∀ y x c, 1 <= c → sample 0 (lab st) y x c = 0
}.

(** [remap[l]], for statements. *)
Definition remap_of (remap : list Z) (l : Z) : Z :=
  default 0 (remap !! Z.to_nat l).

(** The same of the first [i] labels, as the loop that tidies the table
    has it after [i] turns. *)
Definition dense_upto (equiv remap : list Z) (count : Z) (i : nat) : Prop :=
  length remap = i ∧ -1 <= count ∧
  (∀ l, 0 <= l < Z.of_nat i →
     ∃ r v, chase (length equiv) equiv l = Ok r ∧
            remap !! Z.to_nat r = Some v ∧ remap !! Z.to_nat l = Some v ∧
            0 <= v <= count) ∧
  (∀ v, 0 <= v <= count →
     ∃ r, is_root equiv r ∧ remap !! Z.to_nat r = Some v) ∧
  (∀ r1 r2 v1 v2, is_root equiv r1 → is_root equiv r2 → r1 < r2 →
     remap !! Z.to_nat r1 = Some v1 → remap !! Z.to_nat r2 = Some v2 →
     v1 < v2).

(** A 1x1 image, and a 3x4 image of zeros and ones. *)
Definition one_pixel : image Z := [[[5]]].

Definition bent : image Z :=
  [[[0]; [0]; [1]; [0]];
   [[0]; [1]; [0]; [0]];
   [[0]; [0]; [0]; [1]]].

(** ** Reflection: [reflect_horizontally] and [reflect_vertically]

    These routines exchange whole pixels, so the sample type is
    arbitrary. *)

(** [im[y,x,:] = p] with an array [p]: numpy wants as many samples as the
    pixel has, or a single one, which it repeats; otherwise it raises
    [ValueError]. *)
Definition setpixel {A : Type} (im : image A) (y x : Z) (p : list A)
    : result (image A) :=
  let* old := getitem2 im y x in
  if decide (length p = length old) then update_pixel im y x (fun _ => p)
  else
    match p with
    | [a] => update_pixel im y x (map (fun _ => a))
    | _ => Raise ValueError
    end.

(** [t = im[y,x,:].copy()], [im[y,x,:] = im[t,s,:].copy()] and
    [im[t,s,:] = t]: the body of both loops. *)
Definition exchange {A : Type} (im : image A) (y x t s : Z)
    : result (image A) :=
  let* keep := getitem2 im y x in
  let* other := getitem2 im t s in
  let* im := setpixel im y x other in
  setpixel im t s keep.

Definition reflect_horizontally {A : Type} (im : image A)
    : result (image A) :=
  let '(ny, nx, nc) := sizes im in
  let nx2 := nx / 2 in
  for_each (xrange 0 ny) (fun y im =>
    for_each (xrange 0 nx2) (fun x im => exchange im y x y (nx - x - 1))
             im) im.

Definition reflect_vertically {A : Type} (im : image A) : result (image A) :=
  let '(ny, nx, nc) := sizes im in
  let ny2 := ny / 2 in
  for_each (xrange 0 ny2) (fun y im =>
    for_each (xrange 0 nx) (fun x im => exchange im y x (ny - y - 1) x)
             im) im.

(** ** Slices: [set_region], [draw_border] and [draw_box] *)

(** A bound [i] of a slice of an axis of extent [n], as Python's
    [slice.indices] has it: a negative bound counts from the end, and the
    result is clipped to [0, n]. *)
Definition slice_bound (n i : Z) : Z :=
  if i <? 0 then Z.max 0 (i + n) else Z.min i n.

Definition in_slice (n lo hi i : Z) : bool :=
  (slice_bound n lo <=? i) && (i <? slice_bound n hi).

(** [im[ylo:yhi, xlo:xhi, :] = v] with a scalar [v]. An assignment to a
    slice never raises. The full slice [:] of an axis of extent [n] is
    written [0:n] here. *)
Definition assign_slice {A : Type} (im : image A) (ylo yhi xlo xhi : Z)
    (v : A) : image A :=
  let '(ny, nx, _) := sizes im in
  imap (fun i row =>
          if in_slice ny ylo yhi (Z.of_nat i) then
            imap (fun j p =>
                    if in_slice nx xlo xhi (Z.of_nat j)
                    then map (fun _ => v) p else p) row
          else row) im.

Definition set_region {A : Type} (im : image A) (yfrom xfrom yto xto : Z)
    (v : A) : image A :=
  assign_slice im yfrom yto xfrom xto v.

(** [draw_border (im, v, width)]: the top, the bottom, the left and the
    right, in this order. *)
Definition draw_border {A : Type} (im : image A) (v : A) (width : Z)
    : image A :=
  let '(ny, nx, nc) := sizes im in
  let im := assign_slice im 0 width 0 nx v in
  let im := assign_slice im (ny - width - 1) ny 0 nx v in
  let im := assign_slice im 0 ny 0 width v in
  assign_slice im 0 ny (nx - width - 1) nx v.

(** [draw_box (im, ylo, xlo, yhi, xhi, border, fill)]; [fill] is [None]
    or a value. *)
Definition draw_box {A : Type} (im : image A) (ylo xlo yhi xhi : Z)
    (border : A) (fill : option A) : result (image A) :=
  let* im := draw_line_fast im ylo xlo ylo xhi border in
  let* im := draw_line_fast im ylo xhi yhi xhi border in
  let* im := draw_line_fast im yhi xhi yhi xlo border in
  let* im := draw_line_fast im yhi xlo ylo xlo border in
  match fill with
  | None => Ok im
  | Some f => Ok (set_region im (ylo + 1) (xlo + 1) yhi xhi f)
  end.

(** The pixels on the outline of the box, and those strictly within. *)
Definition on_outline (ylo xlo yhi xhi t s : Z) : Prop :=
  ylo <= t <= yhi ∧ xlo <= s <= xhi ∧
  (t = ylo ∨ t = yhi ∨ s = xlo ∨ s = xhi).

Definition within_box (ylo xlo yhi xhi t s : Z) : Prop :=
  ylo < t < yhi ∧ xlo < s < xhi.

(** What [draw_border] sets: the first [width] rows and columns, and the
    last [width + 1] rows and columns. *)
Definition on_border (ny nx width t s : Z) : bool :=
  (t <? width) || (ny - width - 1 <=? t) ||
  (s <? width) || (nx - width - 1 <=? s).

(** ** Sub-sampling: [subsample] *)

(** [a // b] on Python integers. *)
Definition floordiv (a b : Z) : result Z :=
  if b =? 0 then Raise ZeroDivisionError else Ok (a / b).

(** [image ((ny, nx, nc))], which is [numpy.zeros]: a negative extent
    raises [ValueError]. The samples of the new image are taken to be of
    the type of those stored into it. *)
Definition numpy_zeros {A : Type} (zero : A) (ny nx nc : Z)
    : result (image A) :=
  if (ny <? 0) || (nx <? 0) || (nc <? 0) then Raise ValueError
  else Ok (full (Z.to_nat ny) (Z.to_nat nx) (Z.to_nat nc) zero).

Definition subsample {A : Type} (zero : A) (im : image A) (inc : Z)
    : result (image A) :=
  let '(ny, nx, nc) := sizes im in
  let* ny2 := floordiv ny inc in
  let* nx2 := floordiv nx inc in
  let* im2 := numpy_zeros zero ny2 nx2 nc in
  for_each (xrange 0 ny2) (fun y im2 =>
    for_each (xrange 0 nx2) (fun x im2 =>
      let* p := getitem2 im (inc * y) (inc * x) in
      setpixel im2 y x p) im2) im2.

(** A pixel within one pixel of the circle of radius [r] about
    [(yc, xc)]. *)
Definition on_circle (yc xc r t s : Z) : Prop :=
  (r - 1) * (r - 1) < (t - yc) * (t - yc) + (s - xc) * (s - xc)
                    < (r + 1) * (r + 1).

(** *** The region that a flood fill reaches *)


(* ===================================================================== *)
(** * Part II: properties                                                 *)
(* ===================================================================== *)

(** ** Outcomes and loops *)

Lemma for_each_app {A S : Type} (xs ys : list A) (body : A → S → result S)
    (s : S) :
  for_each (xs ++ ys) body s = (let* s' := for_each xs body s in for_each ys body s').
Proof.
  revert s. induction xs as [|x xs IH]; intros s; simpl; [done|].
  destruct (body x s); simpl; auto.
Qed.

Lemma xrange_elem (lo hi i : Z) : i ∈ xrange lo hi ↔ lo <= i < hi.
Proof.
  unfold xrange. rewrite list_elem_of_fmap. split.
  - intros (k & -> & Hk). apply elem_of_seq in Hk. lia.
  - intros H. exists (Z.to_nat (i - lo)). split; [lia|].
    apply elem_of_seq. lia.
Qed.

(** ** Indexing a well-formed image *)

Lemma np_index_in_range (n i : Z) :
  0 <= i < n → np_index n i = Ok (Z.to_nat i).
Proof.
  intros H. unfold np_index.
  destruct (Z.leb_spec 0 i), (Z.ltb_spec i n); simpl; auto; lia.
Qed.

Lemma sizes_rows {A : Type} (im : image A) :
  (sizes im).1.1 = Z.of_nat (length im).
Proof. reflexivity. Qed.

Lemma wf_image_row {A : Type} (im : image A) (i : nat) (row : list (list A)) :
  wf_image im → im !! i = Some row →
  Z.of_nat (length row) = (sizes im).1.2 ∧
  Forall (fun p : list A => Z.of_nat (length p) = (sizes im).2) row.
Proof.
  intros Hwf Hrow. unfold wf_image in Hwf.
  rewrite Forall_lookup in Hwf. exact (Hwf i row Hrow).
Qed.

Lemma wf_image_pixel {A : Type} (im : image A) (y x : Z) :
  wf_image im → 0 <= y < (sizes im).1.1 → 0 <= x < (sizes im).1.2 →
  ∃ row p, im !! Z.to_nat y = Some row ∧ row !! Z.to_nat x = Some p ∧
           Z.of_nat (length row) = (sizes im).1.2 ∧
           Z.of_nat (length p) = (sizes im).2.
Proof.
  intros Hwf Hy Hx. rewrite sizes_rows in Hy.
  destruct (lookup_lt_is_Some_2 im (Z.to_nat y)) as [row Hrow]; [lia|].
  destruct (wf_image_row im _ row Hwf Hrow) as [Hlen Hpx].
  destruct (lookup_lt_is_Some_2 row (Z.to_nat x)) as [p Hp]; [lia|].
  exists row, p. repeat split; auto.
  rewrite Forall_lookup in Hpx. exact (Hpx _ _ Hp).
Qed.

Lemma getitem2_in_range {A : Type} (im : image A) (y x : Z) :
  wf_image im → 0 <= y < (sizes im).1.1 → 0 <= x < (sizes im).1.2 →
  getitem2 im y x = Ok (pixel im y x).
Proof.
  intros Hwf Hy Hx.
  destruct (wf_image_pixel im y x Hwf Hy Hx) as (row & p & Hrow & Hp & _ & _).
  unfold getitem2, pixel.
  destruct (sizes im) as [[ny nx] nc] eqn:Hs. simpl in Hy, Hx.
  rewrite (np_index_in_range ny y Hy), (np_index_in_range nx x Hx). simpl.
  rewrite Hrow. simpl. rewrite Hp. simpl.
  destruct (Z.leb_spec 0 y), (Z.leb_spec 0 x); simpl; auto; lia.
Qed.

Lemma getitem3_in_range {A : Type} (d : A) (im : image A) (y x c : Z) :
  wf_image im → 0 <= y < (sizes im).1.1 → 0 <= x < (sizes im).1.2 →
  0 <= c < (sizes im).2 →
  getitem3 im y x c = Ok (sample d im y x c).
Proof.
  intros Hwf Hy Hx Hc.
  destruct (wf_image_pixel im y x Hwf Hy Hx) as (row & p & Hrow & Hp & _ & Hlen).
  unfold getitem3. rewrite (getitem2_in_range im y x Hwf Hy Hx).
  unfold pixel, sample.
  destruct (sizes im) as [[ny nx] nc] eqn:Hs. simpl in Hy, Hx, Hc, Hlen.
  simpl. rewrite (np_index_in_range nc c Hc). simpl.
  destruct (Z.leb_spec 0 y), (Z.leb_spec 0 x), (Z.leb_spec 0 c); try lia.
  simpl. rewrite Hrow. simpl. rewrite Hp. simpl.
  destruct (lookup_lt_is_Some_2 p (Z.to_nat c)) as [a Ha]; [lia|].
  rewrite Ha. reflexivity.
Qed.

(** ** [high_peaks] *)

(** On a list with a first element the call returns a prefix of its
    argument. *)
Lemma high_peaks_nonempty (p : peak) (peaks : list peak) (factor : Q) :
  ∃ n : nat, high_peaks (p :: peaks) factor = Ok (take n (p :: peaks)).
Proof.
  destruct p as [[ht y] x]. unfold high_peaks. simpl bind.
  eexists. reflexivity.
Qed.

(** C10. [high_peaks] reads [peaks[0]] before anything else, so on the
    empty list it raises [IndexError] whatever the factor is, and does not
    return the empty list; the empty list is the only argument on which it
    raises. *)
Theorem high_peaks_empty_raises (factor : Q) :
  high_peaks [] factor = Raise IndexError ∧
  high_peaks [] factor ≠ Ok [] ∧
  ∀ peaks e, high_peaks peaks factor = Raise e → peaks = [].
Proof.
  split; [reflexivity|]. split; [discriminate|].
  intros [|p peaks] e Hraise; [reflexivity|].
  destruct (high_peaks_nonempty p peaks factor) as [n Hn].
  rewrite Hn in Hraise. discriminate.
Qed.

(** ** [find_peaks] *)

Lemma peak_compare_gt (p q : peak) :
  peak_compare p q = Gt ↔
  (q.1.1 < p.1.1 ∨ (p.1.1 = q.1.1 ∧
     (q.1.2 < p.1.2 ∨ (p.1.2 = q.1.2 ∧ q.2 < p.2)))).
Proof.
  destruct p as [[v1 y1] x1], q as [[v2 y2] x2]. simpl.
  destruct (Z.compare_spec v1 v2), (Z.compare_spec y1 y2),
    (Z.compare_spec x1 x2); split; intros Hcmp; try discriminate; try lia; auto.
Qed.

Lemma peak_compare_lt (p q : peak) :
  peak_compare p q = Lt ↔ peak_compare q p = Gt.
Proof.
  rewrite peak_compare_gt.
  destruct p as [[v1 y1] x1], q as [[v2 y2] x2]. simpl.
  destruct (Z.compare_spec v1 v2), (Z.compare_spec y1 y2),
    (Z.compare_spec x1 x2); split; intros Hcmp; try discriminate; try lia; auto.
Qed.

Lemma peak_compare_eq (p q : peak) : peak_compare p q = Eq ↔ p = q.
Proof.
  destruct p as [[v1 y1] x1], q as [[v2 y2] x2]. simpl.
  destruct (Z.compare_spec v1 v2), (Z.compare_spec y1 y2),
    (Z.compare_spec x1 x2); split; intros Hcmp; try discriminate;
    try (injection Hcmp; lia); subst; auto.
Qed.

Lemma peak_gt_trans (p q r : peak) : peak_gt p q → peak_gt q r → peak_gt p r.
Proof. unfold peak_gt. rewrite !peak_compare_gt. lia. Qed.

Lemma insert_reverse_perm (p : peak) (l : list peak) :
  insert_reverse p l ≡ₚ p :: l.
Proof.
  induction l as [|q l IH]; simpl; [done|].
  destruct (peak_ltb p q); [|done].
  rewrite IH. apply Permutation_swap.
Qed.

Lemma sort_reverse_perm (l : list peak) : sort_reverse l ≡ₚ l.
Proof.
  induction l as [|p l IH]; simpl; [done|].
  rewrite insert_reverse_perm. by rewrite IH.
Qed.

Lemma insert_reverse_sorted (p : peak) (l : list peak) :
  p ∉ l → StronglySorted peak_gt l → StronglySorted peak_gt (insert_reverse p l).
Proof.
  intros Hp Hs. induction Hs as [|q l Hs IH Hall]; simpl.
  - repeat constructor.
  - apply not_elem_of_cons in Hp as [Hpq Hpl].
    unfold peak_ltb. destruct (peak_compare p q) eqn:Hc.
    + apply peak_compare_eq in Hc. done.
    + constructor; [auto|].
      rewrite insert_reverse_perm. constructor; [|done].
      by apply peak_compare_lt.
    + constructor; [by constructor|].
      constructor; [done|].
      eapply Forall_impl; [exact Hall|].
      intros r Hr. by eapply peak_gt_trans.
Qed.

Lemma sort_reverse_sorted (l : list peak) :
  NoDup l → StronglySorted peak_gt (sort_reverse l).
Proof.
  induction 1 as [|p l Hp Hnd IH]; simpl; [constructor|].
  apply insert_reverse_sorted; [|done].
  by rewrite sort_reverse_perm.
Qed.

Lemma and_then_Ok (a b : bool) : Ok a &&& Ok b = Ok (a && b).
Proof. by destruct a. Qed.

Lemma is_peak_spec (im : image Z) (threshold y x : Z) :
  wf_image im → 0 < (sizes im).2 →
  1 <= y < (sizes im).1.1 - 1 → 1 <= x < (sizes im).1.2 - 1 →
  ∃ b : bool, is_peak im y x threshold = Ok b ∧
    (b = true ↔ peak_spec im threshold (sample 0 im y x 0, y, x)).
Proof.
  intros Hwf Hnc Hy Hx. unfold is_peak, exceeds.
  rewrite !(getitem3_in_range 0 im) by (auto; lia). simpl bind.
  rewrite !and_then_Ok. eexists; split; [reflexivity|].
  unfold peak_spec. destruct (sizes im) as [[ny nx] nc]. simpl in Hy, Hx.
  rewrite !andb_true_iff, !Z.ltb_lt. split.
  - intros [[[[[[[[H1 H2] H3] H4] H5] H6] H7] H8] H9].
    repeat split; try lia.
    intros dy dx Hdy Hdx Hne.
    assert (Hdy' : dy = -1 ∨ dy = 0 ∨ dy = 1) by lia.
    assert (Hdx' : dx = -1 ∨ dx = 0 ∨ dx = 1) by lia.
    destruct Hdy' as [-> | [-> | ->]], Hdx' as [-> | [-> | ->]];
      rewrite ?Z.add_0_r; try done.
  - intros (_ & _ & _ & Hn & Ht).
    pose proof (Hn (-1) (-1)). pose proof (Hn (-1) 0). pose proof (Hn (-1) 1).
    pose proof (Hn 0 (-1)) as H0m. pose proof (Hn 0 1) as H0p.
    pose proof (Hn 1 (-1)). pose proof (Hn 1 0). pose proof (Hn 1 1).
    rewrite Z.add_0_r in *.
    repeat split; auto; try (match goal with H : _ |- _ => apply H; [lia|lia|done] end).
Qed.

Lemma peak_spec_position (im : image Z) (threshold : Z) (p : peak) :
  peak_spec im threshold p →
  1 <= p.1.2 < (sizes im).1.1 - 1 ∧ 1 <= p.2 < (sizes im).1.2 - 1 ∧
  p.1.1 = sample 0 im p.1.2 p.2 0.
Proof.
  destruct p as [[v y] x]. unfold peak_spec.
  destruct (sizes im) as [[ny nx] nc]. cbn. tauto.
Qed.

(** The scan of one row appends the peaks of that row, each once. *)
Lemma find_peaks_row (im : image Z) (threshold y : Z) (xs : list Z)
    (peaks : list peak) :
  wf_image im → 0 < (sizes im).2 → 1 <= y < (sizes im).1.1 - 1 →
  NoDup xs → (∀ x, x ∈ xs → 1 <= x < (sizes im).1.2 - 1) →
  ∃ found : list peak,
    for_each xs (fun x peaks =>
      let* b := is_peak im y x threshold in
      if b then
        let* a := getitem3 im y x 0 in
        Ok (peaks ++ [(a, y, x)])
      else Ok peaks) peaks = Ok (peaks ++ found) ∧
    NoDup found ∧
    ∀ p, p ∈ found ↔ (p.1.2 = y ∧ p.2 ∈ xs ∧ peak_spec im threshold p).
Proof.
  intros Hwf Hnc Hy Hnd Hxs. revert peaks.
  induction Hnd as [|x xs Hx Hnd IH]; intros peaks.
  - exists []. rewrite app_nil_r. split; [done|]. split; [constructor|].
    intros p. split.
    + intros Hin. by apply elem_of_nil in Hin.
    + intros (_ & Hin & _). by apply elem_of_nil in Hin.
  - simpl.
    assert (Hx1 : 1 <= x < (sizes im).1.2 - 1) by (apply Hxs; by left).
    destruct (is_peak_spec im threshold y x Hwf Hnc Hy Hx1) as (b & -> & Hb).
    assert (Hxs' : ∀ x0, x0 ∈ xs → 1 <= x0 < (sizes im).1.2 - 1).
    { intros x0 H0. apply Hxs. by right. }
    simpl bind. destruct b.
    + rewrite (getitem3_in_range 0 im) by (auto; lia).
      simpl bind.
      destruct (IH Hxs' (peaks ++ [(sample 0 im y x 0, y, x)]))
        as (found & Heq & Hndf & Hf).
      exists ((sample 0 im y x 0, y, x) :: found).
      rewrite <- app_assoc in Heq. split; [exact Heq|]. split.
      * constructor; [|done]. rewrite Hf. simpl. tauto.
      * intros p. rewrite !elem_of_cons, Hf. split.
        -- intros [-> | (? & ? & ?)]; simpl; [|tauto].
           split; [done|]. split; [by left|]. by apply Hb.
        -- intros (Hpy & [Hpx|Hpx] & Hspec); [|tauto].
           left. destruct p as [[v py] px]. simpl in *. subst.
           unfold peak_spec in Hspec.
           destruct (sizes im) as [[ny nx] nc].
           destruct Hspec as (_ & _ & -> & _). done.
    + destruct (IH Hxs' peaks) as (found & Heq & Hndf & Hf).
      exists found. split; [exact Heq|]. split; [done|].
      intros p. rewrite Hf, elem_of_cons. split; [tauto|].
      intros (Hpy & [Hpx|Hpx] & Hspec); [|tauto].
      exfalso. destruct p as [[v py] px]. simpl in *. subst.
      assert (v = sample 0 im y x 0) as ->.
      { unfold peak_spec in Hspec. destruct (sizes im) as [[ny nx] nc].
        tauto. }
      apply Hb in Hspec. done.
Qed.

Lemma xrange_NoDup (lo hi : Z) : NoDup (xrange lo hi).
Proof.
  unfold xrange. apply NoDup_fmap_2; [|apply NoDup_seq].
  intros i j Hij. lia.
Qed.

(** The scan of a list of rows appends the peaks of those rows. *)
Lemma find_peaks_rows (im : image Z) (threshold : Z) (ys : list Z)
    (peaks : list peak) :
  wf_image im → 0 < (sizes im).2 →
  NoDup ys → (∀ y, y ∈ ys → 1 <= y < (sizes im).1.1 - 1) →
  ∃ found : list peak,
    for_each ys (fun y peaks =>
      for_each (xrange 1 ((sizes im).1.2 - 1)) (fun x peaks =>
        let* b := is_peak im y x threshold in
        if b then
          let* a := getitem3 im y x 0 in
          Ok (peaks ++ [(a, y, x)])
        else Ok peaks) peaks) peaks = Ok (peaks ++ found) ∧
    NoDup found ∧
    ∀ p, p ∈ found ↔ (p.1.2 ∈ ys ∧ peak_spec im threshold p).
Proof.
  intros Hwf Hnc Hnd Hys. revert peaks.
  induction Hnd as [|y ys Hy Hnd IH]; intros peaks.
  - exists []. rewrite app_nil_r. split; [done|]. split; [constructor|].
    intros p. split.
    + intros Hin. by apply elem_of_nil in Hin.
    + intros [Hin _]. by apply elem_of_nil in Hin.
  - cbn [for_each].
    assert (Hy1 : 1 <= y < (sizes im).1.1 - 1) by (apply Hys; by left).
    destruct (find_peaks_row im threshold y (xrange 1 ((sizes im).1.2 - 1))
                peaks Hwf Hnc Hy1 (xrange_NoDup _ _))
      as (row & Hrow & Hndr & Hr).
    { intros x. by rewrite xrange_elem. }
    rewrite Hrow. simpl bind.
    destruct (IH (fun y0 H0 => Hys y0 (list_elem_of_further _ _ _ H0))
                 (peaks ++ row)) as (found & Heq & Hndf & Hf).
    exists (row ++ found). rewrite <- app_assoc in Heq.
    split; [exact Heq|]. split.
    + apply NoDup_app. split; [done|]. split; [|done].
      intros p Hp1 Hp2. apply Hr in Hp1 as [Hp1 _]. apply Hf in Hp2 as [Hp2 _].
      congruence.
    + intros p. rewrite elem_of_app, Hr, Hf, elem_of_cons. split.
      * intros [(Hpy & _ & Hspec) | [Hpy Hspec]]; auto.
      * intros [[Hpy | Hpy] Hspec]; [left | right; done].
        split; [done|]. split; [|done].
        apply xrange_elem. apply peak_spec_position in Hspec. tauto.
Qed.

(** C4, as the code has it. [find_peaks] returns, for every well-formed
    image with at least one channel and every threshold, exactly the triples
    (value, row, column) of the pixels strictly inside the one-pixel border
    whose channel-0 sample exceeds all eight neighbours and the threshold;
    the list is in strictly descending lexicographic order of (value, row,
    column), so equal values come with the larger row first, then the
    larger column. *)
Theorem find_peaks_descending (im : image Z) (threshold : Z) :
  wf_image im → 0 < (sizes im).2 →
  ∃ l : list peak,
    find_peaks im threshold = Ok l ∧
    (∀ p, p ∈ l ↔ peak_spec im threshold p) ∧
    StronglySorted peak_gt l.
Proof.
  intros Hwf Hnc. unfold find_peaks.
  destruct (find_peaks_rows im threshold (xrange 1 ((sizes im).1.1 - 1)) []
              Hwf Hnc (xrange_NoDup _ _)) as (found & Heq & Hnd & Hf).
  { intros y. by rewrite xrange_elem. }
  destruct (sizes im) as [[ny nx] nc] eqn:Hs. cbn [fst snd] in Heq.
  cbv beta iota. exists (sort_reverse found). rewrite Heq.
  split; [done|]. split.
  - intros p. rewrite sort_reverse_perm, Hf. split; [tauto|].
    intros Hspec. split; [|done].
    apply xrange_elem. apply peak_spec_position in Hspec.
    rewrite Hs in Hspec. cbn in Hspec. tauto.
  - by apply sort_reverse_sorted.
Qed.

Lemma wf_image_two_peaks : wf_image two_peaks.
Proof. unfold wf_image. repeat constructor. Qed.

Lemma find_peaks_descending_witness :
  ∃ l : list peak,
    find_peaks two_peaks 0 = Ok l ∧
    (∀ p, p ∈ l ↔ peak_spec two_peaks 0 p) ∧
    StronglySorted peak_gt l.
Proof.
  apply (find_peaks_descending two_peaks 0).
  - exact wf_image_two_peaks.
  - reflexivity.
Defined.

(** C4, as the design document has it, fails: on a 5x5 image with two
    peaks of value 7, at (1,1) and (3,3), the peak of row 3 comes first, so
    ties are not in ascending order of row. *)
Lemma find_peaks_ties_not_ascending :
  wf_image two_peaks ∧
  find_peaks two_peaks 0 = Ok [(7, 3, 3); (7, 1, 1)] ∧
  ¬ StronglySorted peak_before_ascending_ties [(7, 3, 3); (7, 1, 1)].
Proof.
  split; [exact wf_image_two_peaks|]. split; [reflexivity|].
  intros Hs. apply StronglySorted_inv in Hs as [_ Hall].
  apply Forall_inv in Hall. simpl in Hall. lia.
Qed.

(** ** Writing a pixel of a well-formed image *)

Lemma sizes_insert {A : Type} (im : image A) (i j : nat)
    (row : list (list A)) (p p' : list A) :
  im !! i = Some row → row !! j = Some p → length p' = length p →
  sizes (<[i := <[j := p']> row]> im) = sizes im.
Proof.
  intros Hrow Hp Hlen. unfold sizes. rewrite length_insert.
  destruct im as [|row0 im]; [done|].
  destruct i as [|i]; simpl in *; [|done].
  injection Hrow as ->. f_equal; [f_equal|].
  - by rewrite length_insert.
  - destruct row as [|p0 row]; [done|].
    destruct j as [|j]; simpl in *; [|done].
    injection Hp as ->. by rewrite Hlen.
Qed.

Lemma wf_image_insert {A : Type} (im : image A) (i j : nat)
    (row : list (list A)) (p p' : list A) :
  wf_image im → im !! i = Some row → row !! j = Some p →
  length p' = length p →
  wf_image (<[i := <[j := p']> row]> im).
Proof.
  intros Hwf Hrow Hp Hlen. unfold wf_image.
  rewrite (sizes_insert im i j row p p' Hrow Hp Hlen).
  destruct (wf_image_row im i row Hwf Hrow) as [Hrl Hrp].
  apply Forall_insert; [exact Hwf|].
  split; [by rewrite length_insert|].
  apply Forall_insert; [done|]. rewrite Hlen.
  rewrite Forall_lookup in Hrp. exact (Hrp j p Hp).
Qed.

Lemma pixel_lookup {A : Type} (im : image A) (y x : Z)
    (row : list (list A)) (p : list A) :
  0 <= y → 0 <= x →
  im !! Z.to_nat y = Some row → row !! Z.to_nat x = Some p →
  pixel im y x = p.
Proof.
  intros Hy Hx Hrow Hp. unfold pixel.
  destruct (Z.leb_spec 0 y), (Z.leb_spec 0 x); try lia.
  simpl. rewrite Hrow. simpl. by rewrite Hp.
Qed.

Lemma pixel_insert {A : Type} (im : image A) (i j : nat)
    (row : list (list A)) (p' : list A) (t s : Z) :
  im !! i = Some row → (j < length row)%nat →
  pixel (<[i := <[j := p']> row]> im) t s =
  if decide (t = Z.of_nat i ∧ s = Z.of_nat j) then p' else pixel im t s.
Proof.
  intros Hrow Hj. unfold pixel.
  destruct (Z.leb_spec 0 t), (Z.leb_spec 0 s); simpl;
    try (case_decide; [lia|done]).
  assert (Hi : (i < length im)%nat) by (by eapply lookup_lt_Some).
  destruct (decide (Z.to_nat t = i)) as [Ht|Ht].
  - subst i. rewrite list_lookup_insert_eq by done. simpl.
    destruct (decide (Z.to_nat s = j)) as [Hs|Hs].
    + subst j. rewrite list_lookup_insert_eq by done. simpl.
      case_decide; [done|lia].
    + rewrite list_lookup_insert_ne by done. rewrite Hrow. simpl.
      case_decide; [lia|done].
  - rewrite list_lookup_insert_ne by done. case_decide; [lia|done].
Qed.

(** Inside the image a write succeeds, keeps the shape and changes the one
    pixel. *)
Lemma update_pixel_in_range {A : Type} (im : image A) (y x : Z)
    (f : list A → list A) :
  wf_image im → 0 <= y < (sizes im).1.1 → 0 <= x < (sizes im).1.2 →
  (∀ p, length (f p) = length p) →
  ∃ im', update_pixel im y x f = Ok im' ∧
         wf_image im' ∧ sizes im' = sizes im ∧
         ∀ t s, pixel im' t s =
                if decide (t = y ∧ s = x) then f (pixel im y x)
                else pixel im t s.
Proof.
  intros Hwf Hy Hx Hf.
  destruct (wf_image_pixel im y x Hwf Hy Hx) as (row & p & Hrow & Hp & Hrl & _).
  unfold update_pixel.
  destruct (sizes im) as [[ny nx] nc] eqn:Hs. simpl in Hy, Hx, Hrl.
  rewrite (np_index_in_range ny y Hy), (np_index_in_range nx x Hx). simpl.
  rewrite Hrow. simpl. rewrite Hp. simpl. eexists. split; [reflexivity|].
  split; [by eapply wf_image_insert|].
  split; [rewrite <- Hs; by eapply sizes_insert|].
  intros t s. rewrite (pixel_insert im _ _ row) by (done || lia).
  rewrite (pixel_lookup im y x row p) by (done || lia).
  repeat case_decide; try done; lia.
Qed.

Lemma setitem2_in_range {A : Type} (im : image A) (y x : Z) (v : A) :
  wf_image im → 0 <= y < (sizes im).1.1 → 0 <= x < (sizes im).1.2 →
  ∃ im', setitem2 im y x v = Ok im' ∧
         wf_image im' ∧ sizes im' = sizes im ∧
         ∀ t s, pixel im' t s =
                if decide (t = y ∧ s = x) then map (fun _ => v) (pixel im y x)
                else pixel im t s.
Proof.
  intros Hwf Hy Hx. apply update_pixel_in_range; auto.
  intros p. by rewrite length_map.
Qed.

Lemma update_pixel_insert {A : Type} (im : image A) (y x : Z)
    (f : list A → list A) :
  wf_image im → 0 <= y < (sizes im).1.1 → 0 <= x < (sizes im).1.2 →
  ∃ row p, im !! Z.to_nat y = Some row ∧ row !! Z.to_nat x = Some p ∧
           Z.of_nat (length p) = (sizes im).2 ∧
           update_pixel im y x f =
             Ok (<[Z.to_nat y := <[Z.to_nat x := f p]> row]> im).
Proof.
  intros Hwf Hy Hx.
  destruct (wf_image_pixel im y x Hwf Hy Hx) as (row & p & Hrow & Hp & _ & Hpl).
  exists row, p. repeat split; auto.
  unfold update_pixel.
  destruct (sizes im) as [[ny nx] nc] eqn:Hs. simpl in Hy, Hx.
  rewrite (np_index_in_range ny y Hy), (np_index_in_range nx x Hx). simpl.
  rewrite Hrow. simpl. rewrite Hp. reflexivity.
Qed.

(** ** [fill_outline] *)



Lemma similar_zero_threshold (vc : Z) (p : list Z) : similar vc 0 p = false.
Proof. unfold similar. apply Z.ltb_ge. lia. Qed.

Section FillOutline.

Variables (ny nx nc vc v threshold : Z).

(** A neighbour either is left alone, or it passed the test, is coloured
    and is appended to the new edge list. *)
Lemma fill_neighbour_cases (im : image Z) (newedge : list (Z * Z))
    (t s : Z) :
  shaped ny nx nc im →
  ∃ im' newedge',
    fill_neighbour ny nx vc v threshold (t, s) (im, newedge)
      = Ok (im', newedge') ∧
    shaped ny nx nc im' ∧
    ((im' = im ∧ newedge' = newedge) ∨
     (newedge' = newedge ++ [(t, s)] ∧
      similar vc threshold (pixel im t s) = true ∧
      ∃ row p, im !! Z.to_nat t = Some row ∧ row !! Z.to_nat s = Some p ∧
               pixel im t s = p ∧ Z.of_nat (length p) = nc ∧
               im' = <[Z.to_nat t := <[Z.to_nat s := map (fun _ => v) p]> row]> im)).
Proof.
  intros [Hwf Hs]. unfold fill_neighbour.
  destruct ((0 <=? s) && (s <? nx) && (0 <=? t) && (t <? ny)) eqn:Hin.
  - rewrite !andb_true_iff in Hin.
    destruct Hin as [[[Hs0 Hs1] Ht0] Ht1].
    apply Z.leb_le in Hs0, Ht0. apply Z.ltb_lt in Hs1, Ht1.
    assert (Ht : 0 <= t < (sizes im).1.1) by (rewrite Hs; simpl; lia).
    assert (Hs' : 0 <= s < (sizes im).1.2) by (rewrite Hs; simpl; lia).
    rewrite (getitem2_in_range im t s Hwf Ht Hs'). simpl bind.
    fold (similar vc threshold (pixel im t s)).
    destruct (similar vc threshold (pixel im t s)) eqn:Hsim; simpl.
    + unfold setitem2.
      destruct (update_pixel_insert im t s (map (fun _ => v)) Hwf Ht Hs')
        as (row & p & Hrow & Hp & Hpl & ->).
      simpl. do 2 eexists. split; [reflexivity|]. split.
      * split; [eapply wf_image_insert; eauto; by rewrite length_map|].
        rewrite <- Hs. eapply sizes_insert; eauto. by rewrite length_map.
      * right. split; [done|]. split; [done|].
        exists row, p. repeat split; auto.
        -- apply (pixel_lookup im t s row p); auto; lia.
        -- rewrite Hpl, Hs. done.
    + exists im, newedge. split; [done|]. split; [done|]. by left.
  - simpl. exists im, newedge. split; [done|]. split; [done|]. by left.
Qed.


(** The fill value fails the similarity test: what the guard of
    [fill_outline] establishes. *)
Hypothesis fill_value_differs :
  similar vc threshold (replicate (Z.to_nat nc) v) = false.






End FillOutline.

Lemma for_each_unchanged {A S : Type} (keeps : S → Prop) (xs : list A)
    (body : A → S → result S) (s : S) :
  (∀ x s, keeps s → body x s = Ok s) → keeps s → for_each xs body s = Ok s.
Proof.
  intros Hbody Hs. induction xs as [|x xs IH]; simpl; [done|].
  by rewrite Hbody.
Qed.




(** C2, as the code has it. With [threshold = 0] no neighbour can pass the
    test [abs (sum - vc) < 0], and the guard cannot stop the call either: on
    any well-formed image, and so on the 10x10 image with a uniform
    rectangle, a call with a seed inside the image sets the seed pixel to
    the fill value and leaves every other pixel as it was. *)
Theorem fill_outline_zero_threshold (im : image Z) (y x v : Z) (fuel : nat) :
  wf_image im → 0 <= y < (sizes im).1.1 → 0 <= x < (sizes im).1.2 →
  (0 < fuel)%nat →
  ∃ im', fill_outline fuel im y x v 0 = Ok im' ∧
         ∀ t s, pixel im' t s =
                if decide (t = y ∧ s = x) then map (fun _ => v) (pixel im y x)
                else pixel im t s.
Proof.
  intros Hwf Hy Hx Hfuel. unfold fill_outline.
  destruct (sizes im) as [[ny nx] nc] eqn:Hs. simpl in Hy, Hx.
  destruct (Z.ltb_spec x 0), (Z.leb_spec nx x), (Z.ltb_spec y 0),
    (Z.leb_spec ny y); try lia. simpl.
  rewrite (getitem2_in_range im y x Hwf) by (rewrite Hs; simpl; lia).
  simpl bind.
  destruct (Z.ltb_spec (Z.abs (channel_sum (pixel im y x) - v)) 0); [lia|].
  destruct (setitem2_in_range im y x v Hwf) as (im1 & -> & Hwf1 & Hs1 & Hpx1);
    try (rewrite Hs; simpl; lia).
  simpl bind. exists im1. split; [|done].
  destruct fuel as [|fuel]; [lia|]. cbn [fill_while].
  assert (Hsh1 : shaped ny nx nc im1) by (split; [done|by rewrite Hs1, Hs]).
  assert (Hstay : ∀ ts newedge,
    fill_neighbour ny nx (channel_sum (pixel im y x)) v 0 ts (im1, newedge)
    = Ok (im1, newedge)).
  { intros [t s] newedge.
    destruct (fill_neighbour_cases ny nx nc (channel_sum (pixel im y x)) v 0
                im1 newedge t s Hsh1) as (im' & ne' & -> & _ & Hcases).
    destruct Hcases as [[-> ->] | (_ & Hsim & _)]; [done|].
    by rewrite similar_zero_threshold in Hsim. }
  unfold fill_sweep.
  rewrite (for_each_unchanged (fun st => st.1 = im1)); [|intros yx st Hst|done].
  - simpl bind. by destruct fuel.
  - apply (for_each_unchanged (fun st => st.1 = im1)); [|done].
    intros ts [im' ne] Heq. simpl in Heq. subst im'. apply Hstay.
Qed.

Lemma wf_rectangle_image (V : Z) : wf_image (rectangle_image V).
Proof. unfold wf_image. vm_compute. repeat constructor. Qed.

Lemma fill_outline_zero_threshold_witness :
  ∃ im', fill_outline 1 (rectangle_image 5) 3 4 9 0 = Ok im' ∧
         ∀ t s, pixel im' t s =
                if decide (t = 3 ∧ s = 4)
                then map (fun _ => 9) (pixel (rectangle_image 5) 3 4)
                else pixel (rectangle_image 5) t s.
Proof.
  apply (fill_outline_zero_threshold (rectangle_image 5) 3 4 9 1).
  - apply wf_rectangle_image.
  - vm_compute. split; [discriminate | reflexivity].
  - vm_compute. split; [discriminate | reflexivity].
  - lia.
Defined.

(** C2, as the design document has it, fails: in the 10x10 image whose
    rectangle (rows 2 to 4, columns 3 to 6) has value 5, a fill with value 9
    and threshold 0 from the seed (3,4) leaves the rectangle pixel (2,3) at
    5, so the rectangle is not filled. *)
Lemma fill_outline_zero_threshold_leaves_rectangle :
  ∃ im', fill_outline 200 (rectangle_image 5) 3 4 9 0 = Ok im' ∧
         pixel im' 2 3 = [5] ∧
         ¬ fills_exactly (rectangle_image 5) im' in_rectangle 9.
Proof.
  eexists. split; [vm_compute; reflexivity|]. split; [reflexivity|].
  intros Hfill. specialize (Hfill 2 3). vm_compute in Hfill.
  assert (H59 : [5] = [9]) by (apply Hfill; split; congruence).
  discriminate H59.
Qed.

(** ** [draw_line_fast] *)

Lemma xrange_nil (lo hi : Z) : hi <= lo → xrange lo hi = [].
Proof. intros H. unfold xrange. by replace (Z.to_nat (hi - lo)) with O by lia. Qed.

Lemma xrange_cons (lo hi : Z) :
  lo < hi → xrange lo hi = lo :: xrange (lo + 1) hi.
Proof.
  intros H. unfold xrange.
  replace (Z.to_nat (hi - lo)) with (S (Z.to_nat (hi - (lo + 1)))) by lia.
  simpl. f_equal; [lia|].
  rewrite <- fmap_S_seq, <- list_fmap_compose.
  apply list_fmap_ext. intros _ i _. simpl. lia.
Qed.


Lemma xrange_length (lo hi : Z) : length (xrange lo hi) = Z.to_nat (hi - lo).
Proof. unfold xrange. by rewrite length_map, length_seq. Qed.



Section LineAccumulator.

Variables (Y0 Y1 dx : Z).
Hypothesis dx_pos : 0 < dx.
Hypothesis gentle : Z.abs (Y1 - Y0) <= dx.

Let de : Q := slope (inject_Z dx) (Z.abs (Y1 - Y0)).
Let ystep : Z := if Y0 <? Y1 then 1 else -1.





End LineAccumulator.

Lemma drawn_nil {A : Type} (v : A) (im : image A) : drawn v im im [].
Proof. intros t s. case_decide as H; [|done]. by apply elem_of_nil in H. Qed.

Lemma map_const_idemp {A : Type} (v : A) (p : list A) :
  map (fun _ => v) (map (fun _ => v) p) = map (fun _ => v) p.
Proof. induction p; simpl; congruence. Qed.

Section DrawLineFast.

Context {A : Type}.
Variables (ny nx nc : Z) (steep : bool) (de : Q) (ystep : Z) (v : A).
Variable im0 : image A.

(** The pixel that the turn for [x] addresses when [y] is the current
    ordinate. *)
Let target (x y : Z) : Z * Z := if steep then (x, y) else (y, x).

Lemma line_plot_target (x y : Z) (im : image A) (written : list (Z * Z)) :
  line_plot ny nx steep v x y im written =
  if (0 <=? (target x y).1) && ((target x y).1 <? ny) &&
     (0 <=? (target x y).2) && ((target x y).2 <? nx)
  then let* im' := setitem2 im (target x y).1 (target x y).2 v in
       Ok (im', written ++ [target x y])
  else Ok (im, written).
Proof.
  unfold line_plot, target. destruct steep; simpl; [done|].
  destruct (0 <=? x), (x <? nx), (0 <=? y), (y <? ny); done.
Qed.

Lemma line_plot_drawn (x y : Z) (im : image A) (written : list (Z * Z)) :
  shaped ny nx nc im → drawn v im0 im written →
  ∃ im' written',
    line_plot ny nx steep v x y im written = Ok (im', written') ∧
    shaped ny nx nc im' ∧ drawn v im0 im' written' ∧
    written ⊆ written' ∧
    (0 <= (target x y).1 < ny → 0 <= (target x y).2 < nx →
     target x y ∈ written').
Proof.
  intros [Hwf Hs] Hdrawn. rewrite line_plot_target.
  destruct (target x y) as [r c]. simpl.
  destruct (Z.leb_spec 0 r), (Z.ltb_spec r ny), (Z.leb_spec 0 c),
    (Z.ltb_spec c nx); simpl;
    try (exists im, written; repeat split; auto; intros; lia).
  destruct (setitem2_in_range im r c v Hwf) as (im' & -> & Hwf' & Hs' & Hpx);
    try (rewrite Hs; simpl; lia).
  simpl. exists im', (written ++ [(r, c)]). split; [done|].
  split; [split; [done|congruence]|].
  assert (Hlast : (r, c) ∈ written ++ [(r, c)]).
  { apply elem_of_app. right. by apply list_elem_of_singleton. }
  split; [|split; [|done]].
  2:{ intros a Ha. apply elem_of_app. by left. }
  intros t s. rewrite Hpx, !Hdrawn.
  destruct (decide (t = r ∧ s = c)) as [[-> ->]|Hne].
  - destruct (decide ((r, c) ∈ written ++ [(r, c)])); [|done].
    case_decide; [apply map_const_idemp|done].
  - destruct (decide ((t, s) ∈ written)) as [Hin|Hin].
    + destruct (decide ((t, s) ∈ written ++ [(r, c)])) as [|Hout]; [done|].
      exfalso. apply Hout, elem_of_app. by left.
    + destruct (decide ((t, s) ∈ written ++ [(r, c)])) as [Hin'|]; [|done].
      exfalso. apply elem_of_app in Hin' as [?|Heq]; [done|].
      apply list_elem_of_singleton in Heq. injection Heq as -> ->. tauto.
Qed.

Lemma draw_line_fast_step_drawn (x y : Z) (e : Q) (im : image A)
    (written : list (Z * Z)) :
  shaped ny nx nc im → drawn v im0 im written →
  ∃ im' written',
    draw_line_fast_step ny nx steep de ystep v x (im, e, y, written) =
      Ok (im', (line_advance de ystep (e, y)).1,
               (line_advance de ystep (e, y)).2, written') ∧
    shaped ny nx nc im' ∧ drawn v im0 im' written' ∧
    written ⊆ written' ∧
    (0 <= (target x y).1 < ny → 0 <= (target x y).2 < nx →
     target x y ∈ written').
Proof.
  intros Hsh Hdrawn.
  destruct (line_plot_drawn x y im written Hsh Hdrawn)
    as (im' & written' & Heq & Hsh' & Hdrawn' & Hsub & Hin).
  exists im', written'. unfold draw_line_fast_step. rewrite Heq. simpl bind.
  by destruct (line_advance de ystep (e, y)).
Qed.

Lemma draw_line_fast_run (xs : list Z) (y : Z) (e : Q) (im : image A)
    (written : list (Z * Z)) :
  shaped ny nx nc im → drawn v im0 im written →
  ∃ im' written',
    for_each xs (draw_line_fast_step ny nx steep de ystep v)
             (im, e, y, written) =
      Ok (im', (Nat.iter (length xs) (line_advance de ystep) (e, y)).1,
               (Nat.iter (length xs) (line_advance de ystep) (e, y)).2,
               written') ∧
    shaped ny nx nc im' ∧ drawn v im0 im' written' ∧ written ⊆ written'.
Proof.
  revert y e im written.
  induction xs as [|x xs IH]; intros y e im written Hsh Hdrawn.
  - exists im, written. simpl. done.
  - destruct (draw_line_fast_step_drawn x y e im written Hsh Hdrawn)
      as (im1 & w1 & Heq1 & Hsh1 & Hdrawn1 & Hsub1 & _).
    destruct (IH (line_advance de ystep (e, y)).2
                 (line_advance de ystep (e, y)).1 im1 w1 Hsh1 Hdrawn1)
      as (im2 & w2 & Heq2 & Hsh2 & Hdrawn2 & Hsub2).
    exists im2, w2. cbn [for_each]. rewrite Heq1. simpl bind.
    cbn [length]. rewrite Nat.iter_succ_r.
    rewrite <- surjective_pairing in Heq2.
    split; [done|]. split; [done|]. split; [done|].
    intros a Ha. by apply Hsub2, Hsub1.
Qed.

End DrawLineFast.




(** ** Drawings *)

Lemma draw_bind_Ok {A B : Type} (m : drawing A) (k : A → drawing B)
    (ops : list draw_op) (b : B) :
  draw_bind m k = (ops, Ok b) →
  ∃ a ops1 ops2, m = (ops1, Ok a) ∧ k a = (ops2, Ok b) ∧ ops = ops1 ++ ops2.
Proof.
  destruct m as [ops1 [a|e|]]; unfold draw_bind; simpl; intros H;
    try discriminate.
  destruct (k a) as [ops2 r] eqn:Hk. simpl in H. injection H as <- ->.
  by exists a, ops1, ops2.
Qed.

Lemma lift_Ok {A : Type} (r : result A) (ops : list draw_op) (a : A) :
  lift r = (ops, Ok a) → r = Ok a ∧ ops = [].
Proof. unfold lift. intros H. by injection H as <- ->. Qed.

Lemma emit_Ok (op : draw_op) (ops : list draw_op) (u : unit) :
  emit op = (ops, Ok u) → ops = [op].
Proof. unfold emit. intros H. by injection H as <-. Qed.

(** ** [draw_line] *)

(** One turn of the main loop that ends normally has blended the pair of
    its column, and has advanced [intery] by [de]. *)
Lemma draw_line_step_Ok (steep : bool) (de : float) (x : Z)
    (intery intery' : float) (ops : list draw_op) :
  draw_line_step steep de x intery = (ops, Ok intery') →
  intery' = (intery + de)%float ∧
  ∃ op1 op2, ops = [op1; op2] ∧ interior_as_coded steep x intery op1 op2.
Proof.
  unfold draw_line_step. intros H.
  apply draw_bind_Ok in H as (i1 & o1 & ops1 & [Hi1 ->]%lift_Ok & H & ->).
  apply draw_bind_Ok in H as (f1 & o1 & ops2 & [Hf1 ->]%lift_Ok & H & ->).
  apply draw_bind_Ok in H as (w1 & o1 & ops3 & [Hw1 ->]%lift_Ok & H & ->).
  apply draw_bind_Ok in H as (u1 & o1 & ops4 & ->%emit_Ok & H & ->).
  apply draw_bind_Ok in H as (i2 & o1 & ops5 & [Hi2 ->]%lift_Ok & H & ->).
  apply draw_bind_Ok in H as (f2 & o1 & ops6 & [Hf2 ->]%lift_Ok & H & ->).
  apply draw_bind_Ok in H as (w2 & o1 & ops7 & [Hw2 ->]%lift_Ok & H & ->).
  apply draw_bind_Ok in H as (u2 & o1 & ops8 & ->%emit_Ok & H & ->).
  apply lift_Ok in H as [H ->]. injection H as <-.
  split; [done|]. simpl. do 2 eexists. split; [reflexivity|].
  rewrite Hi1 in Hi2. injection Hi2 as <-.
  rewrite Hf1 in Hf2. injection Hf2 as <-.
  unfold math_sqrt in Hw1, Hw2.
  destruct (1 - f1 <? 0)%float eqn:Hneg1; [discriminate|].
  destruct (f1 <? 0)%float eqn:Hneg2; [discriminate|].
  injection Hw1 as <-. injection Hw2 as <-.
  by exists i1, f1.
Qed.

(** The main loop: column [k] of [xs] is blended with [intery] advanced
    [k] times. *)
Lemma draw_line_loop_Ok (steep : bool) (de : float) (xs : list Z)
    (intery final : float) (ops : list draw_op) :
  draw_for_each xs (draw_line_step steep de) intery = (ops, Ok final) →
  length ops = (2 * length xs)%nat ∧
  ∀ (k : nat) (x : Z), xs !! k = Some x →
    ∃ op1 op2, ops !! (2 * k)%nat = Some op1 ∧
               ops !! (2 * k + 1)%nat = Some op2 ∧
               interior_as_coded steep x
                 (Nat.iter k (fun y => (y + de)%float) intery) op1 op2.
Proof.
  revert intery ops. induction xs as [|x0 xs IH]; intros intery ops H.
  - apply lift_Ok in H as [_ ->]. split; [done|]. intros k x Hk.
    by rewrite lookup_nil in Hk.
  - cbn [draw_for_each] in H.
    apply draw_bind_Ok in H as (y1 & ops1 & ops2 & Hstep & Hrest & ->).
    apply draw_line_step_Ok in Hstep as (-> & op1 & op2 & -> & Hcoded).
    apply IH in Hrest as [Hlen Hall]. split.
    + simpl. rewrite Hlen. lia.
    + intros [|k] x Hk.
      * injection Hk as <-. exists op1, op2. done.
      * simpl in Hk. destruct (Hall k x Hk) as (o1 & o2 & Ho1 & Ho2 & Hc).
        exists o1, o2.
        replace (2 * S k)%nat with (S (S (2 * k))) by lia.
        replace (S (S (2 * k)) + 1)%nat with (S (S (2 * k + 1))) by lia.
        split; [done|]. split; [done|].
        by rewrite Nat.iter_succ_r.
Qed.

Lemma draw_line_end_Ok (steep : bool) (xpxl ypxl : Z) (yend : float)
    (ops : list draw_op) (u : unit) :
  draw_line_end steep xpxl ypxl yend = (ops, Ok u) → length ops = 2%nat.
Proof.
  unfold draw_line_end. intros H.
  apply draw_bind_Ok in H as (f1 & o1 & ops1 & [Hf1 ->]%lift_Ok & H & ->).
  apply draw_bind_Ok in H as (u1 & o1 & ops2 & ->%emit_Ok & H & ->).
  apply draw_bind_Ok in H as (f2 & o1 & ops3 & [Hf2 ->]%lift_Ok & H & ->).
  by apply emit_Ok in H as ->.
Qed.

Lemma xrange_lookup (lo hi : Z) (k : nat) :
  Z.of_nat k < hi - lo → xrange lo hi !! k = Some (lo + Z.of_nat k).
Proof.
  intros H. unfold xrange. rewrite list_lookup_fmap.
  rewrite lookup_seq_lt by lia. done.
Qed.

(** C5, as the code has it. Whenever [draw_line] returns normally, every
    interior column [x], strictly between the two end-point columns
    [xpxl1 = int (x0 + 0.5)] and [xpxl2 = int (x1 + 0.5)] of the rearranged
    end points, gets one pair of blends, after the four of the end points:
    rows [int (intery)] and [int (intery) + 1] (columns if steep) with
    opacities [sqrt (1 - f)] and [sqrt (f)], where [f = intery - int
    (intery)], [int] truncates towards zero, and [intery] starts at
    [yend + de] and is advanced by [de] at each column. *)
Theorem draw_line_interior_blends (y0 x0 y1 x1 : float)
    (ops : list draw_op) :
  draw_line_ops y0 x0 y1 x1 = (ops, Ok tt) →
  ∃ (xpxl1 xpxl2 : Z) (fxend : float),
    let steep := (wu_ends y0 x0 y1 x1).1 in
    let '(Y0, X0, Y1, X1) := (wu_ends y0 x0 y1 x1).2 in
    let de := wu_slope Y0 X0 Y1 X1 in
    py_int (X0 + 0.5)%float = Ok xpxl1 ∧
    py_float xpxl1 = Ok fxend ∧
    py_int (X1 + 0.5)%float = Ok xpxl2 ∧
    ∀ x : Z, xpxl1 < x < xpxl2 →
      ∃ op1 op2,
        ops !! Z.to_nat (4 + 2 * (x - xpxl1 - 1)) = Some op1 ∧
        ops !! Z.to_nat (5 + 2 * (x - xpxl1 - 1)) = Some op2 ∧
        interior_as_coded steep x
          (Nat.iter (Z.to_nat (x - xpxl1 - 1)) (fun y => (y + de)%float)
                    (Y0 + de * (fxend - X0) + de)%float)
          op1 op2.
Proof.
  unfold draw_line_ops.
  destruct (wu_ends y0 x0 y1 x1) as [steep [[[Y0 X0] Y1] X1]].
  cbn [fst snd]. intros H.
  apply draw_bind_Ok in H as (xpxl1 & o & ops1 & [Hx1 ->]%lift_Ok & H & ->).
  apply draw_bind_Ok in H as (fx1 & o & ops2 & [Hf1 ->]%lift_Ok & H & ->).
  apply draw_bind_Ok in H as (ypxl1 & o & ops3 & [Hy1 ->]%lift_Ok & H & ->).
  apply draw_bind_Ok in H as (u1 & e1 & ops4 & He1%draw_line_end_Ok & H & ->).
  apply draw_bind_Ok in H as (xpxl2 & o & ops5 & [Hx2 ->]%lift_Ok & H & ->).
  apply draw_bind_Ok in H as (fx2 & o & ops6 & [Hf2 ->]%lift_Ok & H & ->).
  apply draw_bind_Ok in H as (ypxl2 & o & ops7 & [Hy2 ->]%lift_Ok & H & ->).
  apply draw_bind_Ok in H as (u2 & e2 & ops8 & He2%draw_line_end_Ok & H & ->).
  apply draw_bind_Ok in H as (final & body & ops9 & Hloop & H & ->).
  apply lift_Ok in H as [_ ->].
  apply draw_line_loop_Ok in Hloop as [Hlen Hall].
  exists xpxl1, xpxl2, fx1. split; [done|]. split; [done|]. split; [done|].
  intros x Hx.
  destruct (Hall (Z.to_nat (x - xpxl1 - 1)) x) as (op1 & op2 & Ho1 & Ho2 & Hc).
  { rewrite xrange_lookup by lia. f_equal. lia. }
  exists op1, op2. simpl app. rewrite app_nil_r.
  split; [|split; [|done]].
  - rewrite lookup_app_r by lia. rewrite lookup_app_r by lia.
    rewrite <- Ho1. f_equal. lia.
  - rewrite lookup_app_r by lia. rewrite lookup_app_r by lia.
    rewrite <- Ho2. f_equal. lia.
Qed.

Lemma draw_line_interior_blends_witness :
  ∃ (xpxl1 xpxl2 : Z) (fxend : float),
    let steep := (wu_ends 0 0 1 4).1 in
    let '(Y0, X0, Y1, X1) := (wu_ends 0 0 1 4).2 in
    let de := wu_slope Y0 X0 Y1 X1 in
    py_int (X0 + 0.5)%float = Ok xpxl1 ∧
    py_float xpxl1 = Ok fxend ∧
    py_int (X1 + 0.5)%float = Ok xpxl2 ∧
    ∀ x : Z, xpxl1 < x < xpxl2 →
      ∃ op1 op2,
        (draw_line_ops 0 0 1 4).1 !! Z.to_nat (4 + 2 * (x - xpxl1 - 1))
          = Some op1 ∧
        (draw_line_ops 0 0 1 4).1 !! Z.to_nat (5 + 2 * (x - xpxl1 - 1))
          = Some op2 ∧
        interior_as_coded steep x
          (Nat.iter (Z.to_nat (x - xpxl1 - 1)) (fun y => (y + de)%float)
                    (Y0 + de * (fxend - X0) + de)%float)
          op1 op2.
Proof.
  apply (draw_line_interior_blends 0 0 1 4 (draw_line_ops 0 0 1 4).1).
  vm_compute. reflexivity.
Defined.

(** C5, as the design document has it, fails: on the line from (0,0) to
    (1,4) the first interior column, [x = 1], has [intery = 0.25]; its two
    blends carry the opacities [sqrt (0.75)] and [sqrt (0.25) = 0.5], not
    [0.75] and [0.25]. *)
Lemma draw_line_interior_not_linear :
  ∃ ops op1 op2,
    draw_line_ops 0 0 1 4 = (ops, Ok tt) ∧
    ops !! 4%nat = Some op1 ∧ ops !! 5%nat = Some op2 ∧
    op2 = Blend 1 1 0.5 ∧
    ¬ interior_as_claimed false 1 0.25 op1 op2.
Proof.
  eexists _, _, _. split; [vm_compute; reflexivity|].
  split; [reflexivity|]. split; [reflexivity|]. split; [reflexivity|].
  intros (i & f & Hi & Hf & _ & Hop2).
  vm_compute in Hi. injection Hi as <-.
  vm_compute in Hf. injection Hf as <-.
  vm_compute in Hop2. discriminate Hop2.
Qed.

(** ** Coordinates outside the image *)

(** [blend_pixel] leaves the image alone when the pixel is outside it. *)
Lemma blend_pixel_outside (im : image float) (y x : Z) (v : value)
    (opac : float) :
  ¬ inside im y x → blend_pixel im y x v opac = Ok im.
Proof.
  unfold inside, blend_pixel. destruct (sizes im) as [[ny nx] nc]. simpl.
  intros Hout.
  destruct (Z.leb_spec 0 y), (Z.ltb_spec y ny), (Z.leb_spec 0 x),
    (Z.ltb_spec x nx); simpl; try done. lia.
Qed.

(** [draw_line_fast] returns normally for any end points, inside the image
    or not, and changes the image at the pixels it assigns only. *)
Lemma draw_line_fast_total {A : Type} (im : image A) (y0 x0 y1 x1 : Z)
    (v : A) :
  wf_image im →
  ∃ im' written,
    draw_line_fast_trace im y0 x0 y1 x1 v = Ok (im', written) ∧
    wf_image im' ∧ sizes im' = sizes im ∧ drawn v im im' written.
Proof.
  intros Hwf. unfold draw_line_fast_trace.
  destruct (sizes im) as [[ny nx] nc] eqn:Hs.
  destruct (line_ends y0 x0 y1 x1) as [steep [[[Y0 X0] Y1] X1]].
  destruct (draw_line_fast_run ny nx nc steep
              (slope (inject_Z (X1 - X0)) (Z.abs (Y1 - Y0)))
              (if Y0 <? Y1 then 1 else -1) v im
              (xrange X0 (X1 + 1)) Y0 0%Q im [])
    as (im' & written & -> & [Hwf' Hs'] & Hdrawn & _);
    [done | apply drawn_nil |].
  cbn [bind]. exists im', written. by rewrite Hs'.
Qed.

(** C1, where the code departs from it. The circle routines assign
    [im[yc+y, xc+x]] and the seven other symmetric pixels without any test
    of the coordinates. On a 3x3 image a circle of radius 2 about the
    centre makes [draw_circle_fast] and [draw_circle] raise [IndexError]
    at their first assignment; on a 5x5 image a circle of radius 2 about
    (1,1) has [draw_circle_fast] assign row -1, which numpy counts from the
    end, so that pixel (4,1) receives the value. [draw_line] raises
    [ValueError] on a line above the image, from [math.sqrt] of a negative
    number. *)
Theorem circle_outside_not_skipped :
  draw_circle_fast (full 3 3 1 0) 1 1 2 9 = Raise IndexError ∧
  draw_circle (full 3 3 1 0%float) 1 1 2 (Scalar 9) = Raise IndexError ∧
  (∃ im', draw_circle_fast (full 5 5 1 0) 1 1 2 9 = Ok im' ∧
          pixel im' 4 1 = [9]) ∧
  draw_line (full 3 6 1 0%float) (-1.5) 0 (-1.5) 4 (Scalar 255)
    = Raise ValueError.
Proof.
  split; [vm_compute; reflexivity|].
  split; [vm_compute; reflexivity|].
  split; [|vm_compute; reflexivity].
  eexists. split; [vm_compute; reflexivity|]. reflexivity.
Qed.

(** ** The fuel of the circle loops is enough *)

Lemma bind_no_timeout {A B : Type} (m : result A) (k : A → result B) :
  m ≠ Timeout → (∀ a, k a ≠ Timeout) → bind m k ≠ Timeout.
Proof. destruct m; simpl; auto; discriminate. Qed.

Lemma for_each_no_timeout {A S : Type} (xs : list A)
    (body : A → S → result S) (s : S) :
  (∀ x s, body x s ≠ Timeout) → for_each xs body s ≠ Timeout.
Proof.
  intros Hbody. revert s. induction xs as [|x xs IH]; intros s; simpl;
    [discriminate|].
  by apply bind_no_timeout.
Qed.

Lemma np_index_no_timeout (n i : Z) : np_index n i ≠ Timeout.
Proof.
  unfold np_index.
  destruct ((0 <=? i) && (i <? n)); [discriminate|].
  destruct ((- n <=? i) && (i <? 0)); discriminate.
Qed.

Lemma of_option_no_timeout {A : Type} (o : option A) : of_option o ≠ Timeout.
Proof. destruct o; discriminate. Qed.

Lemma update_pixel_no_timeout {A : Type} (im : image A) (y x : Z)
    (f : list A → list A) :
  update_pixel im y x f ≠ Timeout.
Proof.
  unfold update_pixel. destruct (sizes im) as [[ny nx] nc].
  repeat (apply bind_no_timeout;
          [apply np_index_no_timeout || apply of_option_no_timeout | intros ?]).
  discriminate.
Qed.

Lemma plot_points_no_timeout {A : Type} (im : image A)
    (points : list (Z * Z)) (v : A) :
  plot_points im points v ≠ Timeout.
Proof.
  apply for_each_no_timeout. intros yx im'. apply update_pixel_no_timeout.
Qed.

(** [draw_circle_fast] never runs out of fuel: it returns or raises. *)
Lemma draw_circle_fast_no_timeout {A : Type} (im : image A) (yc xc r : Z)
    (v : A) :
  draw_circle_fast im yc xc r v ≠ Timeout.
Proof.
  unfold draw_circle_fast.
  assert (Hloop : ∀ (fuel : nat) im x y p, y - x <= Z.of_nat fuel →
            draw_circle_fast_loop fuel im yc xc v x y p ≠ Timeout).
  { induction fuel as [|fuel IH]; intros im1 x y p Hfuel; simpl;
      destruct (Z.ltb_spec x y); try discriminate; try lia.
    apply bind_no_timeout; [apply plot_points_no_timeout|].
    intros im2. destruct (p <? 0); apply IH; lia. }
  apply bind_no_timeout; [apply Hloop; lia|].
  intros [[im1 x] y]. destruct (x =? y); [|discriminate].
  apply plot_points_no_timeout.
Qed.

Lemma draw_bind_no_timeout {A B : Type} (m : drawing A) (k : A → drawing B) :
  m.2 ≠ Timeout → (∀ a, (k a).2 ≠ Timeout) → (draw_bind m k).2 ≠ Timeout.
Proof.
  destruct m as [ops [a|e|]]; unfold draw_bind; simpl; auto; discriminate.
Qed.

Lemma py_int_no_timeout (f : float) : py_int f ≠ Timeout.
Proof. unfold py_int. destruct (Prim2SF f); discriminate. Qed.

Lemma py_float_no_timeout (z : Z) : py_float z ≠ Timeout.
Proof. unfold py_float. destruct (is_infinity _); discriminate. Qed.

Lemma math_sqrt_no_timeout (f : float) : math_sqrt f ≠ Timeout.
Proof. unfold math_sqrt. destruct (f <? 0)%float; discriminate. Qed.

(** Nor does [draw_circle]. *)
Lemma draw_circle_ops_no_timeout (yc xc r : Z) :
  (draw_circle_ops yc xc r).2 ≠ Timeout.
Proof.
  unfold draw_circle_ops.
  assert (Hloop : ∀ (fuel : nat) x y t, x - y <= Z.of_nat fuel →
            (draw_circle_loop fuel yc xc r x y t).2 ≠ Timeout).
  { induction fuel as [|fuel IH]; intros x y t Hfuel; simpl;
      destruct (Z.ltb_spec y x); try discriminate; try lia.
    apply draw_bind_no_timeout; [apply py_float_no_timeout|]. intros n.
    apply draw_bind_no_timeout; [apply math_sqrt_no_timeout|]. intros d.
    apply draw_bind_no_timeout; [apply py_int_no_timeout|]. intros i.
    apply draw_bind_no_timeout; [apply py_float_no_timeout|]. intros fi.
    apply draw_bind_no_timeout; [discriminate|]. intros _.
    apply IH. destruct (fi - d <? t)%float; lia. }
  apply Hloop. lia.
Qed.

(** ** [extract] *)

(** C6, where the code departs from it. A 1x1 region centred at
    (1.25, 1.25), at angle 0 and step 1, has its one sample position at
    [1.25 - 0.5 = 0.75] in both directions; the closest pixel is (1,1),
    whose sample is 11. In mode "nearest" the call returns the sample 0 of
    the pixel (0,0): the position has already been truncated to the
    integers [ylo] and [xlo] when [int (ylo+0.5)] and [int (xlo+0.5)] are
    taken, and these leave an integer as it is. *)
Theorem extract_nearest_truncates :
  extract 1 (-0) numbered 1 1 1.25 1.25 1 1 0 false 0 "nearest"
    = Ok ([], [[[0%float]]]) ∧
  (1.25 + 1 / 2 * 1 * (-0) - 1 / 2 * 1 * 1 = 0.75)%float ∧
  getitem2 numbered 0 0 = Ok [0%float] ∧
  getitem2 numbered 1 1 = Ok [11%float].
Proof. repeat split; vm_compute; reflexivity. Qed.

(** ** [label_regions_slow]: lists and labels *)

Lemma list_get_in_range (l : list Z) (i : Z) :
  0 <= i < Z.of_nat (length l) →
  ∃ e, l !! Z.to_nat i = Some e ∧ list_get l i = Ok e.
Proof.
  intros Hi. destruct (lookup_lt_is_Some_2 l (Z.to_nat i)) as [e He]; [lia|].
  exists e. split; [done|]. unfold list_get.
  rewrite np_index_in_range by done. simpl. by rewrite He.
Qed.

Lemma list_get_lookup (l : list Z) (i e : Z) :
  0 <= i → l !! Z.to_nat i = Some e → list_get l i = Ok e.
Proof.
  intros Hi He. pose proof (lookup_lt_Some _ _ _ He).
  destruct (list_get_in_range l i) as (e' & He' & ->); [lia|]. congruence.
Qed.

Lemma list_set_in_range (l : list Z) (i v : Z) :
  0 <= i < Z.of_nat (length l) →
  list_set l i v = Ok (<[Z.to_nat i := v]> l).
Proof.
  intros Hi. unfold list_set. by rewrite np_index_in_range by done.
Qed.

Lemma sample_pixel {A : Type} (d : A) (im : image A) (y x c : Z) :
  0 <= c → sample d im y x c = default d (pixel im y x !! Z.to_nat c).
Proof.
  intros Hc. unfold sample, pixel.
  destruct (Z.leb_spec 0 y), (Z.leb_spec 0 x), (Z.leb_spec 0 c); simpl;
    try done; try lia.
  destruct (im !! Z.to_nat y) as [row|]; simpl; [|done].
  by destruct (row !! Z.to_nat x).
Qed.

(** Inside the image, a write to one sample succeeds, keeps the shape and
    changes that sample only. *)
Lemma setitem3_in_range {A : Type} (d : A) (ny nx nc : Z) (im : image A)
    (y x c : Z) (v : A) :
  shaped ny nx nc im → 0 <= y < ny → 0 <= x < nx → 0 <= c < nc →
  ∃ im', setitem3 im y x c v = Ok im' ∧ shaped ny nx nc im' ∧
         ∀ t s k, 0 <= k →
           sample d im' t s k =
           if decide (t = y ∧ s = x ∧ k = c) then v else sample d im t s k.
Proof.
  intros [Hwf Hs] Hy Hx Hc. unfold setitem3. rewrite Hs.
  rewrite np_index_in_range by done. simpl.
  destruct (update_pixel_in_range im y x (fun p => <[Z.to_nat c := v]> p) Hwf)
    as (im' & -> & Hwf' & Hs' & Hpx); try (rewrite Hs; simpl; lia).
  { intros p. by rewrite length_insert. }
  exists im'. split; [done|]. split; [split; [done|congruence]|].
  intros t s k Hk. rewrite !sample_pixel by done. rewrite Hpx.
  destruct (decide (t = y ∧ s = x)) as [[-> ->]|Hne].
  - destruct (wf_image_pixel im y x Hwf) as (row & p & Hrow & Hp & _ & Hpl);
      try (rewrite Hs; simpl; lia).
    rewrite (pixel_lookup im y x row p) by (done || lia).
    rewrite Hs in Hpl. simpl in Hpl.
    destruct (decide (k = c)) as [->|Hkc].
    + rewrite decide_True by done.
      rewrite list_lookup_insert_eq by lia. done.
    + rewrite decide_False by tauto.
      rewrite list_lookup_insert_ne by lia. done.
  - rewrite decide_False by tauto. done.
Qed.

Lemma getitem3_shaped {A : Type} (d : A) (ny nx nc : Z) (im : image A)
    (y x c : Z) :
  shaped ny nx nc im → 0 <= y < ny → 0 <= x < nx → 0 <= c < nc →
  getitem3 im y x c = Ok (sample d im y x c).
Proof.
  intros [Hwf Hs] Hy Hx Hc.
  apply getitem3_in_range; auto; rewrite Hs; simpl; lia.
Qed.

(** ** The equivalence table *)

(** Under [table_ok] a chain descends, so it ends at a root within as many
    steps as the label it starts from. *)
Lemma chase_ends (equiv : list Z) (fuel : nat) (l : Z) :
  table_ok equiv → 0 <= l < Z.of_nat (length equiv) → l <= Z.of_nat fuel →
  ∃ r, chase fuel equiv l = Ok r ∧ is_root equiv r ∧ r <= l.
Proof.
  intros Htable. revert l. induction fuel as [|fuel IH]; intros l Hl Hfuel.
  - assert (l = 0) as -> by lia.
    destruct (list_get_in_range equiv 0 Hl) as (e & He & Hget).
    pose proof (Htable _ _ He) as Hle. assert (e = 0) as -> by lia.
    exists 0. simpl. rewrite Hget. simpl. done.
  - destruct (list_get_in_range equiv l Hl) as (e & He & Hget).
    pose proof (Htable _ _ He) as Hle.
    cbn [chase]. rewrite Hget. simpl bind.
    destruct (Z.eqb_spec e l) as [->|Hne].
    + exists l. split; [done|]. split; [|lia]. split; [lia|done].
    + destruct (IH e) as (r & Hr & Hroot & Hrl); [lia|lia|].
      exists r. split; [done|]. split; [done|lia].
Qed.

Lemma chase_root (equiv : list Z) (fuel : nat) (r : Z) :
  is_root equiv r → chase fuel equiv r = Ok r.
Proof.
  intros [Hr He]. destruct fuel; simpl;
    rewrite (list_get_lookup equiv r r Hr He); simpl;
    by rewrite Z.eqb_refl.
Qed.


Lemma table_ok_insert (equiv : list Z) (i : nat) (e : Z) :
  table_ok equiv → 0 <= e <= Z.of_nat i → table_ok (<[i := e]> equiv).
Proof.
  intros Htable He j e' Hj.
  destruct (decide (i = j)) as [->|Hne].
  - destruct (decide (j < length equiv)%nat).
    + rewrite list_lookup_insert_eq in Hj by done. injection Hj as <-. done.
    + rewrite list_insert_ge in Hj by lia. by apply Htable.
  - rewrite list_lookup_insert_ne in Hj by done. by apply Htable.
Qed.

Lemma table_ok_append (equiv : list Z) :
  table_ok equiv → table_ok (equiv ++ [Z.of_nat (length equiv)]).
Proof.
  intros Htable j e Hj. apply lookup_app_Some in Hj as [Hj | [Hlen Hj]].
  - by apply Htable.
  - apply list_lookup_singleton_Some in Hj as [Hj <-]. lia.
Qed.

(** One merge keeps the table in order. *)
Lemma merge_step_ok (equiv : list Z) (lv v : Z) :
  table_ok equiv → 0 <= lv <= v → v < Z.of_nat (length equiv) →
  ∃ equiv', merge_step lv v equiv = Ok equiv' ∧ table_ok equiv' ∧
            length equiv' = length equiv.
Proof.
  intros Htable Hlv Hv. unfold merge_step.
  destruct (list_get_in_range equiv v) as (ev & Hev & ->); [lia|].
  pose proof (Htable _ _ Hev) as Hle. simpl bind.
  destruct (Z.ltb_spec lv ev).
  - rewrite list_set_in_range by lia. eexists. split; [done|].
    split; [|by rewrite length_insert]. apply table_ok_insert; [done|lia].
  - destruct (Z.ltb_spec ev lv).
    + rewrite list_set_in_range by lia. eexists. split; [done|].
      split; [|by rewrite length_insert]. apply table_ok_insert; [done|lia].
    + by exists equiv.
Qed.

Lemma merge_all_ok (vs : list Z) (equiv : list Z) (lv : Z) :
  table_ok equiv → 0 <= lv →
  (∀ v, v ∈ vs → lv <= v < Z.of_nat (length equiv)) →
  ∃ equiv', for_each vs (merge_step lv) equiv = Ok equiv' ∧
            table_ok equiv' ∧ length equiv' = length equiv.
Proof.
  intros Htable Hlv. revert equiv Htable.
  induction vs as [|v vs IH]; intros equiv Htable Hvs.
  - by exists equiv.
  - destruct (merge_step_ok equiv lv v Htable) as (e1 & Heq1 & Ht1 & Hl1).
    { pose proof (Hvs v ltac:(by left)). lia. }
    { pose proof (Hvs v ltac:(by left)). lia. }
    destruct (IH e1 Ht1) as (e2 & Heq2 & Ht2 & Hl2).
    { intros w Hw. rewrite Hl1. apply Hvs. by right. }
    exists e2. cbn [for_each]. rewrite Heq1. simpl bind.
    split; [done|]. split; [done|congruence].
Qed.

Lemma insert_sorted_perm (a : Z) (l : list Z) : insert_sorted a l ≡ₚ a :: l.
Proof.
  induction l as [|b l IH]; simpl; [done|].
  destruct (a <=? b); [done|]. rewrite IH. apply Permutation_swap.
Qed.

Lemma sort_ints_perm (l : list Z) : sort_ints l ≡ₚ l.
Proof.
  induction l as [|a l IH]; simpl; [done|].
  rewrite insert_sorted_perm. by rewrite IH.
Qed.

Lemma insert_sorted_head (a : Z) (l : list Z) :
  (∀ b rest, l = b :: rest → ∀ c, c ∈ rest → b <= c) →
  ∀ b rest, insert_sorted a l = b :: rest → ∀ c, c ∈ rest → b <= c.
Proof.
  intros Hl b rest Heq c Hc. destruct l as [|b0 l]; simpl in Heq.
  - injection Heq as <- <-. by apply elem_of_nil in Hc.
  - destruct (Z.leb_spec a b0).
    + injection Heq as <- <-.
      apply elem_of_cons in Hc as [->|Hc]; [done|].
      pose proof (Hl b0 l eq_refl c Hc). lia.
    + injection Heq as <- <-.
      assert (Hc' : c ∈ a :: l) by (by rewrite <- insert_sorted_perm).
      apply elem_of_cons in Hc' as [->|Hc']; [lia|].
      by apply (Hl b0 l eq_refl).
Qed.

(** The first of the sorted labels is the least of them. *)
Lemma sort_ints_head (l : list Z) (b : Z) (rest : list Z) :
  sort_ints l = b :: rest → ∀ c, c ∈ rest → b <= c.
Proof.
  revert b rest. induction l as [|a l IH]; intros b rest Heq; [done|].
  simpl in Heq. eapply insert_sorted_head; [|exact Heq]. exact IH.
Qed.

(** ** The raster pass *)

Section RasterPass.

Variables (ny nx nc : Z) (im : image Z) (con8 : bool).
Hypothesis rows_pos : 1 <= ny.
Hypothesis columns_pos : 1 <= nx.
Hypothesis channels_pos : 1 <= nc.
Hypothesis im_shaped : shaped ny nx nc im.

(** Writing the label of a pixel that is not due any more re-establishes
    the invariant, when every other label in use is carried elsewhere. *)
Lemma set_label_inv (rest : list raster_pos) (st : label_state)
    (y x lv : Z) :
  shaped ny nx nc (lab st) →
  Z.of_nat (length (equiv st)) = lastlabel st + 1 →
  table_ok (equiv st) →
  (∀ t s, 0 <= t < ny → 0 <= s < nx →
          0 <= sample 0 (lab st) t s 0 <= lastlabel st) →
  (∀ t s c, 1 <= c → sample 0 (lab st) t s c = 0) →
  0 <= lv <= lastlabel st →
  0 <= y < ny → 0 <= x < nx → (y, x) ∉ (coords <$> rest) →
  (∀ l, 0 <= l <= lastlabel st →
        l = lv ∨ ∃ t s, 0 <= t < ny ∧ 0 <= s < nx ∧
                        ((t, s) ∉ (coords <$> rest)) ∧ (t, s) ≠ (y, x) ∧
                        sample 0 (lab st) t s 0 = l) →
  ∃ st', set_label st y x lv = Ok st' ∧ raster_inv ny nx nc rest st' ∧
         equiv st' = equiv st ∧ lastlabel st' = lastlabel st.
Proof.
  intros Hsh Hlen Htable Hlabels Hchan Hlv Hy Hx Hfresh Hused.
  unfold set_label.
  destruct (setitem3_in_range 0 ny nx nc (lab st) y x 0 lv Hsh Hy Hx)
    as (lab' & -> & Hsh' & Hsample); [lia|].
  simpl bind. eexists. split; [reflexivity|]. split; [|done].
  constructor; simpl; auto.
  - intros t s Ht Hs. rewrite Hsample by lia.
    case_decide; [lia|]. by apply Hlabels.
  - intros l Hl. destruct (Hused l Hl) as [-> | (t & s & Ht & Hs & Hts & Hne & Hl')].
    + exists y, x. rewrite Hsample by lia. rewrite decide_True by done. done.
    + exists t, s. rewrite Hsample by lia.
      rewrite decide_False; [done|]. intros (-> & -> & _). done.
  - intros t s c Hc. rewrite Hsample by lia.
    rewrite decide_False by lia. by apply Hchan.
Qed.

(** The labels in use when a new one is taken. *)
Lemma new_label_used (pos : raster_pos) (rest : list raster_pos)
    (st : label_state) (l : Z) :
  raster_inv ny nx nc (pos :: rest) st →
  0 <= l <= lastlabel st + 1 →
  l = lastlabel st + 1 ∨
  ∃ t s, 0 <= t < ny ∧ 0 <= s < nx ∧ ((t, s) ∉ (coords <$> rest)) ∧
         (t, s) ≠ coords pos ∧ sample 0 (lab st) t s 0 = l.
Proof.
  intros Hinv Hl. destruct (decide (l = lastlabel st + 1)) as [->|Hne];
    [by left|right].
  destruct (inv_used _ _ _ _ _ Hinv l) as (t & s & Ht & Hs & Hts & Hl');
    [lia|].
  exists t, s. rewrite fmap_cons, not_elem_of_cons in Hts. tauto.
Qed.

Lemma lastlabel_nonneg (rest : list raster_pos) (st : label_state) :
  raster_inv ny nx nc rest st → 0 <= lastlabel st.
Proof.
  intros Hinv. pose proof (inv_labels _ _ _ _ _ Hinv 0 0). lia.
Qed.

(** Taking a new label and giving it to the pixel [pos]. *)
Lemma new_label_inv (pos : raster_pos) (rest : list raster_pos)
    (st : label_state) :
  raster_inv ny nx nc (pos :: rest) st →
  0 <= (coords pos).1 < ny → 0 <= (coords pos).2 < nx →
  coords pos ∉ (coords <$> rest) →
  ∃ st', set_label (new_label st) (coords pos).1 (coords pos).2
                   (lastlabel st + 1) = Ok st' ∧
         raster_inv ny nx nc rest st'.
Proof.
  intros Hinv Hy Hx Hfresh.
  pose proof (lastlabel_nonneg _ _ Hinv) as Hlast.
  destruct (set_label_inv rest (new_label st) (coords pos).1 (coords pos).2
              (lastlabel st + 1)) as (st' & Heq & Hinv' & _); simpl.
  - apply (inv_shaped _ _ _ _ _ Hinv).
  - rewrite length_app. simpl. pose proof (inv_length _ _ _ _ _ Hinv). lia.
  - replace (lastlabel st + 1) with (Z.of_nat (length (equiv st)))
      by apply (inv_length _ _ _ _ _ Hinv).
    apply table_ok_append, (inv_table _ _ _ _ _ Hinv).
  - intros t s Ht Hs. pose proof (inv_labels _ _ _ _ _ Hinv t s Ht Hs). lia.
  - apply (inv_channels _ _ _ _ _ Hinv).
  - lia.
  - done.
  - done.
  - by rewrite <- surjective_pairing.
  - intros l Hl. rewrite <- surjective_pairing.
    by apply (new_label_used pos rest st l).
  - by exists st'.
Qed.

(** Giving the pixel [pos] a label that is already in use, perhaps after
    merges in the table. *)
Lemma old_label_inv (pos : raster_pos) (rest : list raster_pos)
    (st : label_state) (equiv' : list Z) (lv : Z) :
  raster_inv ny nx nc (pos :: rest) st →
  table_ok equiv' → length equiv' = length (equiv st) →
  0 <= lv <= lastlabel st →
  0 <= (coords pos).1 < ny → 0 <= (coords pos).2 < nx →
  coords pos ∉ (coords <$> rest) →
  ∃ st', set_label {| lab := lab st; equiv := equiv';
                      lastlabel := lastlabel st |}
                   (coords pos).1 (coords pos).2 lv = Ok st' ∧
         raster_inv ny nx nc rest st'.
Proof.
  intros Hinv Htable Hlen Hlv Hy Hx Hfresh.
  destruct (set_label_inv rest
              {| lab := lab st; equiv := equiv'; lastlabel := lastlabel st |}
              (coords pos).1 (coords pos).2 lv) as (st' & Heq & Hinv' & _);
    simpl.
  - apply (inv_shaped _ _ _ _ _ Hinv).
  - rewrite Hlen. apply (inv_length _ _ _ _ _ Hinv).
  - done.
  - apply (inv_labels _ _ _ _ _ Hinv).
  - apply (inv_channels _ _ _ _ _ Hinv).
  - done.
  - done.
  - done.
  - by rewrite <- surjective_pairing.
  - intros l Hl. right. rewrite <- surjective_pairing.
    destruct (inv_used _ _ _ _ _ Hinv l Hl) as (t & s & Ht & Hs & Hts & Hl').
    exists t, s. rewrite fmap_cons, not_elem_of_cons in Hts. tauto.
  - by exists st'.
Qed.

Lemma first_row_step_inv (x : Z) (rest : list raster_pos)
    (st : label_state) :
  raster_inv ny nx nc (FirstRow x :: rest) st →
  1 <= x < nx → (0, x) ∉ (coords <$> rest) →
  ∃ st', first_row_step im x st = Ok st' ∧ raster_inv ny nx nc rest st'.
Proof.
  intros Hinv Hx Hfresh. unfold first_row_step.
  rewrite !(getitem3_shaped 0 ny nx nc im) by (done || lia). simpl bind.
  pose proof (lastlabel_nonneg _ _ Hinv) as Hlast.
  destruct (sample 0 im 0 x 0 =? sample 0 im 0 (x - 1) 0); simpl negb; cbv iota.
  - destruct st as [lab0 equiv0 last0].
    apply (old_label_inv (FirstRow x) rest _ equiv0 last0 Hinv); simpl;
      try done; try lia.
    apply (inv_table _ _ _ _ _ Hinv).
  - apply (new_label_inv (FirstRow x) rest st Hinv); simpl; try done; lia.
Qed.

Lemma first_column_step_inv (y : Z) (rest : list raster_pos)
    (st : label_state) :
  raster_inv ny nx nc (FirstColumn y :: rest) st →
  1 <= y < ny → (y, 0) ∉ (coords <$> rest) →
  ∃ st', first_column_step im y st = Ok st' ∧ raster_inv ny nx nc rest st'.
Proof.
  intros Hinv Hy Hfresh. unfold first_column_step.
  rewrite !(getitem3_shaped 0 ny nx nc im) by (done || lia). simpl bind.
  destruct (sample 0 im y 0 0 =? sample 0 im (y - 1) 0 0).
  - rewrite (getitem3_shaped 0 ny nx nc (lab st))
      by (apply (inv_shaped _ _ _ _ _ Hinv) || lia).
    simpl bind.
    pose proof (inv_labels _ _ _ _ _ Hinv (y - 1) 0) as Hlv.
    destruct st as [lab0 equiv0 last0].
    apply (old_label_inv (FirstColumn y) rest _ equiv0 _ Hinv); simpl;
      try done; try lia.
    + apply (inv_table _ _ _ _ _ Hinv).
    + simpl in Hlv. apply Hlv; lia.
  - apply (new_label_inv (FirstColumn y) rest st Hinv); simpl; try done; lia.
Qed.

(** A neighbour inside the image carries a label in use. *)
Lemma neighbour_inv (rest : list raster_pos) (st : label_state) (t s : Z) :
  raster_inv ny nx nc rest st → 0 <= t < ny → 0 <= s < nx →
  ∃ n, neighbour im st t s = Ok n ∧ 0 <= n.2 <= lastlabel st.
Proof.
  intros Hinv Ht Hs. unfold neighbour.
  rewrite (getitem3_shaped 0 ny nx nc im) by (done || lia). simpl bind.
  rewrite (getitem3_shaped 0 ny nx nc (lab st))
    by (apply (inv_shaped _ _ _ _ _ Hinv) || lia).
  simpl bind. eexists. split; [reflexivity|]. simpl.
  by apply (inv_labels _ _ _ _ _ Hinv).
Qed.

Lemma interior_step_inv (y x : Z) (rest : list raster_pos)
    (st : label_state) :
  raster_inv ny nx nc (Interior y x :: rest) st →
  1 <= y < ny → 1 <= x < nx → (y, x) ∉ (coords <$> rest) →
  ∃ st', interior_step im con8 nx y x st = Ok st' ∧
         raster_inv ny nx nc rest st'.
Proof.
  intros Hinv Hy Hx Hfresh. unfold interior_step.
  rewrite (getitem3_shaped 0 ny nx nc im) by (done || lia). simpl bind.
  destruct (neighbour_inv _ st y (x - 1) Hinv) as (n0 & -> & Hn0); [lia|lia|].
  destruct (neighbour_inv _ st (y - 1) x Hinv) as (n1 & -> & Hn1); [lia|lia|].
  simpl bind.
  assert (Hns : ∃ ns,
    (if con8 then
       let* n2 := neighbour im st (y - 1) (x - 1) in
       if negb ((nx - 1 <=? x + 1) && con8) then
         let* n3 := neighbour im st (y - 1) (x + 1) in Ok [n0; n1; n2; n3]
       else Ok [n0; n1; n2]
     else Ok [n0; n1]) = Ok ns ∧
    Forall (fun n => 0 <= n.2 <= lastlabel st) ns).
  { destruct con8.
    - destruct (neighbour_inv _ st (y - 1) (x - 1) Hinv) as (n2 & -> & Hn2);
        [lia|lia|]. simpl bind.
      destruct (Z.leb_spec (nx - 1) (x + 1)); simpl.
      + eexists. split; [reflexivity|]. repeat constructor; lia.
      + destruct (neighbour_inv _ st (y - 1) (x + 1) Hinv)
          as (n3 & -> & Hn3); [lia|lia|]. simpl bind.
        eexists. split; [reflexivity|]. repeat constructor; lia.
    - eexists. split; [reflexivity|]. repeat constructor; lia. }
  destruct Hns as (ns & -> & Hall). simpl bind.
  set (matches := (filter (fun n => n.1 = sample 0 im y x 0) ns).*2).
  assert (Hmatches : ∀ l, l ∈ matches → 0 <= l <= lastlabel st).
  { intros l Hl. unfold matches in Hl.
    apply list_elem_of_fmap in Hl as (n & -> & Hn).
    apply list_elem_of_filter in Hn as [_ Hn].
    rewrite Forall_forall in Hall. by apply Hall. }
  destruct (sort_ints matches) as [|lv others] eqn:Hsort.
  - apply (new_label_inv (Interior y x) rest st Hinv); simpl; try done; lia.
  - assert (Hlv : 0 <= lv <= lastlabel st).
    { apply Hmatches. rewrite <- sort_ints_perm, Hsort. by left. }
    destruct (merge_all_ok others (equiv st) lv) as (equiv' & -> & Ht & Hl).
    + apply (inv_table _ _ _ _ _ Hinv).
    + lia.
    + intros v Hv. split; [by eapply sort_ints_head|].
      assert (0 <= v <= lastlabel st).
      { apply Hmatches. rewrite <- sort_ints_perm, Hsort. by right. }
      pose proof (inv_length _ _ _ _ _ Hinv). lia.
    + simpl bind.
      apply (old_label_inv (Interior y x) rest st equiv' lv Hinv); simpl;
        try done; lia.
Qed.

(** Every step of the pass keeps the invariant. *)
Lemma raster_step_inv (pos : raster_pos) (rest : list raster_pos)
    (st : label_state) :
  raster_inv ny nx nc (pos :: rest) st →
  valid_pos ny nx pos → coords pos ∉ (coords <$> rest) →
  ∃ st', raster_step im con8 nx pos st = Ok st' ∧
         raster_inv ny nx nc rest st'.
Proof.
  intros Hinv Hvalid Hfresh. destruct pos as [x | y | y x]; simpl in *.
  - by apply first_row_step_inv.
  - by apply first_column_step_inv.
  - destruct Hvalid. by apply interior_step_inv.
Qed.

(** So does the pass over any list of distinct pixels. *)
Lemma raster_pass_inv (order : list raster_pos) (st : label_state) :
  Forall (valid_pos ny nx) order → NoDup (coords <$> order) →
  raster_inv ny nx nc order st →
  ∃ st', for_each order (raster_step im con8 nx) st = Ok st' ∧
         raster_inv ny nx nc [] st'.
Proof.
  intros Hvalid. revert st.
  induction Hvalid as [|pos order Hpos Hvalid IH]; intros st Hnd Hinv.
  - by exists st.
  - rewrite fmap_cons in Hnd. apply NoDup_cons in Hnd as [Hfresh Hnd].
    destruct (raster_step_inv pos order st Hinv Hpos Hfresh)
      as (st1 & Heq1 & Hinv1).
    destruct (IH st1 Hnd Hinv1) as (st2 & Heq2 & Hinv2).
    exists st2. cbn [for_each]. rewrite Heq1. simpl bind. done.
Qed.

End RasterPass.

(** ** Tidying the table *)

Lemma dense_upto_all (equiv remap : list Z) (count : Z) :
  dense_upto equiv remap count (length equiv) → dense_remap equiv remap count.
Proof. intros (Hlen & _ & H1 & H2 & H3). done. Qed.

Lemma tidy_step_dense (equiv remap : list Z) (count : Z) (i : nat) :
  table_ok equiv → (i < length equiv)%nat →
  dense_upto equiv remap count i →
  ∃ remap' count',
    tidy_step equiv (Z.of_nat i) (remap, count) = Ok (remap', count') ∧
    dense_upto equiv remap' count' (S i).
Proof.
  intros Htable Hi (Hlen & Hcount & Hall & Hsurj & Hmono).
  unfold tidy_step.
  destruct (list_get_in_range equiv (Z.of_nat i)) as (ei & Hei & ->); [lia|].
  rewrite Nat2Z.id in Hei. simpl bind.
  assert (Hold : ∀ j v, (j < i)%nat → ∀ new : Z,
            (remap ++ [new]) !! j = Some v ↔ remap !! j = Some v).
  { intros j v Hj new. by rewrite lookup_app_l by lia. }
  assert (Hnew : ∀ new : Z, (remap ++ [new]) !! i = Some new).
  { intros new. rewrite lookup_app_r by lia.
    by replace (i - length remap)%nat with O by lia. }
  assert (Hroot_val : ∀ r v, is_root equiv r → r < Z.of_nat i →
            remap !! Z.to_nat r = Some v → 0 <= v <= count).
  { intros r v Hr Hri Hv. destruct (Hall r) as (r' & v' & Hc & Hv1 & Hv2 & Hb);
      [destruct Hr; lia|]. congruence. }
  destruct (Z.eqb_spec ei (Z.of_nat i)) as [->|Hne].
  - (* a root: the next dense label *)
    assert (Hroot : is_root equiv (Z.of_nat i)).
    { split; [lia|]. by rewrite Nat2Z.id. }
    exists (remap ++ [count + 1]), (count + 1). split; [done|].
    split; [rewrite length_app; simpl; lia|]. split; [lia|].
    split; [|split].
    + intros l Hl. destruct (decide (l = Z.of_nat i)) as [->|Hli].
      * exists (Z.of_nat i), (count + 1).
        rewrite chase_root by done. rewrite Nat2Z.id, Hnew.
        repeat split; auto; lia.
      * destruct (Hall l) as (r & v & Hc & Hv1 & Hv2 & Hb); [lia|].
        exists r, v. split; [done|].
        destruct (chase_ends equiv (length equiv) l Htable)
          as (r' & Hc' & [Hr0 _] & Hrl); [lia|lia|].
        assert (r' = r) as -> by congruence.
        rewrite !Hold by lia. repeat split; auto; lia.
    + intros v Hv. destruct (decide (v = count + 1)) as [->|Hvc].
      * exists (Z.of_nat i). split; [done|]. by rewrite Nat2Z.id.
      * destruct (Hsurj v) as (r & Hr & Hrv); [lia|].
        exists r. split; [done|].
        pose proof (lookup_lt_Some _ _ _ Hrv). rewrite Hold by lia. done.
    + intros r1 r2 v1 v2 Hr1 Hr2 Hlt Hv1 Hv2.
      pose proof (lookup_lt_Some _ _ _ Hv2) as Hb2.
      rewrite length_app in Hb2. simpl in Hb2.
      destruct Hr1 as [Hr10 Hr1], Hr2 as [Hr20 Hr2].
      destruct (decide (r2 = Z.of_nat i)) as [->|Hr2i].
      * rewrite Nat2Z.id, Hnew in Hv2. injection Hv2 as <-.
        rewrite Hold in Hv1 by lia.
        assert (0 <= v1 <= count); [|lia].
        apply (Hroot_val r1 v1); [done|lia|done].
      * rewrite Hold in Hv1, Hv2 by lia.
        by apply (Hmono r1 r2 v1 v2).
  - (* not a root: the dense label of the root of its chain *)
    destruct (chase_ends equiv (length equiv) (Z.of_nat i) Htable)
      as (r & Hchase & Hr & Hri); [lia|lia|].
    rewrite Hchase. simpl bind.
    assert (Hr_lt : r < Z.of_nat i).
    { destruct Hr as [Hr0 Hr]. destruct (decide (r = Z.of_nat i)) as [->|];
        [|lia]. rewrite Nat2Z.id in Hr. congruence. }
    destruct (Hall r) as (r' & v & Hc & Hv1 & Hv2 & Hb); [destruct Hr; lia|].
    rewrite chase_root in Hc by done. injection Hc as <-.
    rewrite (list_get_lookup remap r v) by (destruct Hr; done). simpl bind.
    exists (remap ++ [v]), count. split; [done|].
    split; [rewrite length_app; simpl; lia|]. split; [lia|].
    split; [|split].
    + intros l Hl. destruct (decide (l = Z.of_nat i)) as [->|Hli].
      * exists r, v.
        rewrite Nat2Z.id, Hnew. rewrite Hold by (destruct Hr; lia).
        repeat split; auto; lia.
      * destruct (Hall l) as (r0 & v0 & Hc0 & Hv01 & Hv02 & Hb0); [lia|].
        exists r0, v0. split; [done|].
        destruct (chase_ends equiv (length equiv) l Htable)
          as (r' & Hc' & [Hr0' _] & Hrl); [lia|lia|].
        assert (r' = r0) as -> by congruence.
        rewrite !Hold by lia. repeat split; auto; lia.
    + intros v0 Hv0. destruct (Hsurj v0 Hv0) as (r0 & Hr0 & Hrv0).
      exists r0. split; [done|].
      pose proof (lookup_lt_Some _ _ _ Hrv0). rewrite Hold by lia. done.
    + intros r1 r2 v1 v2 Hr1 Hr2 Hlt Hv1' Hv2'.
      pose proof (lookup_lt_Some _ _ _ Hv2') as Hb2.
      rewrite length_app in Hb2. simpl in Hb2.
      destruct Hr1 as [Hr10 Hr1], Hr2 as [Hr20 Hr2].
      assert (r2 ≠ Z.of_nat i).
      { intros ->. rewrite Nat2Z.id in Hr2. congruence. }
      rewrite Hold in Hv1', Hv2' by lia.
      by apply (Hmono r1 r2 v1 v2).
Qed.

Lemma tidy_from (equiv remap : list Z) (count : Z) (todo i : nat) :
  table_ok equiv → (i + todo = length equiv)%nat →
  dense_upto equiv remap count i →
  ∃ remap' count',
    for_each (xrange (Z.of_nat i) (Z.of_nat (length equiv)))
             (tidy_step equiv) (remap, count) = Ok (remap', count') ∧
    dense_remap equiv remap' count'.
Proof.
  intros Htable. revert remap count i.
  induction todo as [|todo IH]; intros remap count i Hi Hdense.
  - rewrite xrange_nil by lia. exists remap, count. split; [done|].
    apply dense_upto_all. by replace (length equiv) with i by lia.
  - rewrite xrange_cons by lia. cbn [for_each].
    destruct (tidy_step_dense equiv remap count i Htable)
      as (remap1 & count1 & -> & Hdense1); [lia|done|].
    simpl bind.
    replace (Z.of_nat i + 1) with (Z.of_nat (S i)) by lia.
    apply IH; [lia|done].
Qed.

(** The compaction pass returns, and its table is dense. *)
Lemma tidy_dense (equiv : list Z) :
  table_ok equiv →
  ∃ remap count, tidy equiv = Ok (remap, count) ∧
                 dense_remap equiv remap count.
Proof.
  intros Htable. unfold tidy.
  apply (tidy_from equiv [] (-1) (length equiv) O Htable); [lia|].
  split; [done|]. split; [lia|]. split; [intros l Hl; lia|].
  split; [intros v Hv; lia|].
  intros r1 r2 v1 v2 _ _ _ Hv1. by rewrite lookup_nil in Hv1.
Qed.

(** ** The start and the order of the pass *)

Lemma sizes_full {A : Type} (ny nx nc : nat) (v : A) :
  (0 < ny)%nat → (0 < nx)%nat →
  sizes (full ny nx nc v) = (Z.of_nat ny, Z.of_nat nx, Z.of_nat nc).
Proof.
  intros Hny Hnx. destruct ny as [|n]; [lia|]. destruct nx as [|m]; [lia|].
  unfold sizes, full. cbn [replicate hd length].
  by rewrite !length_replicate.
Qed.

Lemma full_shaped {A : Type} (ny nx nc : Z) (v : A) :
  1 <= ny → 1 <= nx → 0 <= nc →
  shaped ny nx nc (full (Z.to_nat ny) (Z.to_nat nx) (Z.to_nat nc) v).
Proof.
  intros Hny Hnx Hnc. unfold shaped, wf_image.
  rewrite sizes_full by lia. cbn [fst snd]. split.
  - unfold full. apply Forall_replicate. rewrite length_replicate.
    split; [done|]. apply Forall_replicate. by rewrite length_replicate.
  - repeat f_equal; lia.
Qed.

Lemma sample_full (ny nx nc : nat) (y x c : Z) :
  sample 0 (full ny nx nc 0) y x c = 0.
Proof.
  unfold sample, full.
  destruct ((0 <=? y) && (0 <=? x) && (0 <=? c)); [|done].
  destruct (replicate ny _ !! Z.to_nat y) as [row|] eqn:Hrow; simpl; [|done].
  apply lookup_replicate in Hrow as [-> _].
  destruct (replicate nx _ !! Z.to_nat x) as [p|] eqn:Hp; simpl; [|done].
  apply lookup_replicate in Hp as [-> _].
  destruct (replicate nc 0 !! Z.to_nat c) as [a|] eqn:Ha; simpl; [|done].
  by apply lookup_replicate in Ha as [-> _].
Qed.

Lemma valid_pos_coords (ny nx : Z) (pos : raster_pos) :
  1 <= ny → 1 <= nx → valid_pos ny nx pos →
  0 <= (coords pos).1 < ny ∧ 0 <= (coords pos).2 < nx ∧ coords pos ≠ (0, 0).
Proof.
  intros Hny Hnx.
  destruct pos; simpl; intros H; (split; [lia|]); (split; [lia|]);
    intros [=]; lia.
Qed.

(** The pass starts in a state that has the invariant, whatever valid
    pixels are to be visited. *)
Lemma label_start_inv (ny nx nc : Z) (rest : list raster_pos) :
  1 <= ny → 1 <= nx → 1 <= nc → Forall (valid_pos ny nx) rest →
  ∃ st, label_start ny nx nc = Ok st ∧ raster_inv ny nx nc rest st.
Proof.
  intros Hny Hnx Hnc Hvalid. unfold label_start.
  destruct (set_label_inv ny nx nc Hnc rest
              {| lab := full (Z.to_nat ny) (Z.to_nat nx) (Z.to_nat nc) 0;
                 equiv := [0]; lastlabel := 0 |} 0 0 0)
    as (st & Heq & Hinv & _); simpl.
  - apply full_shaped; lia.
  - done.
  - intros [|i] e He; simpl in He; [injection He as <-; lia|].
    by rewrite lookup_nil in He.
  - intros t s _ _. rewrite sample_full. lia.
  - intros t s c _. apply sample_full.
  - lia.
  - lia.
  - lia.
  - intros Hin. apply list_elem_of_fmap in Hin as (pos & Hpos & Hin).
    rewrite Forall_forall in Hvalid.
    destruct (valid_pos_coords ny nx pos Hny Hnx (Hvalid pos Hin))
      as (_ & _ & Hne).
    congruence.
  - intros l Hl. left. lia.
  - by exists st.
Qed.

Lemma raster_order_valid (ny nx : Z) :
  Forall (valid_pos ny nx) (raster_order ny nx).
Proof.
  unfold raster_order. rewrite !Forall_app. split; [|split].
  - apply Forall_fmap, Forall_forall. intros x Hx%xrange_elem. simpl. lia.
  - apply Forall_fmap, Forall_forall. intros y Hy%xrange_elem. simpl. lia.
  - apply Forall_bind, Forall_forall. intros y Hy%xrange_elem. simpl.
    apply Forall_fmap, Forall_forall. intros x Hx%xrange_elem. simpl. lia.
Qed.

Lemma raster_order_NoDup (ny nx : Z) : NoDup (coords <$> raster_order ny nx).
Proof.
  apply NoDup_fmap_2_strong.
  - intros p q Hp Hq Heq. revert Hp Hq. unfold raster_order.
    rewrite !elem_of_app, !list_elem_of_fmap, !list_elem_of_bind.
    intros [(x1 & -> & Hx1%xrange_elem) |
            [(y1 & -> & Hy1%xrange_elem) |
             (y1 & (x1 & -> & Hx1%xrange_elem)%list_elem_of_fmap
                 & Hy1%xrange_elem)]]
           [(x2 & -> & Hx2%xrange_elem) |
            [(y2 & -> & Hy2%xrange_elem) |
             (y2 & (x2 & -> & Hx2%xrange_elem)%list_elem_of_fmap
                 & Hy2%xrange_elem)]];
      simpl in Heq; injection Heq; intros; subst; try lia; done.
  - unfold raster_order. apply NoDup_app. split; [|split].
    + apply NoDup_fmap_2; [by intros ?? [=]|apply xrange_NoDup].
    + intros p (x & -> & Hx)%list_elem_of_fmap.
      rewrite elem_of_app, list_elem_of_fmap, list_elem_of_bind.
      intros [(y & [=] & _) | (y & (x' & [=] & _)%list_elem_of_fmap & _)].
    + apply NoDup_app. split; [|split].
      * apply NoDup_fmap_2; [by intros ?? [=]|apply xrange_NoDup].
      * intros p (y & -> & Hy)%list_elem_of_fmap.
        rewrite list_elem_of_bind.
        intros (y' & (x' & [=] & _)%list_elem_of_fmap & _).
      * apply NoDup_bind; [| |apply xrange_NoDup].
        -- intros y1 y2 p _ _ (x1 & -> & _)%list_elem_of_fmap
             (x2 & [=] & _)%list_elem_of_fmap. done.
        -- intros y _. apply NoDup_fmap_2; [by intros ?? [=]|].
           apply xrange_NoDup.
Qed.



(** ** The second pass and the returned number *)

Lemma for_each_fmap {A B S : Type} (f : A → B) (xs : list A)
    (body : B → S → result S) (s : S) :
  for_each (f <$> xs) body s = for_each xs (fun x => body (f x)) s.
Proof.
  revert s. induction xs as [|x xs IH]; intros s; simpl; [done|].
  destruct (body (f x) s); simpl; auto.
Qed.

Lemma for_each_nested {A B C S : Type} (f : A → B → C) (ys : list A)
    (xs : list B) (body : C → S → result S) (s : S) :
  for_each (y ← ys; f y <$> xs) body s =
  for_each ys (fun y s => for_each xs (fun x s => body (f y x) s) s) s.
Proof.
  revert s. induction ys as [|y ys IH]; intros s; [done|].
  change ((y :: ys) ≫= (fun y => f y <$> xs))
    with ((f y <$> xs) ++ (ys ≫= fun y => f y <$> xs)).
  rewrite for_each_app, for_each_fmap. cbn [for_each].
  destruct (for_each xs _ s); simpl; auto.
Qed.

(** Relabelling distinct pixels of the image, in any order, sends the
    label of each through [remap] and leaves every other sample. *)
Lemma relabel_pixels (ny nx nc : Z) (remap : list Z) (ps : list (Z * Z))
    (lab : image Z) :
  1 <= nc → shaped ny nx nc lab → NoDup ps →
  (∀ yx, yx ∈ ps →
     0 <= yx.1 < ny ∧ 0 <= yx.2 < nx ∧
     0 <= sample 0 lab yx.1 yx.2 0 < Z.of_nat (length remap)) →
  ∃ lab', for_each ps (relabel_pixel remap) lab = Ok lab' ∧
          shaped ny nx nc lab' ∧
          ∀ t s k, 0 <= k →
            sample 0 lab' t s k =
            if decide ((t, s) ∈ ps ∧ k = 0)
            then remap_of remap (sample 0 lab t s 0)
            else sample 0 lab t s k.
Proof.
  intros Hnc Hsh Hnd. revert lab Hsh.
  induction Hnd as [|[y x] ps Hfresh Hnd IH]; intros lab Hsh Hps.
  - exists lab. split; [done|]. split; [done|]. intros t s k Hk.
    rewrite decide_False; [done|]. intros [Hin _]. by apply elem_of_nil in Hin.
  - destruct (Hps (y, x) ltac:(by left)) as (Hy & Hx & Hl). simpl in Hy, Hx, Hl.
    cbn [for_each]. unfold relabel_pixel at 1. simpl fst. simpl snd.
    rewrite (getitem3_shaped 0 ny nx nc lab) by (done || lia). simpl bind.
    destruct (list_get_in_range remap _ Hl) as (v & Hv & ->). simpl bind.
    destruct (setitem3_in_range 0 ny nx nc lab y x 0 v Hsh Hy Hx)
      as (lab1 & -> & Hsh1 & Hsample1); [lia|]. simpl bind.
    destruct (IH lab1 Hsh1) as (lab2 & Heq2 & Hsh2 & Hsample2).
    { intros [t s] Hin. destruct (Hps (t, s) ltac:(by right)) as (Ht & Hs & Hb).
      split; [done|]. split; [done|]. simpl in *.
      rewrite Hsample1 by lia. rewrite decide_False; [done|].
      intros (-> & -> & _). done. }
    exists lab2. split; [done|]. split; [done|].
    intros t s k Hk. rewrite Hsample2 by done.
    destruct (decide ((t, s) ∈ ps ∧ k = 0)) as [[Hin ->]|Hout].
    + rewrite decide_True by (split; [by right|done]).
      rewrite Hsample1 by lia. rewrite decide_False; [done|].
      intros (-> & -> & _). done.
    + rewrite Hsample1 by done.
      destruct (decide (t = y ∧ s = x ∧ k = 0)) as [(-> & -> & ->)|Hne].
      * rewrite decide_True by (split; [by left|done]).
        unfold remap_of. by rewrite Hv.
      * rewrite decide_False; [done|].
        intros [[Heq|Hin]%elem_of_cons ->]; [|tauto].
        injection Heq as -> ->. tauto.
Qed.

Lemma relabel_all (ny nx nc : Z) (remap : list Z) (lab : image Z) :
  1 <= nc → shaped ny nx nc lab →
  (∀ y x, 0 <= y < ny → 0 <= x < nx →
          0 <= sample 0 lab y x 0 < Z.of_nat (length remap)) →
  ∃ lab', relabel ny nx remap lab = Ok lab' ∧ shaped ny nx nc lab' ∧
          ∀ t s k, 0 <= t < ny → 0 <= s < nx → 0 <= k →
            sample 0 lab' t s k =
            if decide (k = 0) then remap_of remap (sample 0 lab t s 0)
            else sample 0 lab t s k.
Proof.
  intros Hnc Hsh Hlabels. unfold relabel.
  rewrite <- (for_each_nested pair (xrange 0 ny) (xrange 0 nx)
                (relabel_pixel remap) lab).
  assert (Hmem : ∀ yx, yx ∈ (y ← xrange 0 ny; pair y <$> xrange 0 nx) ↔
                       0 <= yx.1 < ny ∧ 0 <= yx.2 < nx).
  { intros [y x]. rewrite list_elem_of_bind. simpl. split.
    - intros (y' & (x' & [= -> ->] & Hx%xrange_elem)%list_elem_of_fmap
                 & Hy%xrange_elem). lia.
    - intros [Hy Hx]. exists y. split; [|apply xrange_elem; lia].
      apply list_elem_of_fmap. exists x. split; [done|].
      apply xrange_elem. lia. }
  destruct (relabel_pixels ny nx nc remap
              (y ← xrange 0 ny; pair y <$> xrange 0 nx) lab Hnc Hsh)
    as (lab' & -> & Hsh' & Hsample).
  - apply NoDup_bind; [| |apply xrange_NoDup].
    + intros y1 y2 p _ _ (x1 & -> & _)%list_elem_of_fmap
        (x2 & [=] & _)%list_elem_of_fmap. done.
    + intros y _. apply NoDup_fmap_2; [by intros ?? [=]|apply xrange_NoDup].
  - intros yx Hin. apply Hmem in Hin as [Hy Hx].
    split; [done|]. split; [done|]. by apply Hlabels.
  - exists lab'. split; [done|]. split; [done|].
    intros t s k Ht Hs Hk. rewrite Hsample by done.
    assert (Hin : (t, s) ∈ (y ← xrange 0 ny; pair y <$> xrange 0 nx))
      by (by apply Hmem).
    destruct (decide (k = 0)) as [->|Hk0].
    + by rewrite decide_True.
    + rewrite decide_False; [done|]. tauto.
Qed.

Lemma elem_of_concat {A : Type} (x : A) (ls : list (list A)) :
  x ∈ concat ls ↔ ∃ l, x ∈ l ∧ l ∈ ls.
Proof.
  induction ls as [|l ls IH]; simpl.
  - split; [by intros ?%elem_of_nil|]. by intros (l & _ & ?%elem_of_nil).
  - rewrite elem_of_app, IH. split.
    + intros [Hx | (l' & Hx & Hl')].
      * exists l. split; [done|by left].
      * exists l'. split; [done|by right].
    + intros (l' & Hx & [-> | Hl']%elem_of_cons); [by left|].
      right. by exists l'.
Qed.

(** The samples of an image, as [max] goes through them, are its values
    at the positions inside its extents. *)
Lemma elem_of_samples (ny nx nc : Z) (im : image Z) (v : Z) :
  shaped ny nx nc im →
  v ∈ concat (concat im) ↔
  ∃ y x c, 0 <= y < ny ∧ 0 <= x < nx ∧ 0 <= c < nc ∧ sample 0 im y x c = v.
Proof.
  intros [Hwf Hs]. rewrite elem_of_concat. split.
  - intros (p & Hv & (row & Hp & Hrow)%elem_of_concat).
    apply list_elem_of_lookup in Hrow as [i Hi].
    apply list_elem_of_lookup in Hp as [j Hj].
    apply list_elem_of_lookup in Hv as [k Hk].
    destruct (wf_image_row im i row Hwf Hi) as [Hlen Hpx].
    rewrite Forall_lookup in Hpx. pose proof (Hpx j p Hj) as Hpl.
    rewrite Hs in Hlen, Hpl. simpl in Hlen, Hpl.
    pose proof (lookup_lt_Some _ _ _ Hi) as Hi'.
    pose proof (lookup_lt_Some _ _ _ Hj) as Hj'.
    pose proof (lookup_lt_Some _ _ _ Hk) as Hk'.
    assert (Hrows : Z.of_nat (length im) = ny).
    { rewrite <- sizes_rows, Hs. done. }
    exists (Z.of_nat i), (Z.of_nat j), (Z.of_nat k).
    split; [lia|]. split; [lia|]. split; [lia|].
    rewrite sample_pixel by lia.
    rewrite (pixel_lookup im _ _ row p); rewrite ?Nat2Z.id; try done; try lia.
    by rewrite Hk.
  - intros (y & x & c & Hy & Hx & Hc & Hv).
    destruct (wf_image_pixel im y x Hwf) as (row & p & Hrow & Hp & _ & Hpl);
      try (rewrite Hs; simpl; lia).
    rewrite Hs in Hpl. simpl in Hpl.
    rewrite sample_pixel in Hv by lia.
    rewrite (pixel_lookup im y x row p) in Hv by (done || lia).
    destruct (lookup_lt_is_Some_2 p (Z.to_nat c)) as [a Ha]; [lia|].
    rewrite Ha in Hv. simpl in Hv. subst a.
    exists p. split; [by eapply list_elem_of_lookup_2|].
    apply elem_of_concat. exists row.
    split; by eapply list_elem_of_lookup_2.
Qed.

Lemma foldr_max_bounds (d : Z) (l : list Z) :
  (foldr Z.max d l = d ∨ foldr Z.max d l ∈ l) ∧
  d <= foldr Z.max d l ∧ ∀ x, x ∈ l → x <= foldr Z.max d l.
Proof.
  induction l as [|a l (Hin & Hd & Hle)]; simpl.
  - split; [by left|]. split; [lia|]. by intros x ?%elem_of_nil.
  - split; [|split].
    + destruct (Z.max_spec a (foldr Z.max d l)) as [[_ ->] | [_ ->]].
      * destruct Hin as [-> | Hin]; [by left|]. right. by right.
      * right. by left.
    + lia.
    + intros x [-> | Hx]%elem_of_cons; [lia|]. specialize (Hle x Hx). lia.
Qed.

(** [max (lab)] is the largest sample of a buffer that has one. *)
Lemma image_max_largest (ny nx nc : Z) (im : image Z) :
  shaped ny nx nc im → 1 <= ny → 1 <= nx → 1 <= nc →
  (∃ y x c, 0 <= y < ny ∧ 0 <= x < nx ∧ 0 <= c < nc ∧
            sample 0 im y x c = image_max im) ∧
  ∀ y x c, 0 <= y < ny → 0 <= x < nx → 0 <= c < nc →
           sample 0 im y x c <= image_max im.
Proof.
  intros Hsh Hny Hnx Hnc. unfold image_max.
  assert (Hsome : sample 0 im 0 0 0 ∈ concat (concat im)).
  { apply (elem_of_samples ny nx nc); [done|]. exists 0, 0, 0. lia. }
  destruct (foldr_max_bounds (hd 0 (concat (concat im))) (concat (concat im)))
    as (Hin & _ & Hle).
  split.
  - apply (elem_of_samples ny nx nc); [done|].
    destruct Hin as [-> | Hin]; [|done].
    destruct (concat (concat im)) as [|a l]; [by apply elem_of_nil in Hsome|].
    by left.
  - intros y x c Hy Hx Hc. apply Hle.
    apply (elem_of_samples ny nx nc); [done|]. by exists y, x, c.
Qed.

(** After the second pass the labels in use are those that [remap] gives
    to the labels of the first pass, and [max] finds the counter of the
    loop that tidied the table. *)
Lemma relabelled_max (ny nx nc : Z) (st : label_state) (remap : list Z)
    (count : Z) (lab' : image Z) :
  1 <= ny → 1 <= nx → 1 <= nc →
  raster_inv ny nx nc [] st → dense_remap (equiv st) remap count →
  shaped ny nx nc lab' →
  (∀ t s k, 0 <= t < ny → 0 <= s < nx → 0 <= k →
     sample 0 lab' t s k =
     if decide (k = 0) then remap_of remap (sample 0 (lab st) t s 0)
     else sample 0 (lab st) t s k) →
  image_max lab' = count ∧ labels_exactly lab' (count + 1).
Proof.
  intros Hny Hnx Hnc Hinv (Hlen & Hall & Honto & _) Hsh' Hsample.
  pose proof (inv_length _ _ _ _ _ Hinv) as Hlast.
  assert (Hnew : ∀ y x, 0 <= y < ny → 0 <= x < nx →
                        0 <= sample 0 lab' y x 0 <= count).
  { intros y x Hy Hx. rewrite Hsample by (done || lia).
    rewrite decide_True by done.
    pose proof (inv_labels _ _ _ _ _ Hinv y x Hy Hx) as Hl.
    destruct (Hall (sample 0 (lab st) y x 0)) as (r & v & _ & _ & Hv & Hrange);
      [lia|].
    unfold remap_of. by rewrite Hv. }
  assert (Hcount : 0 <= count).
  { specialize (Hnew 0 0). lia. }
  assert (Hused : ∀ v, 0 <= v <= count →
                       ∃ y x, 0 <= y < ny ∧ 0 <= x < nx ∧
                              sample 0 lab' y x 0 = v).
  { intros v Hv. destruct (Honto v Hv) as (r & [Hr0 Hr] & Hrv).
    pose proof (lookup_lt_Some _ _ _ Hr) as Hrlen.
    destruct (inv_used _ _ _ _ _ Hinv r) as (y & x & Hy & Hx & _ & Hyx);
      [lia|].
    exists y, x. split; [done|]. split; [done|].
    rewrite Hsample by (done || lia). rewrite decide_True by done.
    rewrite Hyx. unfold remap_of. by rewrite Hrv. }
  destruct (image_max_largest ny nx nc lab' Hsh' Hny Hnx Hnc)
    as ((y & x & c & Hy & Hx & Hc & Hmax) & Hle).
  assert (Heq : image_max lab' = count).
  { apply Z.le_antisymm.
    - rewrite <- Hmax. destruct (decide (c = 0)) as [-> | Hc0].
      + by apply Hnew.
      + rewrite Hsample by (done || lia). rewrite decide_False by done.
        rewrite (inv_channels _ _ _ _ _ Hinv) by lia. done.
    - destruct (Hused count) as (t & s & Ht & Hs & <-); [lia|].
      apply Hle; (done || lia). }
  split; [done|]. intros l. split.
  - intros (t & s & [Ht Hs] & <-). destruct Hsh' as [_ Hsizes].
    rewrite Hsizes in Ht, Hs. simpl in Ht, Hs.
    specialize (Hnew t s Ht Hs). lia.
  - intros Hl. destruct (Hused l) as (t & s & Ht & Hs & Hts); [lia|].
    exists t, s. split; [|done]. destruct Hsh' as [_ Hsizes].
    unfold inside. rewrite Hsizes. done.
Qed.

(** C3, as the code has it. On a well-formed buffer with at least one
    row, one column and one channel, [label_regions_slow] returns a pair
    of a label buffer of the same extents and a number [M] which is the
    largest label: the values in channel 0 of the label buffer are exactly
    [0, ..., M], [M] occurs in the buffer and no sample is larger. The
    number of distinct labels is therefore [M + 1], one more than the
    number returned. *)
Theorem label_regions_slow_max_label (im : image Z) (con8 : bool) :
  wf_image im →
  1 <= (sizes im).1.1 → 1 <= (sizes im).1.2 → 1 <= (sizes im).2 →
  ∃ lab M,
    label_regions_slow im con8 = Ok (lab, M) ∧
    sizes lab = sizes im ∧ wf_image lab ∧
    labels_exactly lab (M + 1) ∧
    M = image_max lab ∧
    ∀ y x c, inside lab y x → 0 <= c < (sizes lab).2 →
             sample 0 lab y x c <= M.
Proof.
  intros Hwf Hny Hnx Hnc. unfold label_regions_slow.
  destruct (sizes im) as [[ny nx] nc] eqn:Hs. simpl in Hny, Hnx, Hnc.
  assert (Hsh : shaped ny nx nc im) by done.
  destruct (label_start_inv ny nx nc (raster_order ny nx) Hny Hnx Hnc
              (raster_order_valid ny nx)) as (st0 & -> & Hinv0).
  cbn [bind].
  destruct (raster_pass_inv ny nx nc im con8 Hny Hnx Hnc Hsh _ st0
              (raster_order_valid ny nx) (raster_order_NoDup ny nx) Hinv0)
    as (st & -> & Hinv).
  cbn [bind].
  destruct (tidy_dense (equiv st) (inv_table _ _ _ _ _ Hinv))
    as (remap & count & -> & Hdense).
  cbn [bind].
  pose proof (inv_length _ _ _ _ _ Hinv) as Hlast.
  destruct (relabel_all ny nx nc remap (lab st) Hnc
              (inv_shaped _ _ _ _ _ Hinv)) as (lab' & -> & Hsh' & Hsample).
  { intros y x Hy Hx. destruct Hdense as [-> _].
    pose proof (inv_labels _ _ _ _ _ Hinv y x Hy Hx). lia. }
  cbn [bind].
  destruct (relabelled_max ny nx nc st remap count lab' Hny Hnx Hnc Hinv
              Hdense Hsh' Hsample) as [Hmax Hexact].
  exists lab', (image_max lab'). split; [done|].
  destruct Hsh' as [Hwf' Hs']. split; [done|]. split; [done|].
  split; [by rewrite Hmax|]. split; [done|].
  intros y x c [Hy Hx] Hc. rewrite Hs' in Hy, Hx, Hc. simpl in Hy, Hx, Hc.
  by apply (image_max_largest ny nx nc lab').
Qed.

Lemma label_regions_slow_max_label_witness :
  ∃ lab M,
    label_regions_slow bent false = Ok (lab, M) ∧
    sizes lab = sizes bent ∧ wf_image lab ∧
    labels_exactly lab (M + 1) ∧
    M = image_max lab ∧
    ∀ y x c, inside lab y x → 0 <= c < (sizes lab).2 →
             sample 0 lab y x c <= M.
Proof.
  apply (label_regions_slow_max_label bent false).
  - unfold wf_image. vm_compute. repeat constructor.
  - vm_compute. discriminate.
  - vm_compute. discriminate.
  - vm_compute. discriminate.
Defined.

(** C3, as it is written, fails on a buffer of one pixel: the call returns
    the label buffer [[[0]]] and the number 0, the label 0 occurs in the
    buffer, and so its values are not the empty range below the number
    returned; the buffer has one region and one label, and the number
    returned is the largest label. *)
Lemma label_regions_slow_returns_largest_label :
  label_regions_slow one_pixel true = Ok ([[[0]]], 0) ∧
  label_regions_slow one_pixel false = Ok ([[[0]]], 0) ∧
  ¬ labels_exactly [[[0]]] 0 ∧
  labels_exactly [[[0]]] 1.
Proof.
  split; [by vm_compute|]. split; [by vm_compute|]. split.
  - intros Hexact. destruct (Hexact 0) as [Hin _].
    assert (0 <= 0 < 0); [|lia].
    apply Hin. exists 0, 0. split; [|by vm_compute].
    unfold inside. vm_compute. repeat split; discriminate || reflexivity.
  - intros l. split.
    + intros (y & x & [Hy Hx] & <-).
      change ((sizes [[[0]]]).1.1) with 1 in Hy.
      change ((sizes [[[0]]]).1.2) with 1 in Hx.
      assert (y = 0) as -> by lia. assert (x = 0) as -> by lia.
      vm_compute. split; [discriminate|reflexivity].
    + intros Hl. assert (l = 0) as -> by lia. exists 0, 0.
      split; [|by vm_compute].
      unfold inside. vm_compute. repeat split; discriminate || reflexivity.
Qed.

(** On the 3x4 buffer [bent], with 4-connectivity, the zeros of the last
    column and those next to them in the third column touch, and the call
    gives them the labels 2 and 0: the table had label 4 point to label 2
    and then to label 0, and the first link was lost. *)
Lemma label_regions_slow_bent :
  label_regions_slow bent false =
    Ok ([[[0]; [0]; [1]; [2]]; [[0]; [3]; [0]; [2]]; [[0]; [0]; [0]; [4]]], 4) ∧
  sample 0 bent 1 2 0 = sample 0 bent 1 3 0.
Proof. split; by vm_compute. Qed.

(** ** [high_peaks] on the peaks of [find_peaks] *)








(** ** [draw_line_fast] writes inside the image only *)





(** ** Exchanging pixels: [reflect_horizontally], [reflect_vertically] *)

Lemma pixel_length {A : Type} (im : image A) (y x : Z) :
  wf_image im → inside im y x →
  Z.of_nat (length (pixel im y x)) = (sizes im).2.
Proof.
  intros Hwf [Hy Hx].
  destruct (wf_image_pixel im y x Hwf Hy Hx) as (row & p & Hrow & Hp & _ & Hpl).
  by rewrite (pixel_lookup im y x row p) by (done || lia).
Qed.

(** Two well-formed images of the same extents with the same pixels are
    the same image. *)
Lemma image_ext {A : Type} (a b : image A) :
  wf_image a → wf_image b → sizes a = sizes b →
  (∀ t s, inside a t s → pixel a t s = pixel b t s) → a = b.
Proof.
  intros Hwfa Hwfb Hs Hpx.
  assert (Hrows : length a = length b).
  { apply (f_equal (fun s => s.1.1)) in Hs. rewrite !sizes_rows in Hs. lia. }
  apply (list_eq_same_length a b (length a)); [done|done|].
  intros i ra rb Hi Hra Hrb.
  destruct (wf_image_row a i ra Hwfa Hra) as [Hla _].
  destruct (wf_image_row b i rb Hwfb Hrb) as [Hlb _].
  rewrite <- Hs in Hlb.
  apply (list_eq_same_length ra rb (length ra)); [lia|done|].
  intros j pa pb Hj Hpa Hpb.
  assert (Hin : inside a (Z.of_nat i) (Z.of_nat j)).
  { split; [rewrite sizes_rows|]; lia. }
  specialize (Hpx _ _ Hin).
  rewrite (pixel_lookup a _ _ ra pa) in Hpx
    by (rewrite ?Nat2Z.id; done || lia).
  rewrite (pixel_lookup b _ _ rb pb) in Hpx
    by (rewrite ?Nat2Z.id; done || lia).
  done.
Qed.

Lemma setpixel_in_range {A : Type} (im : image A) (y x : Z) (p : list A) :
  wf_image im → inside im y x → Z.of_nat (length p) = (sizes im).2 →
  ∃ im', setpixel im y x p = Ok im' ∧
         wf_image im' ∧ sizes im' = sizes im ∧
         ∀ t s, pixel im' t s =
                if decide (t = y ∧ s = x) then p else pixel im t s.
Proof.
  intros Hwf [Hy Hx] Hlen. unfold setpixel.
  rewrite (getitem2_in_range im y x Hwf Hy Hx). cbn [bind].
  destruct (update_pixel_insert im y x (fun _ => p) Hwf Hy Hx)
    as (row & old & Hrow & Hold & Hol & Hup).
  rewrite (pixel_lookup im y x row old) by (done || lia).
  rewrite decide_True by lia. rewrite Hup.
  eexists. split; [reflexivity|].
  assert (Hpo : length p = length old) by lia.
  split; [by eapply wf_image_insert|].
  split; [by eapply sizes_insert|].
  intros t s. rewrite (pixel_insert im _ _ row).
  - repeat case_decide; try done; lia.
  - done.
  - by eapply lookup_lt_Some.
Qed.

Lemma exchange_in_range {A : Type} (im : image A) (y x t s : Z) :
  wf_image im → inside im y x → inside im t s →
  ∃ im', exchange im y x t s = Ok im' ∧
         wf_image im' ∧ sizes im' = sizes im ∧
         ∀ a b, pixel im' a b =
                if decide (a = t ∧ b = s) then pixel im y x
                else if decide (a = y ∧ b = x) then pixel im t s
                else pixel im a b.
Proof.
  intros Hwf Hyx Hts. unfold exchange.
  rewrite (getitem2_in_range im y x Hwf (proj1 Hyx) (proj2 Hyx)).
  rewrite (getitem2_in_range im t s Hwf (proj1 Hts) (proj2 Hts)).
  cbn [bind].
  destruct (setpixel_in_range im y x (pixel im t s) Hwf Hyx)
    as (im1 & -> & Hwf1 & Hs1 & Hpx1); [by apply pixel_length|].
  cbn [bind].
  destruct (setpixel_in_range im1 t s (pixel im y x) Hwf1)
    as (im2 & -> & Hwf2 & Hs2 & Hpx2).
  { unfold inside. by rewrite Hs1. }
  { rewrite Hs1. by apply pixel_length. }
  exists im2. split; [done|]. split; [done|]. split; [congruence|].
  intros a b. rewrite Hpx2. case_decide; [done|]. apply Hpx1.
Qed.

(** A pass that exchanges every pixel of [ps] with its partner under an
    involution [mirror] that takes [ps] off itself: the pixels of [ps] and
    their partners end up exchanged, the others are left. *)
Lemma exchange_all {A : Type} (mirror : Z * Z → Z * Z) (ps : list (Z * Z))
    (im : image A) :
  (∀ q, mirror (mirror q) = q) →
  wf_image im → NoDup ps →
  (∀ q, q ∈ ps → inside im q.1 q.2 ∧ inside im (mirror q).1 (mirror q).2 ∧
                 mirror q ∉ ps) →
  ∃ im',
    for_each ps (fun q im => exchange im q.1 q.2 (mirror q).1 (mirror q).2)
             im = Ok im' ∧
    wf_image im' ∧ sizes im' = sizes im ∧
    ∀ a b, pixel im' a b =
           if decide ((a, b) ∈ ps ∨ mirror (a, b) ∈ ps)
           then pixel im (mirror (a, b)).1 (mirror (a, b)).2
           else pixel im a b.
Proof.
  intros Hinv Hwf Hnd. revert im Hwf.
  induction Hnd as [|q ps Hfresh Hnd IH]; intros im Hwf Hps.
  - exists im. split; [done|]. split; [done|]. split; [done|].
    intros a b. rewrite decide_False; [done|].
    intros [?%elem_of_nil | ?%elem_of_nil]; done.
  - destruct (Hps q ltac:(by left)) as (Hq & Hmq & Hoff).
    destruct (exchange_in_range im q.1 q.2 (mirror q).1 (mirror q).2 Hwf Hq Hmq)
      as (im1 & Heq1 & Hwf1 & Hs1 & Hpx1).
    destruct (IH im1 Hwf1) as (im2 & Heq2 & Hwf2 & Hs2 & Hpx2).
    { intros r Hr. destruct (Hps r ltac:(by right)) as (Hr1 & Hr2 & Hr3).
      unfold inside. rewrite Hs1. split; [done|]. split; [done|].
      intros Hin. apply Hr3. by right. }
    exists im2. cbn [for_each]. rewrite Heq1. cbn [bind].
    split; [done|]. split; [done|]. split; [congruence|].
    intros a b. rewrite Hpx2.
    assert (Hpair : ∀ r : Z * Z, (r.1, r.2) = r) by (by intros []).
    assert (Hsplit : ∀ (r : Z * Z) c d, (c = r.1 ∧ d = r.2) ↔ (c, d) = r).
    { intros [r1 r2] c d. simpl. split; [by intros [-> ->]|by intros [= -> ->]]. }
    destruct (decide ((a, b) ∈ ps ∨ mirror (a, b) ∈ ps)) as [Hin | Hout].
    + rewrite decide_True.
      2:{ destruct Hin; [left|right]; by right. }
      rewrite Hpx1.
      rewrite decide_False.
      2:{ rewrite Hsplit, Hpair. intros Heq.
          apply (f_equal mirror) in Heq. rewrite !Hinv in Heq.
          destruct Hin as [Hin | Hin].
          - rewrite Heq in Hin. done.
          - rewrite Heq in Hin.
            destruct (Hps q ltac:(by left)) as (_ & _ & Hn).
            apply Hn. by right. }
      rewrite decide_False; [done|].
      rewrite Hsplit, Hpair. intros Heq.
      destruct Hin as [Hin | Hin].
      * destruct (Hps (a, b) ltac:(by right)) as (_ & _ & Hn).
        apply Hn. rewrite Heq. by left.
      * rewrite Heq in Hin. done.
    + rewrite Hpx1.
      destruct (decide (a = (mirror q).1 ∧ b = (mirror q).2)) as [Hm | Hnm].
      * apply Hsplit in Hm. rewrite decide_True.
        2:{ right. rewrite Hm, Hinv. by left. }
        by rewrite Hm, Hinv.
      * destruct (decide (a = q.1 ∧ b = q.2)) as [Hq' | Hnq].
        -- apply Hsplit in Hq'. rewrite decide_True; [by rewrite Hq'|].
           left. rewrite Hq'. by left.
        -- rewrite decide_False; [done|].
           rewrite Hsplit in Hnm, Hnq.
           intros [[Heq | Hin]%elem_of_cons | [Heq | Hin]%elem_of_cons];
             [done | tauto | | tauto].
           apply Hnm. by rewrite <- Heq, Hinv.
Qed.

Lemma elem_of_grid (ylo yhi xlo xhi : Z) (q : Z * Z) :
  q ∈ (y ← xrange ylo yhi; pair y <$> xrange xlo xhi) ↔
  ylo <= q.1 < yhi ∧ xlo <= q.2 < xhi.
Proof.
  destruct q as [y x]. rewrite list_elem_of_bind. simpl. split.
  - intros (y' & (x' & [= -> ->] & Hx%xrange_elem)%list_elem_of_fmap
               & Hy%xrange_elem). lia.
  - intros [Hy Hx]. exists y. split; [|apply xrange_elem; lia].
    apply list_elem_of_fmap. exists x. split; [done|].
    apply xrange_elem. lia.
Qed.

Lemma NoDup_grid (ylo yhi xlo xhi : Z) :
  NoDup (y ← xrange ylo yhi; pair y <$> xrange xlo xhi).
Proof.
  apply NoDup_bind; [| |apply xrange_NoDup].
  - intros y1 y2 p _ _ (x1 & -> & _)%list_elem_of_fmap
      (x2 & [=] & _)%list_elem_of_fmap. done.
  - intros y _. apply NoDup_fmap_2; [by intros ?? [=]|apply xrange_NoDup].
Qed.

Lemma reflect_horizontally_pixels {A : Type} (im : image A) :
  wf_image im →
  ∃ im', reflect_horizontally im = Ok im' ∧
         wf_image im' ∧ sizes im' = sizes im ∧
         ∀ t s, inside im t s →
                pixel im' t s = pixel im t ((sizes im).1.2 - 1 - s).
Proof.
  intros Hwf. unfold reflect_horizontally, inside.
  destruct (sizes im) as [[ny nx] nc] eqn:Hs. cbn [fst snd].
  set (mirror := fun q : Z * Z => (q.1, nx - q.2 - 1)).
  destruct (exchange_all mirror
              (y ← xrange 0 ny; pair y <$> xrange 0 (nx / 2)) im)
    as (im' & Heq & Hwf' & Hs' & Hpx).
  - intros [y x]. unfold mirror. simpl. f_equal. lia.
  - done.
  - apply NoDup_grid.
  - intros [y x] Hq. apply elem_of_grid in Hq. simpl in Hq.
    assert (Hhalf : 2 * (nx / 2) <= nx) by (apply Z.mul_div_le; lia).
    unfold inside, mirror. rewrite Hs. simpl.
    split; [lia|]. split; [lia|].
    rewrite elem_of_grid. simpl. lia.
  - exists im'. split.
    + rewrite <- Heq. symmetry.
      apply (for_each_nested pair (xrange 0 ny) (xrange 0 (nx / 2))
               (fun q im => exchange im q.1 q.2 (mirror q).1 (mirror q).2)).
    + split; [done|]. split; [by rewrite Hs' |].
      intros t s [Ht Hs2]. rewrite Hpx. unfold mirror. simpl.
      replace (nx - s - 1) with (nx - 1 - s) by lia.
      case_decide as Hcase; [done|].
      rewrite !elem_of_grid in Hcase. simpl in Hcase.
      assert (Hodd : nx < 2 * (nx / 2) + 2).
      { pose proof (Z.mod_pos_bound nx 2). pose proof (Z.div_mod nx 2). lia. }
      f_equal. lia.
Qed.

Lemma reflect_vertically_pixels {A : Type} (im : image A) :
  wf_image im →
  ∃ im', reflect_vertically im = Ok im' ∧
         wf_image im' ∧ sizes im' = sizes im ∧
         ∀ t s, inside im t s →
                pixel im' t s = pixel im ((sizes im).1.1 - 1 - t) s.
Proof.
  intros Hwf. unfold reflect_vertically, inside.
  destruct (sizes im) as [[ny nx] nc] eqn:Hs. cbn [fst snd].
  set (mirror := fun q : Z * Z => (ny - q.1 - 1, q.2)).
  destruct (exchange_all mirror
              (y ← xrange 0 (ny / 2); pair y <$> xrange 0 nx) im)
    as (im' & Heq & Hwf' & Hs' & Hpx).
  - intros [y x]. unfold mirror. simpl. f_equal. lia.
  - done.
  - apply NoDup_grid.
  - intros [y x] Hq. apply elem_of_grid in Hq. simpl in Hq.
    assert (Hhalf : 2 * (ny / 2) <= ny) by (apply Z.mul_div_le; lia).
    unfold inside, mirror. rewrite Hs. simpl.
    split; [lia|]. split; [lia|].
    rewrite elem_of_grid. simpl. lia.
  - exists im'. split.
    + rewrite <- Heq. symmetry.
      apply (for_each_nested pair (xrange 0 (ny / 2)) (xrange 0 nx)
               (fun q im => exchange im q.1 q.2 (mirror q).1 (mirror q).2)).
    + split; [done|]. split; [by rewrite Hs' |].
      intros t s [Ht Hs2]. rewrite Hpx. unfold mirror. simpl.
      replace (ny - t - 1) with (ny - 1 - t) by lia.
      case_decide as Hcase; [done|].
      rewrite !elem_of_grid in Hcase. simpl in Hcase.
      assert (Hodd : ny < 2 * (ny / 2) + 2).
      { pose proof (Z.mod_pos_bound ny 2). pose proof (Z.div_mod ny 2). lia. }
      f_equal. lia.
Qed.

(** On a well-formed image [reflect_horizontally] returns normally an
    image of the same extents in which the pixel of column [s] is the
    pixel that was in column [nx - 1 - s] of the same row. *)
Theorem reflect_horizontally_mirrors {A : Type} (im : image A) :
  wf_image im →
  ∃ im', reflect_horizontally im = Ok im' ∧
         wf_image im' ∧ sizes im' = sizes im ∧
         ∀ t s, inside im t s →
                pixel im' t s = pixel im t ((sizes im).1.2 - 1 - s).
Proof. apply reflect_horizontally_pixels. Qed.

Lemma reflect_horizontally_mirrors_witness :
  ∃ im', reflect_horizontally bent = Ok im' ∧
         wf_image im' ∧ sizes im' = sizes bent ∧
         ∀ t s, inside bent t s →
                pixel im' t s = pixel bent t ((sizes bent).1.2 - 1 - s).
Proof.
  apply (reflect_horizontally_mirrors bent).
  unfold wf_image. vm_compute. repeat constructor.
Defined.

(** On a well-formed image [reflect_vertically] returns normally an image
    of the same extents in which the pixel of row [t] is the pixel that
    was in row [ny - 1 - t] of the same column. *)
Theorem reflect_vertically_mirrors {A : Type} (im : image A) :
  wf_image im →
  ∃ im', reflect_vertically im = Ok im' ∧
         wf_image im' ∧ sizes im' = sizes im ∧
         ∀ t s, inside im t s →
                pixel im' t s = pixel im ((sizes im).1.1 - 1 - t) s.
Proof. apply reflect_vertically_pixels. Qed.

Lemma reflect_vertically_mirrors_witness :
  ∃ im', reflect_vertically bent = Ok im' ∧
         wf_image im' ∧ sizes im' = sizes bent ∧
         ∀ t s, inside bent t s →
                pixel im' t s = pixel bent ((sizes bent).1.1 - 1 - t) s.
Proof.
  apply (reflect_vertically_mirrors bent).
  unfold wf_image. vm_compute. repeat constructor.
Defined.

(** Reflecting a well-formed image twice, horizontally or vertically,
    gives the image back. *)
Theorem reflect_twice {A : Type} (im : image A) :
  wf_image im →
  (∃ im', reflect_horizontally im = Ok im' ∧
          reflect_horizontally im' = Ok im) ∧
  (∃ im', reflect_vertically im = Ok im' ∧ reflect_vertically im' = Ok im).
Proof.
  intros Hwf. split.
  - destruct (reflect_horizontally_pixels im Hwf)
      as (im1 & Heq1 & Hwf1 & Hs1 & Hpx1).
    destruct (reflect_horizontally_pixels im1 Hwf1)
      as (im2 & Heq2 & Hwf2 & Hs2 & Hpx2).
    exists im1. split; [done|]. rewrite Heq2. f_equal.
    apply image_ext; [done | done | congruence |].
    intros t s Hin.
    assert (Hin1 : inside im1 t s).
    { unfold inside in *. rewrite Hs1. by rewrite Hs2, Hs1 in Hin. }
    rewrite (Hpx2 t s Hin1). rewrite Hs1.
    unfold inside in Hin1. rewrite Hs1 in Hin1.
    rewrite Hpx1 by (unfold inside; lia). f_equal. lia.
  - destruct (reflect_vertically_pixels im Hwf)
      as (im1 & Heq1 & Hwf1 & Hs1 & Hpx1).
    destruct (reflect_vertically_pixels im1 Hwf1)
      as (im2 & Heq2 & Hwf2 & Hs2 & Hpx2).
    exists im1. split; [done|]. rewrite Heq2. f_equal.
    apply image_ext; [done | done | congruence |].
    intros t s Hin.
    assert (Hin1 : inside im1 t s).
    { unfold inside in *. rewrite Hs1. by rewrite Hs2, Hs1 in Hin. }
    rewrite (Hpx2 t s Hin1). rewrite Hs1.
    unfold inside in Hin1. rewrite Hs1 in Hin1.
    rewrite Hpx1 by (unfold inside; lia). f_equal. lia.
Qed.

Lemma reflect_twice_witness :
  (∃ im', reflect_horizontally bent = Ok im' ∧
          reflect_horizontally im' = Ok bent) ∧
  (∃ im', reflect_vertically bent = Ok im' ∧ reflect_vertically im' = Ok bent).
Proof.
  apply (reflect_twice bent).
  unfold wf_image. vm_compute. repeat constructor.
Defined.

(** The two reflections of a well-formed image commute: in either order
    they turn the image by half a turn. *)
Theorem reflect_both_ways {A : Type} (im : image A) :
  wf_image im →
  ∃ h v hv,
    reflect_horizontally im = Ok h ∧ reflect_vertically h = Ok hv ∧
    reflect_vertically im = Ok v ∧ reflect_horizontally v = Ok hv ∧
    ∀ t s, inside im t s →
           pixel hv t s =
           pixel im ((sizes im).1.1 - 1 - t) ((sizes im).1.2 - 1 - s).
Proof.
  intros Hwf.
  destruct (reflect_horizontally_pixels im Hwf)
    as (h & Hh & Hwfh & Hsh & Hpxh).
  destruct (reflect_vertically_pixels h Hwfh)
    as (hv & Hhv & Hwfhv & Hshv & Hpxhv).
  destruct (reflect_vertically_pixels im Hwf)
    as (v & Hv & Hwfv & Hsv & Hpxv).
  destruct (reflect_horizontally_pixels v Hwfv)
    as (vh & Hvh & Hwfvh & Hsvh & Hpxvh).
  assert (Hhalf : ∀ t s, inside im t s →
            pixel hv t s =
            pixel im ((sizes im).1.1 - 1 - t) ((sizes im).1.2 - 1 - s)).
  { intros t s [Ht Hs]. rewrite Hpxhv by (unfold inside; by rewrite Hsh).
    rewrite Hsh. apply Hpxh. unfold inside. lia. }
  exists h, v, hv. split; [done|]. split; [done|]. split; [done|].
  split; [|done]. rewrite Hvh. f_equal.
  apply image_ext; [done | done | congruence |].
  intros t s Hin. unfold inside in Hin. rewrite Hsvh, Hsv in Hin.
  rewrite Hhalf by done.
  rewrite Hpxvh by (unfold inside; by rewrite Hsv).
  rewrite Hsv. apply Hpxv. unfold inside. lia.
Qed.

Lemma reflect_both_ways_witness :
  ∃ h v hv,
    reflect_horizontally bent = Ok h ∧ reflect_vertically h = Ok hv ∧
    reflect_vertically bent = Ok v ∧ reflect_horizontally v = Ok hv ∧
    ∀ t s, inside bent t s →
           pixel hv t s =
           pixel bent ((sizes bent).1.1 - 1 - t) ((sizes bent).1.2 - 1 - s).
Proof.
  apply (reflect_both_ways bent).
  unfold wf_image. vm_compute. repeat constructor.
Defined.

(** ** [draw_circle_fast] on a circle that fits in the image *)

Lemma drawn_app {A : Type} (v : A) (a b c : image A)
    (w1 w2 : list (Z * Z)) :
  drawn v a b w1 → drawn v b c w2 → drawn v a c (w1 ++ w2).
Proof.
  intros Hab Hbc t s. rewrite Hbc, Hab.
  destruct (decide ((t, s) ∈ w1)) as [H1 | H1],
    (decide ((t, s) ∈ w2)) as [H2 | H2].
  - rewrite decide_True by (apply elem_of_app; by left).
    apply map_const_idemp.
  - rewrite decide_True by (apply elem_of_app; by left). done.
  - rewrite decide_True by (apply elem_of_app; by right). done.
  - rewrite decide_False; [done|]. rewrite elem_of_app. tauto.
Qed.

Lemma plot_points_drawn {A : Type} (ny nx nc : Z) (v : A)
    (points : list (Z * Z)) (im : image A) :
  shaped ny nx nc im →
  (∀ q, q ∈ points → 0 <= q.1 < ny ∧ 0 <= q.2 < nx) →
  ∃ im', plot_points im points v = Ok im' ∧ shaped ny nx nc im' ∧
         drawn v im im' points.
Proof.
  unfold plot_points. revert im.
  induction points as [|q points IH]; intros im Hsh Hin.
  - exists im. split; [done|]. split; [done|]. apply drawn_nil.
  - destruct Hsh as [Hwf Hs].
    destruct (Hin q ltac:(by left)) as [Hq1 Hq2].
    destruct (setitem2_in_range im q.1 q.2 v Hwf)
      as (im1 & Heq1 & Hwf1 & Hs1 & Hpx1); try (rewrite Hs; simpl; lia).
    destruct (IH im1) as (im2 & Heq2 & Hsh2 & Hdrawn2).
    { split; [done|congruence]. }
    { intros q' Hq'. apply Hin. by right. }
    exists im2. cbn [for_each]. rewrite Heq1. cbn [bind].
    split; [done|]. split; [done|].
    apply (drawn_app v im im1 im2 [q] points); [|done].
    intros t s. rewrite Hpx1. destruct q as [q1 q2]. simpl.
    destruct (decide (t = q1 ∧ s = q2)) as [[-> ->] | Hne].
    + rewrite decide_True; [done|]. by apply list_elem_of_singleton.
    + rewrite decide_False; [done|].
      intros [= -> ->]%list_elem_of_singleton. tauto.
Qed.

Section CircleFits.

Context {A : Type}.
Variables (yc xc r : Z) (v : A) (ny nx nc : Z).
Hypothesis radius : 1 <= r.
Hypothesis fits_y : r <= yc ∧ yc + r < ny.
Hypothesis fits_x : r <= xc ∧ xc + r < nx.

(** What the loop keeps of [x], [y] and the decision variable [p]. *)
Let circle_inv (x y p : Z) : Prop :=
  0 <= x ∧ 0 <= y <= r ∧ x <= y + 1 ∧
  p = 2 * (x * x + y * y - r * r) + 4 * x + 2 * y - 4 * r + 3 ∧
  4 * x - 4 * y - 2 <= p <= 4 * x + 2.

Lemma circle_inv_start : circle_inv 0 r (3 - 2 * r).
Proof. unfold circle_inv. lia. Qed.

Lemma circle_inv_step (x y p : Z) :
  circle_inv x y p → x < y →
  if p <? 0 then circle_inv (x + 1) y (p + (4 * x + 6))
  else circle_inv (x + 1) (y - 1) (p + (4 * (x - y) + 6)).
Proof.
  unfold circle_inv. intros (Hx & Hy & Hxy & Hp & Hlo & Hhi) Hlt.
  destruct (Z.ltb_spec p 0); repeat split; lia.
Qed.

Lemma circle_inv_near (x y p : Z) :
  circle_inv x y p → x <= y →
  (r - 1) * (r - 1) < x * x + y * y < (r + 1) * (r + 1).
Proof.
  unfold circle_inv. intros (Hx & Hy & Hxy & Hp & Hlo & Hhi) Hle.
  split; [|lia].
  destruct (decide (y = r)) as [-> | Hne]; [nia|lia].
Qed.

Lemma circle_points_near (x y p : Z) (q : Z * Z) :
  circle_inv x y p → x <= y → q ∈ circle_points yc xc x y →
  (0 <= q.1 < ny ∧ 0 <= q.2 < nx) ∧ on_circle yc xc r q.1 q.2.
Proof.
  intros Hinv Hle Hq.
  pose proof (circle_inv_near x y p Hinv Hle) as Hnear.
  destruct Hinv as (Hx & Hy & _).
  unfold circle_points in Hq. unfold on_circle.
  repeat (apply elem_of_cons in Hq as [-> | Hq]);
    [.. | by apply elem_of_nil in Hq]; simpl; (split; [lia|]);
    match goal with
    | |- _ < ?e < _ => replace e with (x * x + y * y) by ring
    end; done.
Qed.

Lemma draw_circle_fast_loop_fits (fuel : nat) (im : image A) (x y p : Z) :
  shaped ny nx nc im → circle_inv x y p → (Z.to_nat (y - x) <= fuel)%nat →
  ∃ im' x' y' p' written,
    draw_circle_fast_loop fuel im yc xc v x y p = Ok (im', x', y') ∧
    shaped ny nx nc im' ∧ circle_inv x' y' p' ∧ y' <= x' ∧
    drawn v im im' written ∧
    (∀ q, q ∈ written →
          (0 <= q.1 < ny ∧ 0 <= q.2 < nx) ∧ on_circle yc xc r q.1 q.2) ∧
    (x < y → ∀ q, q ∈ circle_points yc xc x y → q ∈ written).
Proof.
  revert im x y p. induction fuel as [|fuel IH]; intros im x y p Hsh Hinv Hfuel.
  - assert (Hge : y <= x) by lia.
    exists im, x, y, p, []. simpl.
    destruct (Z.ltb_spec x y); [lia|].
    split; [done|]. split; [done|]. split; [done|]. split; [done|].
    split; [apply drawn_nil|]. split; [|lia].
    by intros q ?%elem_of_nil.
  - cbn [draw_circle_fast_loop]. destruct (Z.ltb_spec x y) as [Hlt | Hge].
    2:{ exists im, x, y, p, [].
        split; [done|]. split; [done|]. split; [done|]. split; [done|].
        split; [apply drawn_nil|]. split; [|lia].
        by intros q ?%elem_of_nil. }
    destruct (plot_points_drawn ny nx nc v (circle_points yc xc x y) im Hsh)
      as (im1 & -> & Hsh1 & Hdrawn1).
    { intros q Hq. apply (circle_points_near x y p); [done|lia|done]. }
    cbn [bind]. pose proof (circle_inv_step x y p Hinv Hlt) as Hstep.
    destruct (p <? 0).
    + destruct (IH im1 (x + 1) y (p + (4 * x + 6)) Hsh1 Hstep)
        as (im2 & x' & y' & p' & w & -> & Hsh2 & Hinv2 & Hxy2 & Hdrawn2
            & Hnear2 & _); [lia|].
      exists im2, x', y', p', (circle_points yc xc x y ++ w).
      split; [done|]. split; [done|]. split; [done|]. split; [done|].
      split; [by eapply drawn_app|]. split.
      * intros q [Hq | Hq]%elem_of_app; [|by apply Hnear2].
        apply (circle_points_near x y p); [done|lia|done].
      * intros _ q Hq. apply elem_of_app. by left.
    + destruct (IH im1 (x + 1) (y - 1) (p + (4 * (x - y) + 6)) Hsh1 Hstep)
        as (im2 & x' & y' & p' & w & -> & Hsh2 & Hinv2 & Hxy2 & Hdrawn2
            & Hnear2 & _); [lia|].
      exists im2, x', y', p', (circle_points yc xc x y ++ w).
      split; [done|]. split; [done|]. split; [done|]. split; [done|].
      split; [by eapply drawn_app|]. split.
      * intros q [Hq | Hq]%elem_of_app; [|by apply Hnear2].
        apply (circle_points_near x y p); [done|lia|done].
      * intros _ q Hq. apply elem_of_app. by left.
Qed.

Lemma draw_circle_fast_fits (im : image A) :
  shaped ny nx nc im →
  ∃ im' written,
    draw_circle_fast im yc xc r v = Ok im' ∧ shaped ny nx nc im' ∧
    drawn v im im' written ∧
    (∀ q, q ∈ written →
          (0 <= q.1 < ny ∧ 0 <= q.2 < nx) ∧ on_circle yc xc r q.1 q.2) ∧
    (yc + r, xc) ∈ written ∧ (yc - r, xc) ∈ written ∧
    (yc, xc + r) ∈ written ∧ (yc, xc - r) ∈ written.
Proof.
  intros Hsh. unfold draw_circle_fast.
  destruct (draw_circle_fast_loop_fits (Z.to_nat r) im 0 r (3 - 2 * r) Hsh
              circle_inv_start)
    as (im1 & x' & y' & p' & w & -> & Hsh1 & Hinv1 & Hxy1 & Hdrawn1 & Hnear1
        & Haxis); [lia|].
  cbn [bind].
  assert (Haxes : (yc + r, xc) ∈ w ∧ (yc - r, xc) ∈ w ∧
                  (yc, xc + r) ∈ w ∧ (yc, xc - r) ∈ w).
  { specialize (Haxis ltac:(lia)). unfold circle_points in Haxis.
    rewrite !Z.add_0_r, !Z.sub_0_r in Haxis.
    repeat split; apply Haxis; repeat (first [by left | right]). }
  destruct (Z.eqb_spec x' y') as [-> | Hne].
  - destruct (plot_points_drawn ny nx nc v (circle_points yc xc y' y') im1 Hsh1)
      as (im2 & -> & Hsh2 & Hdrawn2).
    { intros q Hq. apply (circle_points_near y' y' p'); [done|lia|done]. }
    exists im2, (w ++ circle_points yc xc y' y').
    split; [done|]. split; [done|]. split; [by eapply drawn_app|]. split.
    + intros q [Hq | Hq]%elem_of_app; [by apply Hnear1|].
      apply (circle_points_near y' y' p'); [done|lia|done].
    + rewrite !elem_of_app. tauto.
  - exists im1, w. done.
Qed.

End CircleFits.

(** A circle of radius at least one that fits in a well-formed image:
    [draw_circle_fast] returns normally an image of the same extents;
    the pixels it assigns get [v] in every channel, lie inside the image
    and within one pixel of the circle, and the four points of the circle
    on the axes through the centre are among them; every other pixel is
    as it was. *)
Theorem draw_circle_fast_inside {A : Type} (im : image A) (yc xc r : Z)
    (v : A) :
  wf_image im → 1 <= r →
  r <= yc → yc + r < (sizes im).1.1 → r <= xc → xc + r < (sizes im).1.2 →
  ∃ im' written,
    draw_circle_fast im yc xc r v = Ok im' ∧
    wf_image im' ∧ sizes im' = sizes im ∧ drawn v im im' written ∧
    (∀ t s, (t, s) ∈ written → inside im t s ∧ on_circle yc xc r t s) ∧
    (yc + r, xc) ∈ written ∧ (yc - r, xc) ∈ written ∧
    (yc, xc + r) ∈ written ∧ (yc, xc - r) ∈ written.
Proof.
  intros Hwf Hr Hy1 Hy2 Hx1 Hx2. unfold inside.
  destruct (sizes im) as [[ny nx] nc] eqn:Hs. simpl in Hy2, Hx2.
  destruct (draw_circle_fast_fits yc xc r v ny nx nc Hr (conj Hy1 Hy2)
              (conj Hx1 Hx2) im)
    as (im' & written & Heq & [Hwf' Hs'] & Hdrawn & Hnear & Haxes); [done|].
  exists im', written. split; [done|]. split; [done|]. split; [done|].
  split; [done|]. split; [|done].
  intros t s Hin. apply (Hnear (t, s) Hin).
Qed.

Lemma draw_circle_fast_inside_witness :
  ∃ im' written,
    draw_circle_fast (full 7 7 1 0) 3 3 2 9 = Ok im' ∧
    wf_image im' ∧ sizes im' = sizes (full 7 7 1 0) ∧
    drawn 9 (full 7 7 1 0) im' written ∧
    (∀ t s, (t, s) ∈ written →
            inside (full 7 7 1 0) t s ∧ on_circle 3 3 2 t s) ∧
    (3 + 2, 3) ∈ written ∧ (3 - 2, 3) ∈ written ∧
    (3, 3 + 2) ∈ written ∧ (3, 3 - 2) ∈ written.
Proof.
  apply (draw_circle_fast_inside (full 7 7 1 0) 3 3 2 9).
  - unfold wf_image. vm_compute. repeat constructor.
  - lia.
  - lia.
  - vm_compute. reflexivity.
  - lia.
  - vm_compute. reflexivity.
Defined.

(** ** Assignments to slices: [draw_border] *)

Lemma assign_slice_sizes {A : Type} (im : image A) (ylo yhi xlo xhi : Z)
    (v : A) :
  sizes (assign_slice im ylo yhi xlo xhi v) = sizes im.
Proof.
  unfold assign_slice. destruct (sizes im) as [[ny nx] nc] eqn:Hs.
  rewrite <- Hs. unfold sizes. rewrite length_imap.
  destruct im as [|row0 rest]; [done|]. rewrite imap_cons. cbn [hd].
  destruct (in_slice ny ylo yhi (Z.of_nat 0)); [|done].
  rewrite length_imap. destruct row0 as [|p0 row0]; [done|].
  rewrite imap_cons. cbn [hd].
  destruct (in_slice nx xlo xhi (Z.of_nat 0)); [|done].
  by rewrite length_map.
Qed.

(** An assignment to a slice keeps a well-formed image well-formed and
    sets the pixels of the rows and the columns of the slice. *)
Lemma assign_slice_pixels {A : Type} (im : image A) (ylo yhi xlo xhi : Z)
    (v : A) :
  wf_image im →
  wf_image (assign_slice im ylo yhi xlo xhi v) ∧
  ∀ t s, inside im t s →
    pixel (assign_slice im ylo yhi xlo xhi v) t s =
    if in_slice (sizes im).1.1 ylo yhi t && in_slice (sizes im).1.2 xlo xhi s
    then map (fun _ => v) (pixel im t s) else pixel im t s.
Proof.
  intros Hwf. split.
  - unfold wf_image. rewrite assign_slice_sizes.
    unfold assign_slice. destruct (sizes im) as [[ny nx] nc] eqn:Hs.
    cbn [fst snd]. apply Forall_lookup. intros i row' Hrow'.
    rewrite list_lookup_imap in Hrow'.
    destruct (im !! i) as [row|] eqn:Hrow; [|done].
    simpl in Hrow'. injection Hrow' as <-.
    destruct (wf_image_row im i row Hwf Hrow) as [Hlen Hpx].
    rewrite Hs in Hlen, Hpx. cbn [fst snd] in Hlen, Hpx.
    destruct (in_slice ny ylo yhi (Z.of_nat i)); [|done].
    rewrite length_imap. split; [done|].
    apply Forall_lookup. intros j p' Hp'.
    rewrite list_lookup_imap in Hp'.
    destruct (row !! j) as [p|] eqn:Hp; [|done].
    simpl in Hp'. injection Hp' as <-.
    rewrite Forall_lookup in Hpx. specialize (Hpx j p Hp).
    destruct (in_slice nx xlo xhi (Z.of_nat j)); [|done].
    by rewrite length_map.
  - intros t s [Ht Hs2].
    destruct (wf_image_pixel im t s Hwf Ht Hs2)
      as (row & p & Hrow & Hp & _ & _).
    rewrite (pixel_lookup im t s row p) by (done || lia).
    unfold assign_slice. destruct (sizes im) as [[ny nx] nc] eqn:Hs.
    cbn [fst snd] in *. unfold pixel.
    destruct (Z.leb_spec 0 t), (Z.leb_spec 0 s); try lia. simpl.
    rewrite list_lookup_imap, Hrow. simpl.
    rewrite Z2Nat.id by lia.
    destruct (in_slice ny ylo yhi t); simpl.
    + rewrite list_lookup_imap, Hp. simpl. rewrite Z2Nat.id by lia.
      by destruct (in_slice nx xlo xhi s).
    + by rewrite Hp.
Qed.

Lemma in_slice_first (n w t : Z) :
  0 <= w → 0 <= t < n → in_slice n 0 w t = (t <? w).
Proof.
  intros Hw Ht. unfold in_slice, slice_bound.
  destruct (Z.ltb_spec 0 0); [lia|]. destruct (Z.ltb_spec w 0); [lia|].
  rewrite Z.min_l by lia.
  destruct (Z.leb_spec 0 t); [|lia]. simpl.
  destruct (Z.ltb_spec t (Z.min w n)), (Z.ltb_spec t w); try done; lia.
Qed.

Lemma in_slice_whole (n t : Z) : 0 <= t < n → in_slice n 0 n t = true.
Proof.
  intros Ht. unfold in_slice, slice_bound.
  destruct (Z.ltb_spec 0 0); [lia|]. destruct (Z.ltb_spec n 0); [lia|].
  rewrite !Z.min_l by lia.
  destruct (Z.leb_spec 0 t); [|lia]. destruct (Z.ltb_spec t n); [done|lia].
Qed.

(** The last slice starts at [n - w - 1]; when that is negative it
    counts from the end, but then the first slice covers the axis. *)
Lemma in_slice_last (n w t : Z) :
  0 <= w → 0 <= t < n →
  (t <? w) || in_slice n (n - w - 1) n t = (t <? w) || (n - w - 1 <=? t).
Proof.
  intros Hw Ht. destruct (Z.ltb_spec t w) as [Hlt | Hge]; [done|]. simpl.
  unfold in_slice, slice_bound.
  destruct (Z.ltb_spec (n - w - 1) 0); [lia|].
  destruct (Z.ltb_spec n 0); [lia|].
  rewrite !Z.min_l by lia.
  destruct (Z.ltb_spec t n); [|lia]. by rewrite andb_true_r.
Qed.

Lemma border_slices (ny nx width t s : Z) :
  0 <= width → 0 <= t < ny → 0 <= s < nx →
  (in_slice ny 0 width t && in_slice nx 0 nx s)
  || (in_slice ny (ny - width - 1) ny t && in_slice nx 0 nx s)
  || (in_slice ny 0 ny t && in_slice nx 0 width s)
  || (in_slice ny 0 ny t && in_slice nx (nx - width - 1) nx s)
  = on_border ny nx width t s.
Proof.
  intros Hw Ht Hs. unfold on_border.
  rewrite (in_slice_whole ny t Ht), (in_slice_whole nx s Hs).
  rewrite (in_slice_first ny width t Hw Ht), (in_slice_first nx width s Hw Hs).
  pose proof (in_slice_last ny width t Hw Ht) as Hy.
  pose proof (in_slice_last nx width s Hw Hs) as Hx.
  destruct (t <? width), (in_slice ny (ny - width - 1) ny t),
    (ny - width - 1 <=? t), (s <? width),
    (in_slice nx (nx - width - 1) nx s), (nx - width - 1 <=? s);
    simpl in *; congruence.
Qed.

(** [draw_border] never raises. On a well-formed image and a width that
    is not negative it sets, in every channel, the pixels of the first
    [width] rows and columns and those of the last [width + 1] rows and
    columns, and leaves the others: the border is one pixel wider at the
    bottom and on the right than at the top and on the left. *)
Theorem draw_border_sides {A : Type} (im : image A) (v : A) (width : Z) :
  wf_image im → 0 <= width →
  wf_image (draw_border im v width) ∧
  sizes (draw_border im v width) = sizes im ∧
  ∀ t s, inside im t s →
    pixel (draw_border im v width) t s =
    if on_border (sizes im).1.1 (sizes im).1.2 width t s
    then map (fun _ => v) (pixel im t s) else pixel im t s.
Proof.
  intros Hwf Hw. unfold draw_border.
  destruct (sizes im) as [[ny nx] nc] eqn:Hs. cbn [fst snd].
  set (im1 := assign_slice im 0 width 0 nx v).
  set (im2 := assign_slice im1 (ny - width - 1) ny 0 nx v).
  set (im3 := assign_slice im2 0 ny 0 width v).
  set (im4 := assign_slice im3 0 ny (nx - width - 1) nx v).
  destruct (assign_slice_pixels im 0 width 0 nx v Hwf) as [Hwf1 Hpx1].
  fold im1 in Hwf1, Hpx1.
  assert (Hs1 : sizes im1 = (ny, nx, nc))
    by (unfold im1; by rewrite assign_slice_sizes).
  destruct (assign_slice_pixels im1 (ny - width - 1) ny 0 nx v Hwf1)
    as [Hwf2 Hpx2].
  fold im2 in Hwf2, Hpx2.
  assert (Hs2 : sizes im2 = (ny, nx, nc))
    by (unfold im2; by rewrite assign_slice_sizes).
  destruct (assign_slice_pixels im2 0 ny 0 width v Hwf2) as [Hwf3 Hpx3].
  fold im3 in Hwf3, Hpx3.
  assert (Hs3 : sizes im3 = (ny, nx, nc))
    by (unfold im3; by rewrite assign_slice_sizes).
  destruct (assign_slice_pixels im3 0 ny (nx - width - 1) nx v Hwf3)
    as [Hwf4 Hpx4].
  fold im4 in Hwf4, Hpx4.
  split; [done|].
  split; [unfold im4; by rewrite assign_slice_sizes|].
  intros t s Hin. unfold inside in Hin. rewrite Hs in Hin. cbn [fst snd] in Hin.
  rewrite <- (border_slices ny nx width t s Hw (proj1 Hin) (proj2 Hin)).
  rewrite Hpx4 by (unfold inside; by rewrite Hs3).
  rewrite Hpx3 by (unfold inside; by rewrite Hs2).
  rewrite Hpx2 by (unfold inside; by rewrite Hs1).
  rewrite Hpx1 by (unfold inside; by rewrite Hs).
  rewrite Hs, Hs1, Hs2, Hs3. cbn [fst snd].
  destruct (in_slice ny 0 width t && in_slice nx 0 nx s),
    (in_slice ny (ny - width - 1) ny t && in_slice nx 0 nx s),
    (in_slice ny 0 ny t && in_slice nx 0 width s),
    (in_slice ny 0 ny t && in_slice nx (nx - width - 1) nx s);
    simpl; rewrite ?map_const_idemp; done.
Qed.

Lemma draw_border_sides_witness :
  wf_image (draw_border (full 7 7 1 0) 9 2) ∧
  sizes (draw_border (full 7 7 1 0) 9 2) = sizes (full 7 7 1 0) ∧
  ∀ t s, inside (full 7 7 1 0) t s →
    pixel (draw_border (full 7 7 1 0) 9 2) t s =
    if on_border (sizes (full 7 7 1 0)).1.1 (sizes (full 7 7 1 0)).1.2 2 t s
    then map (fun _ => 9) (pixel (full 7 7 1 0) t s)
    else pixel (full 7 7 1 0) t s.
Proof.
  apply (draw_border_sides (full 7 7 1 0) 9 2).
  - unfold wf_image. vm_compute. repeat constructor.
  - lia.
Defined.

(** ** Lines along the axes, and [draw_box] *)

Lemma line_advance_flat (de : Q) (ystep : Z) (e : Q) (y : Z) (k : nat) :
  (de == 0)%Q → (e == 0)%Q →
  ((Nat.iter k (line_advance de ystep) (e, y)).1 == 0)%Q ∧
  (Nat.iter k (line_advance de ystep) (e, y)).2 = y.
Proof.
  intros Hde He. induction k as [|k [IH1 IH2]]; [done|].
  rewrite Nat.iter_succ.
  destruct (Nat.iter k (line_advance de ystep) (e, y)) as [e' y'].
  cbn [fst snd] in IH1, IH2. unfold line_advance. cbn [fst snd].
  destruct (Qle_bool (1 # 2) (e' + de)) eqn:Hcmp.
  - apply Qle_bool_iff in Hcmp. exfalso. lra.
  - cbn [fst snd]. split; [lra|done].
Qed.

(** With no rise, [y] stays where it is for as many turns as the loop
    makes. *)
Lemma line_advance_level (dx ystep y : Z) (k : nat) :
  0 <= dx → Z.of_nat k <= dx →
  (Nat.iter k (line_advance (slope (inject_Z dx) 0) ystep) (0%Q, y)).2 = y.
Proof.
  intros Hdx Hk. destruct (decide (dx = 0)) as [-> | Hne].
  - assert (k = O) as -> by lia. done.
  - apply line_advance_flat; [|done]. unfold slope.
    destruct (Qeq_bool (inject_Z dx) 0) eqn:Hz.
    + apply Qeq_bool_eq in Hz. change 0%Q with (inject_Z 0) in Hz.
      rewrite inject_Z_injective in Hz. lia.
    + unfold Qdiv. change (inject_Z 0) with 0%Q. apply Qmult_0_l.
Qed.

Lemma line_plot_written {A : Type} (ny nx : Z) (steep : bool) (v : A)
    (x y : Z) (im im' : image A) (written written' : list (Z * Z)) :
  line_plot ny nx steep v x y im written = Ok (im', written') →
  ∀ q, q ∈ written' ↔
       q ∈ written ∨
       (q = (if steep then (x, y) else (y, x)) ∧
        0 <= q.1 < ny ∧ 0 <= q.2 < nx).
Proof.
  unfold line_plot. intros Heq q. destruct steep.
  - destruct (Z.leb_spec 0 x), (Z.ltb_spec x ny), (Z.leb_spec 0 y),
      (Z.ltb_spec y nx); simpl in Heq;
      try (injection Heq as <- <-; split; [by left|];
           intros [? | [-> ?]]; [done|simpl in *; lia]).
    destruct (setitem2 im x y v); simpl in Heq; try discriminate.
    injection Heq as <- <-. rewrite elem_of_app, list_elem_of_singleton.
    split; [intros [? | ->]; [by left|right; split; [done|simpl; lia]]|].
    intros [? | [-> _]]; [by left|by right].
  - destruct (Z.leb_spec 0 x), (Z.ltb_spec x nx), (Z.leb_spec 0 y),
      (Z.ltb_spec y ny); simpl in Heq;
      try (injection Heq as <- <-; split; [by left|];
           intros [? | [-> ?]]; [done|simpl in *; lia]).
    destruct (setitem2 im y x v); simpl in Heq; try discriminate.
    injection Heq as <- <-. rewrite elem_of_app, list_elem_of_singleton.
    split; [intros [? | ->]; [by left|right; split; [done|simpl; lia]]|].
    intros [? | [-> _]]; [by left|by right].
Qed.

(** The pixels a run of the loop assigns: for the [k]-th abscissa the
    pixel at the ordinate that [k] turns of the accumulator give, when it
    is inside the image. *)
Lemma draw_line_fast_run_written {A : Type} (ny nx : Z) (steep : bool)
    (de : Q) (ystep : Z) (v : A) (xs : list Z) (st st' : line_state A) :
  for_each xs (draw_line_fast_step ny nx steep de ystep v) st = Ok st' →
  ∀ q, q ∈ st'.2 ↔
       q ∈ st.2 ∨
       ∃ (k : nat) (x : Z),
         xs !! k = Some x ∧
         q = (if steep
              then (x, (Nat.iter k (line_advance de ystep)
                                 (st.1.1.2, st.1.2)).2)
              else ((Nat.iter k (line_advance de ystep)
                              (st.1.1.2, st.1.2)).2, x)) ∧
         0 <= q.1 < ny ∧ 0 <= q.2 < nx.
Proof.
  revert st. induction xs as [|x xs IH]; intros st Heq q.
  - injection Heq as <-. split; [by left|].
    intros [? | (k & x & Hl & _)]; [done|]. by rewrite lookup_nil in Hl.
  - cbn [for_each] in Heq.
    destruct (draw_line_fast_step ny nx steep de ystep v x st)
      as [st1| |] eqn:Hstep; simpl in Heq; try discriminate.
    rewrite (IH st1 Heq q). clear IH Heq.
    destruct st as [[[im e] y] w]. unfold draw_line_fast_step in Hstep.
    destruct (line_plot ny nx steep v x y im w)
      as [[im1 w1]| |] eqn:Hplot; simpl in Hstep; try discriminate.
    destruct (line_advance de ystep (e, y)) as [e1 y1] eqn:Hadv.
    injection Hstep as <-. cbn [fst snd].
    rewrite (line_plot_written _ _ _ _ _ _ _ _ _ _ Hplot q).
    split.
    + intros [[Hq | Hq] | (k & x' & Hl & Hq)].
      * by left.
      * right. exists O, x. done.
      * right. exists (S k), x'. split; [done|].
        by rewrite Nat.iter_succ_r, Hadv.
    + intros [Hq | (k & x' & Hl & Hq)]; [by left; left|].
      destruct k as [|k].
      * injection Hl as <-. left. right. done.
      * right. exists k, x'. split; [done|].
        by rewrite Nat.iter_succ_r, Hadv in Hq.
Qed.

(** A run without rise over the abscissae from [X0] to [X1]. *)
Lemma draw_line_fast_flat_written {A : Type} (ny nx : Z) (steep : bool)
    (ystep : Z) (v : A) (X0 X1 Y : Z) (im : image A) (st' : line_state A) :
  X0 <= X1 →
  for_each (xrange X0 (X1 + 1))
    (draw_line_fast_step ny nx steep (slope (inject_Z (X1 - X0)) 0) ystep v)
    (im, 0%Q, Y, []) = Ok st' →
  ∀ q, q ∈ st'.2 ↔
       ∃ x, X0 <= x <= X1 ∧ q = (if steep then (x, Y) else (Y, x)) ∧
            0 <= q.1 < ny ∧ 0 <= q.2 < nx.
Proof.
  intros HX Hrun q.
  rewrite (draw_line_fast_run_written _ _ _ _ _ _ _ _ _ Hrun q).
  cbn [fst snd]. split.
  - intros [Hq | (k & x & Hl & Hq)]; [by apply elem_of_nil in Hq|].
    pose proof (lookup_lt_Some _ _ _ Hl) as Hk. rewrite xrange_length in Hk.
    rewrite xrange_lookup in Hl by lia. injection Hl as <-.
    rewrite line_advance_level in Hq by lia.
    exists (X0 + Z.of_nat k). split; [lia|done].
  - intros (x & Hx & Hq). right.
    exists (Z.to_nat (x - X0)), x. split.
    + rewrite xrange_lookup by lia. f_equal. lia.
    + rewrite line_advance_level by lia. done.
Qed.

Lemma line_ends_level (y xa xb : Z) :
  line_ends y xa y xb = (false, (y, Z.min xa xb, y, Z.max xa xb)).
Proof.
  unfold line_ends. rewrite Z.sub_diag. change (Z.abs 0) with 0.
  destruct (Z.ltb_spec (Z.abs (xb - xa)) 0); [lia|].
  destruct (Z.ltb_spec xb xa);
    [rewrite Z.min_r, Z.max_l by lia | rewrite Z.min_l, Z.max_r by lia];
    done.
Qed.

Lemma line_ends_upright (ya yb x : Z) :
  ya ≠ yb →
  line_ends ya x yb x = (true, (x, Z.min ya yb, x, Z.max ya yb)).
Proof.
  intros Hne. unfold line_ends. rewrite Z.sub_diag. change (Z.abs 0) with 0.
  destruct (Z.ltb_spec 0 (Z.abs (yb - ya))); [|lia].
  destruct (Z.ltb_spec yb ya);
    [rewrite Z.min_r, Z.max_l by lia | rewrite Z.min_l, Z.max_r by lia];
    done.
Qed.

(** A line along a row: the pixels of the row between the two end
    points that lie inside the image, in either order of the end
    points. *)
Lemma draw_line_fast_level {A : Type} (im : image A) (y xa xb : Z)
    (v : A) :
  wf_image im →
  ∃ im' written,
    draw_line_fast im y xa y xb v = Ok im' ∧
    wf_image im' ∧ sizes im' = sizes im ∧ drawn v im im' written ∧
    ∀ t s, (t, s) ∈ written ↔
           t = y ∧ Z.min xa xb <= s <= Z.max xa xb ∧ inside im t s.
Proof.
  intros Hwf.
  destruct (draw_line_fast_total im y xa y xb v Hwf)
    as (im' & written & Heq & Hwf' & Hs' & Hdrawn).
  exists im', written.
  split; [unfold draw_line_fast; by rewrite Heq|].
  split; [done|]. split; [done|]. split; [done|].
  unfold draw_line_fast_trace in Heq. rewrite line_ends_level in Heq.
  unfold inside. destruct (sizes im) as [[ny nx] nc]. cbn [fst snd].
  cbv beta iota zeta in Heq.
  replace (Z.abs (y - y)) with 0 in Heq by lia.
  destruct (for_each _ _ _) as [[[[im1 e1] y1] w1]| |] eqn:Hrun;
    simpl in Heq; try discriminate.
  injection Heq as -> ->. intros t s.
  rewrite (draw_line_fast_flat_written ny nx false _ v (Z.min xa xb)
             (Z.max xa xb) y im _ ltac:(lia) Hrun (t, s)).
  cbn [fst snd]. split.
  - intros (x & Hx & [= -> ->] & Hin). lia.
  - intros (-> & Hs & Hin). exists s. split; [lia|]. split; [done|lia].
Qed.

(** A line along a column. *)
Lemma draw_line_fast_upright {A : Type} (im : image A) (ya yb x : Z)
    (v : A) :
  wf_image im →
  ∃ im' written,
    draw_line_fast im ya x yb x v = Ok im' ∧
    wf_image im' ∧ sizes im' = sizes im ∧ drawn v im im' written ∧
    ∀ t s, (t, s) ∈ written ↔
           s = x ∧ Z.min ya yb <= t <= Z.max ya yb ∧ inside im t s.
Proof.
  intros Hwf. destruct (decide (ya = yb)) as [<- | Hne].
  { destruct (draw_line_fast_level im ya x x v Hwf)
      as (im' & written & Heq & Hwf' & Hs' & Hdrawn & Hw).
    exists im', written. split; [done|]. split; [done|]. split; [done|].
    split; [done|]. intros t s. rewrite Hw. unfold inside. lia. }
  destruct (draw_line_fast_total im ya x yb x v Hwf)
    as (im' & written & Heq & Hwf' & Hs' & Hdrawn).
  exists im', written.
  split; [unfold draw_line_fast; by rewrite Heq|].
  split; [done|]. split; [done|]. split; [done|].
  unfold draw_line_fast_trace in Heq.
  rewrite (line_ends_upright ya yb x Hne) in Heq.
  unfold inside. destruct (sizes im) as [[ny nx] nc]. cbn [fst snd].
  cbv beta iota zeta in Heq.
  replace (Z.abs (x - x)) with 0 in Heq by lia.
  destruct (for_each _ _ _) as [[[[im1 e1] y1] w1]| |] eqn:Hrun;
    simpl in Heq; try discriminate.
  injection Heq as -> ->. intros t s.
  rewrite (draw_line_fast_flat_written ny nx true _ v (Z.min ya yb)
             (Z.max ya yb) x im _ ltac:(lia) Hrun (t, s)).
  cbn [fst snd]. split.
  - intros (t' & Ht & [= -> ->] & Hin). lia.
  - intros (-> & Ht & Hin). exists t. split; [lia|]. split; [done|lia].
Qed.

(** A box that lies inside a well-formed image: [draw_box] returns
    normally an image of the same extents in which the pixels on the
    outline of the box hold the border value in every channel, the pixels
    strictly within hold the fill value when one is given and are as
    they were when none is, and the pixels outside the box are as they
    were. *)
Theorem draw_box_outline {A : Type} (im : image A) (ylo xlo yhi xhi : Z)
    (border : A) (fill : option A) :
  wf_image im →
  0 <= ylo <= yhi → yhi < (sizes im).1.1 →
  0 <= xlo <= xhi → xhi < (sizes im).1.2 →
  ∃ im', draw_box im ylo xlo yhi xhi border fill = Ok im' ∧
         wf_image im' ∧ sizes im' = sizes im ∧
         ∀ t s, inside im t s →
           (on_outline ylo xlo yhi xhi t s →
            pixel im' t s = map (fun _ => border) (pixel im t s)) ∧
           (within_box ylo xlo yhi xhi t s →
            pixel im' t s =
            match fill with
            | Some f => map (fun _ => f) (pixel im t s)
            | None => pixel im t s
            end) ∧
           (¬ on_outline ylo xlo yhi xhi t s →
            ¬ within_box ylo xlo yhi xhi t s →
            pixel im' t s = pixel im t s).
Proof.
  intros Hwf Hy Hyhi Hx Hxhi. unfold draw_box.
  destruct (draw_line_fast_level im ylo xlo xhi border Hwf)
    as (im1 & w1 & -> & Hwf1 & Hs1 & Hd1 & Hw1).
  cbn [bind].
  destruct (draw_line_fast_upright im1 ylo yhi xhi border Hwf1)
    as (im2 & w2 & -> & Hwf2 & Hs2 & Hd2 & Hw2).
  cbn [bind].
  destruct (draw_line_fast_level im2 yhi xhi xlo border Hwf2)
    as (im3 & w3 & -> & Hwf3 & Hs3 & Hd3 & Hw3).
  cbn [bind].
  destruct (draw_line_fast_upright im3 yhi ylo xlo border Hwf3)
    as (im4 & w4 & -> & Hwf4 & Hs4 & Hd4 & Hw4).
  cbn [bind].
  assert (Hs4' : sizes im4 = sizes im) by congruence.
  pose proof (drawn_app _ _ _ _ _ _
                (drawn_app _ _ _ _ _ _ (drawn_app _ _ _ _ _ _ Hd1 Hd2) Hd3)
                Hd4) as Hd.
  assert (Hout : ∀ t s, inside im t s →
            ((t, s) ∈ ((w1 ++ w2) ++ w3) ++ w4 ↔
             on_outline ylo xlo yhi xhi t s)).
  { intros t s Hin. rewrite !elem_of_app, Hw1, Hw2, Hw3, Hw4.
    unfold inside in *. rewrite Hs1, Hs2, Hs3, ?Hs1. rewrite Hs2, Hs1.
    unfold on_outline. lia. }
  assert (Hpx4 : ∀ t s, inside im t s →
            pixel im4 t s =
            if decide (on_outline ylo xlo yhi xhi t s)
            then map (fun _ => border) (pixel im t s) else pixel im t s).
  { intros t s Hin. rewrite Hd. specialize (Hout t s Hin).
    destruct (decide ((t, s) ∈ ((w1 ++ w2) ++ w3) ++ w4)),
      (decide (on_outline ylo xlo yhi xhi t s)); tauto. }
  destruct fill as [f|].
  - destruct (assign_slice_pixels im4 (ylo + 1) yhi (xlo + 1) xhi f Hwf4)
      as [Hwf5 Hpx5].
    eexists. split; [reflexivity|]. split; [done|].
    split; [unfold set_region; by rewrite assign_slice_sizes|].
    intros t s Hin. unfold set_region.
    rewrite Hpx5 by (unfold inside; by rewrite Hs4').
    rewrite Hs4', (Hpx4 t s Hin).
    assert (Hslice :
      in_slice (sizes im).1.1 (ylo + 1) yhi t
      && in_slice (sizes im).1.2 (xlo + 1) xhi s = true ↔
      within_box ylo xlo yhi xhi t s).
    { unfold in_slice, slice_bound, within_box.
      rewrite !Bool.andb_true_iff, !Z.leb_le, !Z.ltb_lt.
      destruct (Z.ltb_spec (ylo + 1) 0), (Z.ltb_spec yhi 0),
        (Z.ltb_spec (xlo + 1) 0), (Z.ltb_spec xhi 0); lia. }
    destruct (in_slice (sizes im).1.1 (ylo + 1) yhi t
              && in_slice (sizes im).1.2 (xlo + 1) xhi s) eqn:Hcase.
    + assert (Hwithin : within_box ylo xlo yhi xhi t s) by (by apply Hslice).
      rewrite decide_False by (unfold within_box, on_outline in *; lia).
      split; [unfold within_box, on_outline in *; lia|].
      split; [done|]. tauto.
    + assert (Hnot : ¬ within_box ylo xlo yhi xhi t s).
      { intros Hw. apply Hslice in Hw. congruence. }
      case_decide; (split; [done|]); (split; [done|]); tauto.
  - exists im4. split; [done|]. split; [done|]. split; [done|].
    intros t s Hin. rewrite (Hpx4 t s Hin).
    case_decide as Hcase.
    + split; [done|]. split; [|tauto].
      unfold within_box, on_outline in *. lia.
    + split; [done|]. split; done.
Qed.

Lemma draw_box_outline_witness :
  ∃ im', draw_box (full 7 7 1 0) 1 2 4 5 9 (Some 3) = Ok im' ∧
         wf_image im' ∧ sizes im' = sizes (full 7 7 1 0) ∧
         ∀ t s, inside (full 7 7 1 0) t s →
           (on_outline 1 2 4 5 t s →
            pixel im' t s = map (fun _ => 9) (pixel (full 7 7 1 0) t s)) ∧
           (within_box 1 2 4 5 t s →
            pixel im' t s =
            match Some 3 with
            | Some f => map (fun _ => f) (pixel (full 7 7 1 0) t s)
            | None => pixel (full 7 7 1 0) t s
            end) ∧
           (¬ on_outline 1 2 4 5 t s →
            ¬ within_box 1 2 4 5 t s →
            pixel im' t s = pixel (full 7 7 1 0) t s).
Proof.
  apply (draw_box_outline (full 7 7 1 0) 1 2 4 5 9 (Some 3)).
  - unfold wf_image. vm_compute. repeat constructor.
  - lia.
  - vm_compute. reflexivity.
  - lia.
  - vm_compute. reflexivity.
Defined.

(** ** [subsample] *)

Lemma subsample_index (n inc y : Z) :
  1 <= inc → 0 <= y < n / inc → 0 <= inc * y < n.
Proof.
  intros Hinc Hy. pose proof (Z.mul_div_le n inc ltac:(lia)) as Hle.
  split; [lia|]. nia.
Qed.

(** A pass that stores into every pixel [q] of [ps] the pixel of another
    image at [f q]. *)
Lemma copy_pixels {A : Type} (src : image A) (f : Z * Z → Z * Z)
    (ps : list (Z * Z)) (im : image A) :
  wf_image src → wf_image im → (sizes im).2 = (sizes src).2 → NoDup ps →
  (∀ q, q ∈ ps → inside im q.1 q.2 ∧ inside src (f q).1 (f q).2) →
  ∃ im',
    for_each ps (fun q im => let* p := getitem2 src (f q).1 (f q).2 in
                             setpixel im q.1 q.2 p) im = Ok im' ∧
    wf_image im' ∧ sizes im' = sizes im ∧
    ∀ a b, pixel im' a b =
           if decide ((a, b) ∈ ps) then pixel src (f (a, b)).1 (f (a, b)).2
           else pixel im a b.
Proof.
  intros Hsrc Hwf Hnc Hnd. revert im Hwf Hnc.
  induction Hnd as [|q ps Hfresh Hnd IH]; intros im Hwf Hnc Hps.
  - exists im. split; [done|]. split; [done|]. split; [done|].
    intros a b. rewrite decide_False; [done|]. by intros ?%elem_of_nil.
  - destruct (Hps q ltac:(by left)) as [Hq Hfq].
    cbn [for_each].
    rewrite (getitem2_in_range src _ _ Hsrc (proj1 Hfq) (proj2 Hfq)).
    cbn [bind].
    destruct (setpixel_in_range im q.1 q.2 (pixel src (f q).1 (f q).2) Hwf Hq)
      as (im1 & -> & Hwf1 & Hs1 & Hpx1).
    { rewrite Hnc. by apply pixel_length. }
    cbn [bind].
    destruct (IH im1 Hwf1) as (im2 & Heq2 & Hwf2 & Hs2 & Hpx2).
    { by rewrite Hs1. }
    { intros r Hr. destruct (Hps r ltac:(by right)) as [Hr1 Hr2].
      unfold inside. by rewrite Hs1. }
    exists im2. split; [done|]. split; [done|]. split; [congruence|].
    intros a b. rewrite Hpx2, Hpx1. destruct q as [q1 q2]. simpl.
    destruct (decide ((a, b) ∈ ps)) as [Hin | Hout].
    + rewrite decide_True by (by right). done.
    + destruct (decide (a = q1 ∧ b = q2)) as [[-> ->] | Hne].
      * rewrite decide_True by (by left). done.
      * rewrite decide_False; [done|].
        intros [[= -> ->] | Hin]%elem_of_cons; tauto.
Qed.

(** [subsample] with an increment of zero raises [ZeroDivisionError].
    With an increment of at least one, on a well-formed image, it returns
    an image of [ny // inc] rows whose pixel [(y, x)], for [y] below
    [ny // inc] and [x] below [nx // inc], is the pixel [(inc * y,
    inc * x)] of the argument; the argument is not changed. *)
Theorem subsample_pixels {A : Type} (zero : A) (im : image A) (inc : Z) :
  wf_image im →
  (inc = 0 → subsample zero im inc = Raise ZeroDivisionError) ∧
  (1 <= inc →
   ∃ im2, subsample zero im inc = Ok im2 ∧
          Z.of_nat (length im2) = (sizes im).1.1 / inc ∧
          ∀ y x, 0 <= y < (sizes im).1.1 / inc →
                 0 <= x < (sizes im).1.2 / inc →
                 pixel im2 y x = pixel im (inc * y) (inc * x)).
Proof.
  intros Hwf. unfold subsample.
  destruct (sizes im) as [[ny nx] nc] eqn:Hs. cbn [fst snd]. split.
  { intros ->. done. }
  intros Hinc. unfold floordiv.
  destruct (Z.eqb_spec inc 0) as [-> | _]; [lia|]. cbn [bind].
  assert (Hny : 0 <= ny).
  { apply (f_equal (fun s => s.1.1)) in Hs. rewrite sizes_rows in Hs.
    simpl in Hs. lia. }
  assert (Hnx : 0 <= nx).
  { apply (f_equal (fun s => s.1.2)) in Hs. unfold sizes in Hs.
    simpl in Hs. lia. }
  assert (Hnc : 0 <= nc).
  { apply (f_equal (fun s => s.2)) in Hs. unfold sizes in Hs.
    simpl in Hs. lia. }
  assert (Hny2 : 0 <= ny / inc) by (apply Z.div_pos; lia).
  assert (Hnx2 : 0 <= nx / inc) by (apply Z.div_pos; lia).
  unfold numpy_zeros.
  destruct (Z.ltb_spec (ny / inc) 0), (Z.ltb_spec (nx / inc) 0),
    (Z.ltb_spec nc 0); try lia.
  cbn [orb bind].
  set (im0 := full (Z.to_nat (ny / inc)) (Z.to_nat (nx / inc))
                   (Z.to_nat nc) zero).
  assert (Hlen0 : Z.of_nat (length im0) = ny / inc).
  { unfold im0, full. rewrite length_replicate. lia. }
  destruct (decide (1 <= ny / inc ∧ 1 <= nx / inc)) as [[Hy1 Hx1] | Hempty].
  - destruct (full_shaped (ny / inc) (nx / inc) nc zero Hy1 Hx1 Hnc)
      as [Hwf0 Hs0]. fold im0 in Hwf0, Hs0.
    destruct (copy_pixels im (fun q => (inc * q.1, inc * q.2))
                (y ← xrange 0 (ny / inc); pair y <$> xrange 0 (nx / inc))
                im0 Hwf Hwf0)
      as (im2 & Heq & Hwf2 & Hs2 & Hpx).
    { by rewrite Hs0, Hs. }
    { apply NoDup_grid. }
    { intros [y x] Hq. apply elem_of_grid in Hq. simpl in Hq.
      unfold inside. rewrite Hs0, Hs. simpl.
      split; [lia|]. split; apply subsample_index; lia. }
    exists im2. split.
    + rewrite <- Heq. symmetry.
      apply (for_each_nested pair (xrange 0 (ny / inc)) (xrange 0 (nx / inc))
               (fun q im2 =>
                  let* p := getitem2 im (inc * q.1) (inc * q.2) in
                  setpixel im2 q.1 q.2 p)).
    + split.
      * apply (f_equal (fun s => s.1.1)) in Hs2. rewrite !sizes_rows in Hs2.
        lia.
      * intros y x Hy Hx. rewrite Hpx. rewrite decide_True; [done|].
        apply elem_of_grid. simpl. lia.
  - exists im0. split.
    + destruct (decide (1 <= ny / inc)) as [Hy1 | Hy0].
      * assert (nx / inc = 0) as -> by lia.
        change (xrange 0 0) with (@nil Z).
        clear. generalize (xrange 0 (ny / inc)).
        intros l. induction l as [|y l IH]; [done|]. exact IH.
      * assert (ny / inc = 0) as Hz by lia. rewrite Hz. done.
    + split; [done|]. intros y x Hy Hx. lia.
Qed.

Lemma subsample_pixels_witness :
  (2 = 0 → subsample 0 bent 2 = Raise ZeroDivisionError) ∧
  (1 <= 2 →
   ∃ im2, subsample 0 bent 2 = Ok im2 ∧
          Z.of_nat (length im2) = (sizes bent).1.1 / 2 ∧
          ∀ y x, 0 <= y < (sizes bent).1.1 / 2 →
                 0 <= x < (sizes bent).1.2 / 2 →
                 pixel im2 y x = pixel bent (2 * y) (2 * x)).
Proof.
  apply (subsample_pixels 0 bent 2).
  unfold wf_image. vm_compute. repeat constructor.
Defined.

(** ** [fill_outline] floods the region of the seed *)




Section FloodFill.

Variables (im0 : image Z) (y0 x0 v threshold ny nx : Z).
Hypothesis shaped0 : shaped ny nx 1 im0.

Let vc : Z := channel_sum (pixel im0 y0 x0).

Hypothesis fill_differs : similar vc threshold [v] = false.








End FloodFill.


